(** * visual-python: expression layout and cursor navigation

    A shallow embedding of [src/visual/__main__.py].

    - Python [str] is a sequence of Unicode code points, so a string is a
      [list N]; [len], slicing and [str.format] centering count code points.
    - The only mutable objects the core touches are the [Text] nodes (their
      [text] and [cursor] fields).  A [Text] node is therefore a reference
      into a heap of [Text_obj] records; [Row], [Fraction] and [Parenthesis]
      are immutable structure around those references.  Object identity
      ([is]) of a [Text] node is equality of references.
    - Methods run in a state-and-exception monad [M]: the state is the heap
      together with what has been written to stderr, and an exception leaves
      the state as it was when it was raised.
    - [ScreenOffset] fields and lengths are natural numbers. *)

From Stdlib Require Import String Ascii.
From Stdlib Require Import List Arith Lia Bool NArith.
From Stdlib Require DecimalNat.
Import ListNotations.

Set Implicit Arguments.
Set Warnings "-register-all".

(** ** Strings *)

Abbreviation codepoint := N (only parsing).
Abbreviation str := (list N) (only parsing).

Fixpoint str_eqb (a b : str) : bool :=
  match a, b with
  | [], [] => true
  | x :: a', y :: b' => N.eqb x y && str_eqb a' b'
  | _, _ => false
  end.

(** Reading a UTF-8 literal of this file as a Python string. *)
Fixpoint utf8_decode (bs : list N) : str :=
  match bs with
  | [] => []
  | b0 :: rest =>
    if (b0 <? 128)%N then b0 :: utf8_decode rest
    else if (b0 <? 224)%N then
      match rest with
      | b1 :: rest1 =>
        N.lor (N.shiftl (N.land b0 31) 6) (N.land b1 63) :: utf8_decode rest1
      | _ => []
      end
    else if (b0 <? 240)%N then
      match rest with
      | b1 :: b2 :: rest2 =>
        N.lor (N.shiftl (N.land b0 15) 12)
              (N.lor (N.shiftl (N.land b1 63) 6) (N.land b2 63))
          :: utf8_decode rest2
      | _ => []
      end
    else
      match rest with
      | b1 :: b2 :: b3 :: rest3 =>
        N.lor (N.shiftl (N.land b0 7) 18)
              (N.lor (N.shiftl (N.land b1 63) 12)
                     (N.lor (N.shiftl (N.land b2 63) 6) (N.land b3 63)))
          :: utf8_decode rest3
      | _ => []
      end
  end.

Definition py (s : string) : str :=
  utf8_decode (map N_of_ascii (list_ascii_of_string s)).

Definition SPACE : codepoint := 32%N.

(** Unicode character classes.  On ASCII the classes are spelled out; what
    the Unicode database says about the other code points is a parameter. *)
Class UnicodeData := {
  uc_isalpha : codepoint -> bool;
  uc_isdigit : codepoint -> bool;
  uc_isprintable : codepoint -> bool
}.

Section Chars.
Context {U : UnicodeData}.

Definition in_range (lo hi c : N) : bool := ((lo <=? c) && (c <=? hi))%N.

Definition isalpha (c : codepoint) : bool :=
  if (c <? 128)%N then in_range 65 90 c || in_range 97 122 c
  else uc_isalpha c.

Definition isdigit (c : codepoint) : bool :=
  if (c <? 128)%N then in_range 48 57 c else uc_isdigit c.

Definition char_isprintable (c : codepoint) : bool :=
  if (c <? 128)%N then in_range 32 126 c else uc_isprintable c.

(** [str.isprintable()]: every character is printable (true on the empty
    string). *)
Definition isprintable (s : str) : bool := forallb char_isprintable s.
End Chars.

(** ** Exceptions and the method monad *)

Inductive exn :=
| AssertionError | ValueError | AttributeError | IndexError | RecursionError.

Inductive Res (A : Type) :=
| Ok (a : A)
| Raise (e : exn).
Arguments Raise {A} e.

(** Modelled from the spec: the [visual.ansi] module is not under src/; a
    color tag is an opaque token that is only compared for equality.  The
    constructors are the tags the configuration block names, [ansi_or] is
    the [|] that combines two of them. *)
Inductive ansi :=
| ansi_red | ansi_yellow | ansi_green | ansi_italic | ansi_reset
| ansi_or (a b : ansi).

(** One cell of a color row: the empty string ([no_color]) or a tag. *)
Inductive color :=
| no_color
| Ansi (a : ansi).

(* config *)
Definition NUM_COLOR := ansi_red.
Definition TXT_COLOR := ansi_or ansi_yellow ansi_italic.
Definition OP_COLOR := ansi_green.
Definition FRAC_COLOR := ansi_reset.
Definition PAREN_COLOR := ansi_reset.
Definition FRAC_PADDING := 1.

Record ScreenOffset := mkScreenOffset { row : nat; col : nat }.

Record RenderOutput := mkRenderOutput {
  lines : list str;
  colors : list (list color);
  baseline : nat;
  cursor : option ScreenOffset
}.

(** The fields of a [Text] object. *)
Record Text_obj := mkText { self_text : str; self_cursor : option ScreenOffset }.

Definition ref := nat.
Definition Heap := ref -> Text_obj.

Definition upd (h : Heap) (r : ref) (v : Text_obj) : Heap :=
  fun r' => if Nat.eqb r' r then v else h r'.

Inductive class_name := CText | CRow | CFraction | CParenthesis.

(** What [eprint] is called with, one constructor per call site of
    [Text.press_key]. *)
Inductive diag :=
| D_cancelling_vertical_movement
| D_INSERT (key : str)
| D_SPECIAL_ACTION
| D_REMOVE (ch : codepoint)
| D_GOING_UP
| D_GOING_DOWN
| D_arrow (cls : class_name) (txt : option str)
| D_selected (cls : class_name) (txt : str)
| D_ran_out_of_targets.

Record State := mkState { heap : Heap; stderr : list diag }.

Definition M (A : Type) := State -> Res A * State.

Definition ret {A} (a : A) : M A := fun s => (Ok a, s).
Definition raise {A} (e : exn) : M A := fun s => (Raise e, s).
Definition bind {A B} (m : M A) (f : A -> M B) : M B :=
  fun s => match m s with
           | (Ok a, s') => f a s'
           | (Raise e, s') => (Raise e, s')
           end.
Definition lift {A} (r : Res A) : M A := fun s => (r, s).

Declare Scope monad_scope.
Delimit Scope monad_scope with monad.
Notation "x <- m ;; k" := (bind m (fun x => k))
  (at level 61, m at next level, right associativity) : monad_scope.
Notation "m ;; k" := (bind m (fun _ => k))
  (at level 61, right associativity) : monad_scope.
Open Scope monad_scope.

Definition assert (b : bool) : M unit :=
  if b then ret tt else raise AssertionError.

Definition when (b : bool) (m : M unit) : M unit :=
  if b then m else ret tt.

Section MapM.
Variables (A B : Type) (f : A -> M B).
Fixpoint mapM (l : list A) : M (list B) :=
  match l with
  | [] => ret []
  | a :: l' => b <- f a ;; bs <- mapM l' ;; ret (b :: bs)
  end.
End MapM.

(** Heap access. *)
Definition get_text (self : ref) : M str :=
  fun s => (Ok (self_text (heap s self)), s).
Definition get_cursor (self : ref) : M (option ScreenOffset) :=
  fun s => (Ok (self_cursor (heap s self)), s).
Definition set_text (self : ref) (t : str) : M unit :=
  fun s => (Ok tt,
            mkState (upd (heap s) self (mkText t (self_cursor (heap s self))))
                    (stderr s)).
Definition set_cursor (self : ref) (c : option ScreenOffset) : M unit :=
  fun s => (Ok tt,
            mkState (upd (heap s) self (mkText (self_text (heap s self)) c))
                    (stderr s)).

(** [self.cursor.col]: an [AttributeError] when the cursor is [None]. *)
Definition get_col (self : ref) : M nat :=
  c <- get_cursor self ;;
  match c with
  | Some off => ret (col off)
  | None => raise AttributeError
  end.
(** [self.cursor.col = v]: the same [ScreenOffset] object, one field changed. *)
Definition set_col (self : ref) (v : nat) : M unit :=
  c <- get_cursor self ;;
  match c with
  | Some off => set_cursor self (Some (mkScreenOffset (row off) v))
  | None => raise AttributeError
  end.

Definition eprint (d : diag) : M unit :=
  fun s => (Ok tt, mkState (heap s) (stderr s ++ [d])).

(** ** Alignment helpers *)

(** [f"{s:^{width}}"]: the padding is [width - len(s)], its left half is the
    padding divided by two (rounded down) and the rest goes right; a string
    that is already [width] long or longer comes back unchanged. *)
Definition str_align (s : str) (width : nat) : str :=
  if width <=? length s then s
  else
    let total := width - length s in
    let left := total / 2 in
    repeat SPACE left ++ s ++ repeat SPACE (total - left).

Fixpoint list_align_loop (fuel width : nat) (left : bool) (out : list color)
  : list color :=
  match fuel with
  | 0 => out
  | S fuel' =>
    if length out <? width then
      let left := negb left in
      list_align_loop fuel' width left
        (if left then out ++ [no_color] else no_color :: out)
    else out
  end.

Definition list_align (ls : list color) (width : nat) : Res (list color) :=
  if width =? 0 then Ok []
  else
    let out := list_align_loop width width false ls in
    if length out =? width then Ok out else Raise AssertionError.

(** [s.index(c)] for a one-character [c]. *)
Fixpoint str_index (s : str) (c : codepoint) : Res nat :=
  match s with
  | [] => Raise ValueError
  | x :: s' =>
    if N.eqb x c then Ok 0
    else match str_index s' c with
         | Ok i => Ok (S i)
         | Raise e => Raise e
         end
  end.

Definition LETTER_x : codepoint := 120%N.

(** [align_space(expr, width)], given the computation of [expr.width()]. *)
Definition align_space (expr_width_of : M nat) (width : nat) : M nat :=
  expr_width <- expr_width_of ;;
  if expr_width =? 0 then ret (width / 2)
  else lift (str_index (str_align (repeat LETTER_x expr_width) width) LETTER_x).

(** [itertools.zip_longest] of the lists [ls] with a fill value. *)
Definition zip_longest {A} (ls : list (list A)) (fillvalue : A)
  : list (list A) :=
  map (fun i => map (fun l => nth i l fillvalue) ls)
      (seq 0 (list_max (map (@length A) ls))).

(** ** Expressions *)

Inductive Expression :=
| Text (self : ref)
| Row (items : list Expression)
| Fraction (numerator denominator : Expression)
| Parenthesis (expr : Expression).

Definition children (e : Expression) : list Expression :=
  match e with
  | Text _ => []
  | Row items => items
  | Fraction n d => [n; d]
  | Parenthesis x => [x]
  end.

Fixpoint bfs_children (e : Expression) : list Expression :=
  e :: match e with
       | Text _ => []
       | Row items => flat_map bfs_children items
       | Fraction n d => bfs_children n ++ bfs_children d
       | Parenthesis x => bfs_children x
       end.

(** ** Layout engine *)

Section Render.
Context {U : UnicodeData}.

(** [Expression.width], given the computation of [self.render()]. *)
Definition width_of (render_self : M RenderOutput) : M nat :=
  r <- render_self ;;
  assert (length (nodup Nat.eq_dec (map (@length codepoint) (lines r))) =? 1) ;;
  match lines r with
  | l0 :: _ => ret (length l0)
  | [] => raise IndexError
  end.

Definition OPERATORS : str := py "+-*/=|&^@".

Definition colorize (text : str) : list color :=
  map (fun char =>
         if isalpha char then Ansi TXT_COLOR
         else if isdigit char then Ansi NUM_COLOR
         else if existsb (N.eqb char) OPERATORS then Ansi OP_COLOR
         else no_color) text.

Definition Text_render (self : ref) : M RenderOutput :=
  text <- get_text self ;;
  cur <- get_cursor self ;;
  ret (mkRenderOutput [text] [colorize text] 0 cur).

(** Baseline top padding of one item of a row: [n] times, a blank line is
    inserted in front of [l] and a blank color row in front of [c]. *)
Fixpoint Row_top_padding (n w : nat) (l : list str) (c : list (list color))
  : M (list str * list (list color)) :=
  match n with
  | 0 => ret (l, c)
  | S n' =>
    blank <- lift (list_align [no_color] w) ;;
    Row_top_padding n' w (repeat SPACE w :: l) (blank :: c)
  end.

(** The first loop of [Row.render], over the items' render outputs zipped
    with their widths; [base] is the row's [baseline], and the loop carries
    [cursor] (here [acc]) and [w_so_far]. *)
Fixpoint Row_baseline_loop (base : nat) (xs : list (RenderOutput * nat))
    (acc : option ScreenOffset) (w_so_far : nat)
  : M (list (list str * list (list color)) * option ScreenOffset) :=
  match xs with
  | [] => ret ([], acc)
  | (r, w) :: xs' =>
    lc <- Row_top_padding (base - r.(baseline)) w r.(lines) r.(colors) ;;
    let acc :=
      match r.(cursor) with
      | Some cur =>
        Some (mkScreenOffset (cur.(row) + base - r.(baseline))
                             (cur.(col) + w_so_far))
      | None => acc
      end in
    rest <- Row_baseline_loop base xs' acc (w_so_far + w) ;;
    ret (lc :: fst rest, snd rest)
  end.

(** One turn of the second loop of [Row.render]. *)
Definition Row_output_row (widths : list nat)
    (lc : list str * list (list color)) : M (str * list color) :=
  let l := map (fun xw => str_align (fst xw) (snd xw)) (combine (fst lc) widths) in
  c <- mapM (fun xw => lift (list_align (fst xw) (snd xw)))
            (combine (snd lc) widths) ;;
  ret (concat l, concat c).

(** [Row.render], given the computations of the items' [render()]. *)
Definition Row_render (items : list (M RenderOutput)) : M RenderOutput :=
  widths <- mapM width_of items ;;
  rs <- mapM (fun x => x) items ;;
  match rs with
  | [] => raise ValueError (* zip of nothing unpacked into four names *)
  | _ :: _ =>
    let base := list_max (map baseline rs) in
    padded <- Row_baseline_loop base (combine rs widths) None 0 ;;
    let padded_lines := map fst (fst padded) in
    let padded_colors := map snd (fst padded) in
    out <- mapM (Row_output_row widths)
                (combine (zip_longest padded_lines [])
                         (zip_longest padded_colors [])) ;;
    ret (mkRenderOutput (map fst out) (map snd out) base (snd padded))
  end.

Definition HBAR : codepoint := 9472%N.

(** [Fraction.render], given the computations of [numerator.render()] and
    [denominator.render()]. *)
Definition Fraction_render (numerator denominator : M RenderOutput)
  : M RenderOutput :=
  nw <- width_of numerator ;;
  dw <- width_of denominator ;;
  let w := 2 * FRAC_PADDING + Nat.max nw dw in
  n <- numerator ;;
  d <- denominator ;;
  let base := length n.(lines) in
  assert (length (nodup Nat.eq_dec (map (@length codepoint) n.(lines))) =? 1) ;;
  assert (length (nodup Nat.eq_dec (map (@length codepoint) d.(lines))) =? 1) ;;
  assert (match n.(cursor), d.(cursor) with
          | Some _, Some _ => false
          | _, _ => true
          end) ;;
  cursor1 <- match n.(cursor) with
             | Some cur =>
               off <- align_space (width_of numerator) w ;;
               ret (Some (mkScreenOffset cur.(row) (cur.(col) + off)))
             | None => ret None
             end ;;
  cursor2 <- match d.(cursor) with
             | Some cur =>
               off <- align_space (width_of denominator) w ;;
               ret (Some (mkScreenOffset (cur.(row) + base + 1)
                                         (cur.(col) + off)))
             | None => ret cursor1
             end ;;
  let output :=
    map (fun l => str_align l w) n.(lines)
    ++ [repeat HBAR w]
    ++ map (fun l => str_align l w) d.(lines) in
  ncolors <- mapM (fun c => lift (list_align c w)) n.(colors) ;;
  dcolors <- mapM (fun c => lift (list_align c w)) d.(colors) ;;
  ret (mkRenderOutput output
                      (ncolors ++ [repeat (Ansi FRAC_COLOR) w] ++ dcolors)
                      base cursor2).

Definition LPAREN : codepoint := 40%N.
Definition RPAREN : codepoint := 41%N.
Definition LPAREN_TOP : codepoint := 9115%N.
Definition LPAREN_MID : codepoint := 9116%N.
Definition LPAREN_BOT : codepoint := 9117%N.
Definition RPAREN_TOP : codepoint := 9118%N.
Definition RPAREN_MID : codepoint := 9119%N.
Definition RPAREN_BOT : codepoint := 9120%N.

(** The loop of the multi-row case of [Parenthesis.render], from [index]
    on; [n] is [len(expr_lines)]. *)
Fixpoint Parenthesis_rows (n width index : nat)
    (rows : list (str * list color)) : M (list (str * list color)) :=
  match rows with
  | [] => ret []
  | (line, color) :: rows' =>
    let parens :=
      if index =? 0 then (LPAREN_TOP, RPAREN_TOP)
      else if index <? n - 1 then (LPAREN_MID, RPAREN_MID)
      else (LPAREN_BOT, RPAREN_BOT) in
    c <- lift (list_align color width) ;;
    rest <- Parenthesis_rows n width (S index) rows' ;;
    ret (([fst parens] ++ str_align line width ++ [snd parens],
          [Ansi PAREN_COLOR] ++ c ++ [Ansi PAREN_COLOR]) :: rest)
  end.

(** [ScreenOffset(cursor.row, cursor.col + 1)]: an [AttributeError] when
    the child's cursor [c] is [None]. *)
Definition Parenthesis_cursor (c : option ScreenOffset) : M ScreenOffset :=
  match c with
  | Some cur => ret (mkScreenOffset cur.(row) (cur.(col) + 1))
  | None => raise AttributeError
  end.

(** [Parenthesis.render], given the computation of [expr.render()]. *)
Definition Parenthesis_render (expr : M RenderOutput) : M RenderOutput :=
  r <- expr ;;
  width <- width_of expr ;;
  if length r.(lines) =? 1 then
    line0 <- match r.(lines) with
             | l :: _ => ret l
             | [] => raise IndexError
             end ;;
    color0 <- match r.(colors) with
              | c :: _ => ret c
              | [] => raise IndexError
              end ;;
    cur <- Parenthesis_cursor r.(cursor) ;;
    ret (mkRenderOutput [[LPAREN] ++ line0 ++ [RPAREN]]
                        [[Ansi PAREN_COLOR] ++ color0 ++ [Ansi PAREN_COLOR]]
                        0 (Some cur))
  else
    out <- Parenthesis_rows (length r.(lines)) width 0
                            (combine r.(lines) r.(colors)) ;;
    cur <- Parenthesis_cursor r.(cursor) ;;
    ret (mkRenderOutput (map fst out) (map snd out) r.(baseline) (Some cur)).

Fixpoint render (e : Expression) : M RenderOutput :=
  match e with
  | Text self => Text_render self
  | Row items => Row_render (map render items)
  | Fraction n d => Fraction_render (render n) (render d)
  | Parenthesis x => Parenthesis_render (render x)
  end.

Definition width (e : Expression) : M nat := width_of (render e).

End Render.

(** ** Cursor navigation *)

(** The keys of [readchar.key] the core compares with ([readchar] is a
    library the program imports), as a POSIX terminal sends them and
    [readchar] names them: ESC [ A, ESC [ B, ESC [ C, ESC [ D and DEL. *)
Definition key_UP : str := [27; 91; 65]%N.
Definition key_DOWN : str := [27; 91; 66]%N.
Definition key_RIGHT : str := [27; 91; 67]%N.
Definition key_LEFT : str := [27; 91; 68]%N.
Definition key_BACKSPACE : str := [127%N].

(** [item is obj] for a [Text] object [obj]. *)
Definition is_obj (item : Expression) (obj : ref) : bool :=
  match item with
  | Text r => Nat.eqb r obj
  | _ => false
  end.

Fixpoint obj_index (iterable : list Expression) (obj : ref) : Res nat :=
  match iterable with
  | [] => Raise ValueError (* not found *)
  | item :: rest =>
    if is_obj item obj then Ok 0
    else match obj_index rest obj with
         | Ok index => Ok (S index)
         | Raise e => Raise e
         end
  end.

Definition class_of (e : Expression) : class_name :=
  match e with
  | Text _ => CText
  | Row _ => CRow
  | Fraction _ _ => CFraction
  | Parenthesis _ => CParenthesis
  end.

(** The first [Text] of a sequence: where the search loops of
    [Text.press_key] break. *)
Fixpoint first_Text (l : list Expression) : option ref :=
  match l with
  | [] => None
  | Text r :: _ => Some r
  | _ :: l' => first_Text l'
  end.

Fixpoint forM_ {A} (f : A -> M unit) (l : list A) : M unit :=
  match l with
  | [] => ret tt
  | a :: l' => f a ;; forM_ f l'
  end.

(** [root or self]. *)
Definition root_or (root : option Expression) (self : Expression)
  : option Expression :=
  match root with
  | Some r => Some r
  | None => Some self
  end.

(** The loop of [Expression.press_key] over the children's [press_key]. *)
Fixpoint first_accepted (offers : list (M bool)) : M bool :=
  match offers with
  | [] => ret false (* not accepted yet... (dead end) *)
  | offer :: rest =>
    accepted <- offer ;;
    if accepted then ret true else first_accepted rest
  end.

Section PressKey.
Context {U : UnicodeData}.

(** The line [eprint] writes for one candidate of a search. *)
Definition eprint_candidate (ch : Expression) : M unit :=
  match ch with
  | Text r => t <- get_text r ;; eprint (D_arrow CText (Some t))
  | _ => eprint (D_arrow (class_of ch) None)
  end.

(** [root.bfs_children()]; a [root] that is [None] has no such method. *)
Definition root_bfs_children (root : option Expression)
  : M (list Expression) :=
  match root with
  | Some r => ret (bfs_children r)
  | None => raise AttributeError
  end.

(** The body of [if key == readchar.key.UP]. *)
Definition go_up (self : ref) (root : option Expression) : M unit :=
  eprint D_GOING_UP ;;
  bfs_line <- root_bfs_children root ;;
  i <- lift (obj_index bfs_line self) ;;
  forM_ eprint_candidate (rev (firstn i bfs_line)) ;;
  i <- lift (obj_index bfs_line self) ;;
  match first_Text (rev (firstn i bfs_line)) with
  | Some expr =>
    t <- get_text expr ;;
    eprint (D_selected CText t) ;;
    set_cursor self None ;;
    w <- width (Text expr) ;;
    set_cursor expr (Some (mkScreenOffset 0 w)) (* end of the text field *)
  | None => eprint D_ran_out_of_targets
  end.

(** The body of [if key == readchar.key.DOWN]. *)
Definition go_down (self : ref) (root : option Expression) : M unit :=
  eprint D_GOING_DOWN ;;
  bfs_line <- root_bfs_children root ;;
  i <- lift (obj_index bfs_line self) ;;
  forM_ eprint_candidate (skipn (i + 1) bfs_line) ;;
  i <- lift (obj_index bfs_line self) ;;
  match first_Text (skipn (i + 1) bfs_line) with
  | Some expr =>
    t <- get_text expr ;;
    eprint (D_selected CText t) ;;
    set_cursor self None ;;
    set_cursor expr (Some (mkScreenOffset 0 0)) (* start of the text field *)
  | None => eprint D_ran_out_of_targets
  end.

Definition is_None {A} (o : option A) : bool :=
  match o with
  | None => true
  | Some _ => false
  end.

(** The body of [if key.isprintable()]. *)
Definition insert_key (self : ref) (key : str) : M unit :=
  eprint (D_INSERT key) ;;
  text <- get_text self ;;
  c <- get_col self ;;
  set_text self (firstn c text ++ key ++ skipn c text) ;;
  c <- get_col self ;;
  set_col self (c + 1).

(** The body of [if key == readchar.key.BACKSPACE]. *)
Definition erase_backward (self : ref) : M unit :=
  c <- get_col self ;;
  if c =? 0 then eprint D_SPECIAL_ACTION
  else
    text <- get_text self ;;
    ch <- match nth_error text (c - 1) with
          | Some ch => ret ch
          | None => raise IndexError
          end ;;
    eprint (D_REMOVE ch) ;;
    set_text self (firstn (c - 1) text ++ skipn c text) ;;
    c <- get_col self ;;
    set_col self (c - 1) ;;
    c <- get_col self ;;
    assert (0 <=? c).

(** The body of [if key == readchar.key.LEFT]; [self_press_key] stands for
    the call of [self.press_key] in it. *)
Definition move_left (self_press_key : str -> option Expression -> M bool)
    (self : ref) (root : option Expression) : M unit :=
  c <- get_col self ;;
  if 0 <? c then set_col self (c - 1)
  else
    self_press_key key_UP root ;;
    ret tt.

(** The body of [if key == readchar.key.RIGHT]. *)
Definition move_right (self_press_key : str -> option Expression -> M bool)
    (self : ref) (root : option Expression) : M unit :=
  c <- get_col self ;;
  w <- width (Text self) ;;
  if c <? w then set_col self (c + 1) (* + one space at the end *)
  else
    self_press_key key_DOWN root ;;
    ret tt.

(** The body of [Text.press_key]. *)
Definition Text_press_key_body
    (self_press_key : str -> option Expression -> M bool)
    (self : ref) (key : str) (root : option Expression) : M bool :=
  cur <- get_cursor self ;;
  match cur with
  | None => ret false (* we don't have the cursor, move on *)
  | Some _ =>
    if is_None root && (str_eqb key key_UP || str_eqb key key_DOWN) then
      eprint D_cancelling_vertical_movement ;;
      ret true (* keystroke accepted *)
    else
      when (isprintable key) (insert_key self key) ;;
      when (str_eqb key key_BACKSPACE) (erase_backward self) ;;
      when (str_eqb key key_LEFT) (move_left self_press_key self root) ;;
      when (str_eqb key key_RIGHT) (move_right self_press_key self root) ;;
      when (str_eqb key key_UP) (go_up self root) ;;
      when (str_eqb key key_DOWN) (go_down self root) ;;
      ret true (* keystroke accepted *)
  end.

(** [Text.press_key]; [fuel] bounds the depth of the calls of
    [self.press_key] from inside it. *)
Fixpoint Text_press_key_fuel (fuel : nat) (self : ref) (key : str)
    (root : option Expression) : M bool :=
  match fuel with
  | 0 => raise RecursionError
  | S fuel' =>
    Text_press_key_body (fun key' root' => Text_press_key_fuel fuel' self key' root')
                        self key root
  end.

(** A call from outside nests at most one call of [self.press_key] (for
    [LEFT] and [RIGHT]), and that one nests none. *)
Definition Text_press_key : ref -> str -> option Expression -> M bool :=
  Text_press_key_fuel 2.

Fixpoint press_key (e : Expression) (key : str) (root : option Expression)
  : M bool :=
  match e with
  | Text self => Text_press_key self key root
  | Row items =>
    first_accepted (map (fun child => press_key child key (root_or root e)) items)
  | Fraction n d =>
    first_accepted [press_key n key (root_or root e);
                    press_key d key (root_or root e)]
  | Parenthesis x =>
    first_accepted [press_key x key (root_or root e)]
  end.

End PressKey.

(** ** Vocabulary of the specification *)

(** The references of the [Text] nodes of a sequence of nodes, in order. *)
Fixpoint texts_of (l : list Expression) : list ref :=
  match l with
  | [] => []
  | Text r :: l' => r :: texts_of l'
  | _ :: l' => texts_of l'
  end.

(** The [Text] leaves of a tree in pre-order. *)
Definition text_refs (e : Expression) : list ref := texts_of (bfs_children e).

Definition owns_cursor (h : Heap) (r : ref) : Prop := self_cursor (h r) <> None.

(** At most one [Text] node of the tree owns a cursor. *)
Definition at_most_one_cursor (h : Heap) (root : Expression) : Prop :=
  forall r1 r2, In r1 (text_refs root) -> In r2 (text_refs root) ->
                owns_cursor h r1 -> owns_cursor h r2 -> r1 = r2.

(** Every line is [w] characters long. *)
Definition all_length (w : nat) (ls : list str) : Prop :=
  Forall (fun l => length l = w) ls.

(** The [root] a [Text] leaf is handed when the key is delivered to the
    root of the tree with no [root] argument: [None] when the leaf is the
    tree itself, the tree otherwise. *)
Definition root_seen_from_leaf (root : Expression) : option Expression :=
  match root with
  | Text _ => None
  | _ => Some root
  end.

(** A key outside the taxonomy the core recognizes: not printable, and
    none of erase-backward, move-left, move-right, move-up, move-down. *)
Definition unrecognized `{UnicodeData} (key : str) : bool :=
  negb (isprintable key)
  && negb (str_eqb key key_BACKSPACE)
  && negb (str_eqb key key_LEFT) && negb (str_eqb key key_RIGHT)
  && negb (str_eqb key key_UP) && negb (str_eqb key key_DOWN).

(** A computation that changes no cursor into [None] or out of it. *)
Definition keeps_owners {A} (m : M A) : Prop :=
  forall s r, self_cursor (heap (snd (m s)) r) = None <->
              self_cursor (heap s r) = None.

(** A computation that may write to stderr but leaves the heap alone. *)
Definition heap_pure {A} (m : M A) : Prop :=
  forall s, heap (snd (m s)) = heap s.

(** Run from a state in which at most one leaf of the tree owns a cursor
    and [self] owns one, the computation ends in a state in which at most
    one leaf of the tree owns a cursor. *)
Definition cursor_safe {A} (root : Expression) (self : ref) (m : M A) : Prop :=
  forall s, at_most_one_cursor (heap s) root -> owns_cursor (heap s) self ->
            at_most_one_cursor (heap (snd (m s))) root.

(** The heap after the cursor went from [self] to [target], at column [c]. *)
Definition moved (h : Heap) (self target : ref) (c : nat) : Heap :=
  upd (upd h self (mkText (self_text (h self)) None))
      target (mkText (self_text (h target)) (Some (mkScreenOffset 0 c))).

(** A computation that leaves the state as it found it, whether it returns
    or raises. *)
Definition pure_comp {A} (m : M A) : Prop := forall s, snd (m s) = s.

(** The render output is a non-empty rectangle of width [w] with as many
    color rows as lines. *)
Definition rect_out (r : RenderOutput) (w : nat) : Prop :=
  lines r <> [] /\ length (colors r) = length (lines r) /\ all_length w (lines r).

(** A render computation that is pure and whose output, when it returns
    one, is a rectangle. *)
Definition good_render (m : M RenderOutput) : Prop :=
  pure_comp m /\ forall s r, fst (m s) = Ok r -> exists w, rect_out r w.

(** Every color row is [w] cells long. *)
Definition colors_ok (r : RenderOutput) (w : nat) : Prop :=
  Forall (fun c => length c = w) (colors r).

(** The computation returns [r], a rectangle of width [w] with color rows
    of that width. *)
Definition returns_rect (m : M RenderOutput) (s : State) (r : RenderOutput)
    (w : nat) : Prop :=
  fst (m s) = Ok r /\ rect_out r w /\ colors_ok r w.

(** Some [Text] leaf of the expression owns a cursor. *)
Definition has_owner (h : Heap) (e : Expression) : Prop :=
  exists r, In r (text_refs e) /\ owns_cursor h r.

(** The trees on which [render] returns: every row has an item, no
    fraction has a cursor both in its numerator and in its denominator,
    and every parenthesis wraps the cursor. *)
Inductive renderable (h : Heap) : Expression -> Prop :=
| renderable_Text self : renderable h (Text self)
| renderable_Row items :
    items <> [] -> Forall (renderable h) items -> renderable h (Row items)
| renderable_Fraction n d :
    renderable h n -> renderable h d ->
    ~ (has_owner h n /\ has_owner h d) -> renderable h (Fraction n d)
| renderable_Parenthesis x :
    renderable h x -> has_owner h x -> renderable h (Parenthesis x).

(** One item of a row after its baseline padding: lines and color rows. *)
Definition padded_ok (w : nat) (lc : list str * list (list color)) : Prop :=
  fst lc <> [] /\ length (snd lc) = length (fst lc) /\ all_length w (fst lc).

(** A concrete instance of the Unicode tables, for running the model: of
    the code points above ASCII it knows the box-drawing and bracket glyphs
    the renderer itself emits. *)
Definition glyphs_only : UnicodeData :=
  {| uc_isalpha := fun _ => false;
     uc_isdigit := fun _ => false;
     uc_isprintable := fun c => in_range 9115 9120 c || N.eqb c 9472 |}.

(** The heap whose object [r] is the [r]-th of a list. *)
Definition heap_of (l : list Text_obj) : Heap :=
  fun r => nth r l (mkText [] None).
Definition state_of (l : list Text_obj) : State := mkState (heap_of l) [].

(** The tree and the state of the scenarios: a row of the texts a and b,
    the cursor at the end of a. *)
Definition root_ab : Expression := Row [Text 0; Text 1].
Definition s_ab : State :=
  state_of [mkText (py "a") (Some (mkScreenOffset 0 1)); mkText (py "b") None].

(** The same row with the cursor at the start of b. *)
Definition s_ab_start : State :=
  state_of [mkText (py "a") None; mkText (py "b") (Some (mkScreenOffset 0 0))].

(** The texts a and b, each with a cursor. *)
Definition s_ab_both : State :=
  state_of [mkText (py "a") (Some (mkScreenOffset 0 1));
            mkText (py "b") (Some (mkScreenOffset 0 0))].

(** The tab key, which is not printable and none of the keys the core
    compares with. *)
Definition key_TAB : str := [9%N].

(** A row of a text and a fraction, the cursor at the start of the
    denominator. *)
Definition root_frac : Expression := Row [Text 0; Fraction (Text 1) (Text 2)].
Definition s_frac : State :=
  state_of [mkText (py "x+") None; mkText (py "abc") None;
            mkText (py "12345") (Some (mkScreenOffset 0 0))].

(** ** Other helpers of the program *)

(** The decimal digits of [d], most significant first. *)
Fixpoint uint_digits (d : Decimal.uint) : str :=
  match d with
  | Decimal.Nil => []
  | Decimal.D0 d' => 48%N :: uint_digits d'
  | Decimal.D1 d' => 49%N :: uint_digits d'
  | Decimal.D2 d' => 50%N :: uint_digits d'
  | Decimal.D3 d' => 51%N :: uint_digits d'
  | Decimal.D4 d' => 52%N :: uint_digits d'
  | Decimal.D5 d' => 53%N :: uint_digits d'
  | Decimal.D6 d' => 54%N :: uint_digits d'
  | Decimal.D7 d' => 55%N :: uint_digits d'
  | Decimal.D8 d' => 56%N :: uint_digits d'
  | Decimal.D9 d' => 57%N :: uint_digits d'
  end.

(** What an f-string writes for an [int] that is not negative. *)
Definition str_of_nat (n : nat) : str := uint_digits (Nat.to_uint n).

Definition ESC : codepoint := 27%N.

(** [cursor_string(off)]: the escape sequence ESC [ row ; col H, both
    counted from one.  An instance of the [ScreenOffset] dataclass is true,
    so [off or ScreenOffset(0, 0)] replaces [None] only; the two assertions
    ([off.row >= 0], [off.col >= 0]) hold of natural numbers. *)
Definition cursor_string (off : option ScreenOffset) : str :=
  let off := match off with
             | Some o => o
             | None => mkScreenOffset 0 0
             end in
  [ESC; 91%N] ++ str_of_nat (row off + 1) ++ [59%N]
  ++ str_of_nat (col off + 1) ++ [72%N].

(** [Expression.parentof(child)] for a [child] that is a [Text] object:
    the first node of [self.bfs_children()] one of whose children is the
    object itself. *)
Definition parentof (self : Expression) (child : ref) : Res Expression :=
  match find (fun parent => existsb (fun c => is_obj c child) (children parent))
             (bfs_children self) with
  | Some parent => Ok parent
  | None => Raise ValueError (* no node has it as a child *)
  end.

(** [press_key] called on the root of the tree with each key of [keys] in
    turn, whatever the calls return; a call that raises ends the
    sequence. *)
Fixpoint press_keys `{UnicodeData} (root : Expression) (keys : list str)
  : M unit :=
  match keys with
  | [] => ret tt
  | key :: keys' => press_key root key None ;; press_keys root keys'
  end.

(** Every cursor of a leaf of the tree is a position of its text: a column
    between [0] and the length of the text. *)
Definition cursors_within_text (h : Heap) (root : Expression) : Prop :=
  forall r cur, In r (text_refs root) -> self_cursor (h r) = Some cur ->
                col cur <= length (self_text (h r)).

(** A computation that changes no [Text] object but [self]. *)
Definition touches_only {A} (self : ref) (m : M A) : Prop :=
  forall s r, r <> self -> heap (snd (m s)) r = heap s r.

(** A computation that changes the text of no [Text] object. *)
Definition keeps_texts {A} (m : M A) : Prop :=
  forall s r, self_text (heap (snd (m s)) r) = self_text (heap s r).

(** What a key can do to the heap when the leaf [L] owns a cursor and is
    handed the root [rs]: change [L] only, which keeps its cursor, or hand
    the cursor of [L] to a [Text] node of the tree. *)
Definition key_effect (L : ref) (rs : option Expression) (s s' : State) : Prop :=
  ((forall r, r <> L -> heap s' r = heap s r) /\ owns_cursor (heap s') L) \/
  (exists R P c, rs = Some R /\ In (Text P) (bfs_children R) /\
                 heap s' = moved (heap s) L P c).

(** What a key does on a leaf [L] whose cursor is within its text: it has
    edited [L], leaving its cursor within the text unless the key is the
    empty string, or it has handed the cursor to a leaf, at a column
    within the text of that leaf. *)
Definition within_text_after (L : ref) (key : str) (s s' : State) : Prop :=
  (exists t' cur',
      heap s' L = mkText t' (Some cur') /\
      (key <> [] -> col cur' <= length t') /\
      forall r, r <> L -> heap s' r = heap s r) \/
  (exists P c, heap s' = moved (heap s) L P c /\
               c <= length (self_text (heap s P))).

(** Every cursor of a leaf of the tree is on the only row of its text. *)
Definition cursors_on_first_row (h : Heap) (root : Expression) : Prop :=
  forall r cur, In r (text_refs root) -> self_cursor (h r) = Some cur ->
                row cur = 0.

(** The baseline of the render output is one of its rows, and the cursor
    it exposes, if any, is a position of the rectangle of width [w]: on
    one of the rows, at a column from [0] to [w]. *)
Definition cursor_inside (r : RenderOutput) (w : nat) : Prop :=
  baseline r < length (lines r) /\
  forall cur, cursor r = Some cur ->
              row cur < length (lines r) /\ col cur <= w.

(** A computation after which every cursor is on row [0] or on the row
    the cursor of the same [Text] object was on before. *)
Definition keeps_rows {A} (m : M A) : Prop :=
  forall s r cur',
    self_cursor (heap (snd (m s)) r) = Some cur' ->
    row cur' = 0 \/
    exists cur, self_cursor (heap s r) = Some cur /\ row cur = row cur'.

(** * Proofs *)

(** ** The method monad *)

Lemma bind_unfold {A B} (m : M A) (f : A -> M B) s :
  bind m f s = match m s with
               | (Ok a, s') => f a s'
               | (Raise e, s') => (Raise e, s')
               end.
Proof. reflexivity. Qed.

Lemma pure_run {A} (m : M A) s : pure_comp m -> m s = (fst (m s), s).
Proof.
  intros H. specialize (H s). destruct (m s) as [r s']. simpl in *. now subst.
Qed.

Lemma bind_pure_unfold {A B} (m : M A) (f : A -> M B) s :
  pure_comp m ->
  bind m f s = match fst (m s) with
               | Ok a => f a s
               | Raise e => (Raise e, s)
               end.
Proof.
  intros H. rewrite bind_unfold, (pure_run s H). simpl.
  now destruct (fst (m s)).
Qed.

Lemma pure_ret {A} (a : A) : pure_comp (ret a).
Proof. intros s. reflexivity. Qed.

Lemma pure_raise {A} e : pure_comp (@raise A e).
Proof. intros s. reflexivity. Qed.

Lemma pure_lift {A} (r : Res A) : pure_comp (lift r).
Proof. intros s. reflexivity. Qed.

Lemma pure_assert b : pure_comp (assert b).
Proof. destruct b; intros s; reflexivity. Qed.

Lemma pure_get_text r : pure_comp (get_text r).
Proof. intros s. reflexivity. Qed.

Lemma pure_get_cursor r : pure_comp (get_cursor r).
Proof. intros s. reflexivity. Qed.

Lemma pure_bind {A B} (m : M A) (f : A -> M B) :
  pure_comp m -> (forall a, pure_comp (f a)) -> pure_comp (bind m f).
Proof.
  intros Hm Hf s. rewrite bind_pure_unfold by assumption.
  destruct (fst (m s)); [apply Hf | reflexivity].
Qed.

Lemma pure_mapM {A B} (f : A -> M B) l :
  (forall a, In a l -> pure_comp (f a)) -> pure_comp (mapM f l).
Proof.
  induction l as [|a l IH]; intros H; simpl.
  - apply pure_ret.
  - apply pure_bind; [apply H; now left|]. intros b.
    apply pure_bind; [apply IH; intros; apply H; now right|].
    intros; apply pure_ret.
Qed.

Ltac pure_step :=
  match goal with
  | H : pure_comp ?m |- pure_comp ?m => exact H
  | |- pure_comp (ret _) => apply pure_ret
  | |- pure_comp (raise _) => apply pure_raise
  | |- pure_comp (lift _) => apply pure_lift
  | |- pure_comp (assert _) => apply pure_assert
  | |- pure_comp (get_text _) => apply pure_get_text
  | |- pure_comp (get_cursor _) => apply pure_get_cursor
  | |- pure_comp (bind _ _) => apply pure_bind; [| intros ]
  | |- pure_comp (mapM _ _) => apply pure_mapM; intros
  | |- pure_comp (match ?x with _ => _ end) => destruct x
  end.

Lemma pure_width_of m : pure_comp m -> pure_comp (width_of m).
Proof. intros H. unfold width_of. repeat pure_step. Qed.

Lemma pure_align_space m w : pure_comp m -> pure_comp (align_space m w).
Proof. intros H. unfold align_space. repeat pure_step. Qed.

Section RenderPure.
Context {U : UnicodeData}.

Lemma pure_Text_render self : pure_comp (Text_render self).
Proof. unfold Text_render. repeat pure_step. Qed.

Lemma pure_Row_top_padding n w l c : pure_comp (Row_top_padding n w l c).
Proof.
  revert l c. induction n as [|n IH]; intros l c; simpl.
  - apply pure_ret.
  - apply pure_bind; [apply pure_lift|]. intros. apply IH.
Qed.

Lemma pure_Row_baseline_loop base xs acc w_so_far :
  pure_comp (Row_baseline_loop base xs acc w_so_far).
Proof.
  revert acc w_so_far. induction xs as [|[r w] xs IH]; intros acc w_so_far; simpl.
  - apply pure_ret.
  - apply pure_bind; [apply pure_Row_top_padding|]. intros lc.
    apply pure_bind; [apply IH|]. intros. apply pure_ret.
Qed.

Lemma pure_Row_output_row widths lc : pure_comp (Row_output_row widths lc).
Proof. unfold Row_output_row. repeat pure_step. Qed.

Lemma pure_Row_render items :
  Forall pure_comp items -> pure_comp (Row_render items).
Proof.
  intros H. rewrite Forall_forall in H. unfold Row_render.
  apply pure_bind.
  { apply pure_mapM. intros. apply pure_width_of. auto. }
  intros widths. apply pure_bind.
  { apply pure_mapM. auto. }
  intros [|r rs]; [apply pure_raise|].
  apply pure_bind; [apply pure_Row_baseline_loop|]. intros padded.
  apply pure_bind; [|intros; apply pure_ret].
  apply pure_mapM. intros. apply pure_Row_output_row.
Qed.

Lemma pure_Fraction_render n d :
  pure_comp n -> pure_comp d -> pure_comp (Fraction_render n d).
Proof.
  intros Hn Hd. unfold Fraction_render.
  repeat first [ apply pure_width_of | apply pure_align_space | pure_step ].
Qed.

Lemma pure_Parenthesis_rows n width index rows :
  pure_comp (Parenthesis_rows n width index rows).
Proof.
  revert index. induction rows as [|[line c] rows IH]; intros index; simpl.
  - apply pure_ret.
  - apply pure_bind; [apply pure_lift|]. intros.
    apply pure_bind; [apply IH|]. intros. apply pure_ret.
Qed.

Lemma pure_Parenthesis_cursor c : pure_comp (Parenthesis_cursor c).
Proof. unfold Parenthesis_cursor. repeat pure_step. Qed.

Lemma pure_Parenthesis_render x :
  pure_comp x -> pure_comp (Parenthesis_render x).
Proof.
  intros Hx. unfold Parenthesis_render, Parenthesis_cursor.
  apply pure_bind; [assumption|]. intros r.
  apply pure_bind; [now apply pure_width_of|]. intros width.
  destruct (length (lines r) =? 1);
    repeat first [ apply pure_Parenthesis_rows | pure_step ].
Qed.

(** Induction on expressions, with the items of a row covered. *)
Lemma Expression_induction (P : Expression -> Prop) :
  (forall self, P (Text self)) ->
  (forall items, Forall P items -> P (Row items)) ->
  (forall n d, P n -> P d -> P (Fraction n d)) ->
  (forall x, P x -> P (Parenthesis x)) ->
  forall e, P e.
Proof.
  intros HT HR HF HP.
  fix IH 1. intros [self|items|n d|x].
  - apply HT.
  - apply HR. induction items as [|i items IHitems]; constructor.
    + apply IH.
    + apply IHitems.
  - apply HF; apply IH.
  - apply HP; apply IH.
Qed.

Lemma render_pure e : pure_comp (render e).
Proof.
  induction e as [self|items IH|n d IHn IHd|x IHx] using Expression_induction;
    simpl.
  - apply pure_Text_render.
  - apply pure_Row_render. now rewrite Forall_map.
  - now apply pure_Fraction_render.
  - now apply pure_Parenthesis_render.
Qed.

Lemma width_pure e : pure_comp (width e).
Proof. apply pure_width_of, render_pure. Qed.

(** C9: [render] is free of side effects and idempotent.  Whether it
    returns or raises, the state after the call (the text and the cursor of
    every [Text] node, and what was written to stderr) is the state before
    it, and a second call gives the same result as the first. *)
Theorem render_side_effect_free_and_idempotent (e : Expression) (s : State) :
  snd (render e s) = s /\
  (forall r, heap (snd (render e s)) r = heap s r) /\
  fst (render e (snd (render e s))) = fst (render e s).
Proof.
  pose proof (render_pure e s) as H. rewrite H. auto.
Qed.

End RenderPure.

(** ** Concrete renders *)

Section Scenarios.
Context {U : UnicodeData}.

(** C10: rendering a [Row] with no items raises (the [zip] of nothing
    cannot be unpacked into four names): it returns no render output, not
    even an empty one. *)
Theorem Row_render_without_items_raises (s : State) :
  fst (render (Row []) s) = Raise ValueError /\
  (forall r, fst (render (Row []) s) <> Ok r).
Proof.
  split; [reflexivity | intros r; discriminate].
Qed.

Lemma upd_same h r v : upd h r v r = v.
Proof. unfold upd. now rewrite Nat.eqb_refl. Qed.

Lemma upd_other h r v r' : r' <> r -> upd h r v r' = h r'.
Proof.
  intros H. unfold upd. destruct (Nat.eqb_spec r' r); [contradiction | reflexivity].
Qed.

(** C1, at its failing input: a [Parenthesis] around a [Text] that has no
    cursor, whatever its text.  [Parenthesis.render] reads [cursor.row] of
    the [None] its child returned and raises [AttributeError]. *)
Theorem Parenthesis_render_without_cursor_raises (s : State) (r : ref) (t : str) :
  fst (render (Parenthesis (Text r))
              (mkState (upd (heap s) r (mkText t None)) (stderr s)))
  = Raise AttributeError.
Proof.
  simpl. unfold Parenthesis_render, Text_render, width_of, get_text, get_cursor.
  repeat (rewrite bind_unfold; simpl).
  rewrite upd_same. reflexivity.
Qed.

(** The glyphs of the source, as code points. *)
Example glyph_code_points :
  py "─⎛⎜⎝⎞⎟⎠() x"
  = [HBAR; LPAREN_TOP; LPAREN_MID; LPAREN_BOT; RPAREN_TOP; RPAREN_MID;
     RPAREN_BOT; LPAREN; RPAREN; SPACE; LETTER_x].
Proof. reflexivity. Qed.

(** Centering puts the odd cell of padding on the right; a long string is
    not cut. *)
Example str_align_examples :
  str_align (py "ab") 5 = py " ab  " /\ str_align (py "a") 4 = py " a  " /\
  str_align (py "abc") 2 = py "abc" /\ str_align (py "ab") 0 = py "ab".
Proof. repeat split. Qed.

Example list_align_examples :
  list_align [Ansi ansi_red] 4 = Ok [no_color; Ansi ansi_red; no_color; no_color] /\
  list_align [Ansi ansi_red] 0 = Ok [] /\
  list_align [no_color; no_color] 1 = Raise AssertionError.
Proof. repeat split. Qed.

(** C7: with [FRAC_PADDING = 1], the fraction of the texts 1 and 2 renders
    as three rows of width 3: the numerator centered, the divider bar, the
    denominator centered; the baseline is the number of numerator rows, 1,
    which is the index of the divider bar. *)
Theorem Fraction_one_over_two_renders :
  let s := state_of [mkText (py "1") None; mkText (py "2") None] in
  exists r n,
    FRAC_PADDING = 1 /\
    fst (render (Fraction (Text 0) (Text 1)) s) = Ok r /\
    lines r = [py " 1 "; py "───"; py " 2 "] /\
    all_length 3 (lines r) /\
    fst (width (Fraction (Text 0) (Text 1)) s) = Ok 3 /\
    fst (render (Text 0) s) = Ok n /\
    baseline r = length (lines n) /\
    baseline r = 1 /\
    nth_error (lines r) (baseline r) = Some (repeat HBAR 3).
Proof.
  intros s. eexists. eexists.
  split; [reflexivity|].
  split; [vm_compute; reflexivity|].
  split; [reflexivity|].
  split; [repeat constructor|].
  repeat split; reflexivity.
Qed.

End Scenarios.

(** ** The model and the loops of the source *)

(** [_bfs_children] yields [self], then what the children yield. *)
Lemma bfs_children_children e :
  bfs_children e = e :: flat_map bfs_children (children e).
Proof.
  destruct e as [self|items|n d|x]; simpl; try reflexivity.
  - now rewrite app_nil_r.
  - now rewrite app_nil_r.
Qed.

(** [Expression.press_key] offers the key to the children in turn. *)
Lemma press_key_children `{UnicodeData} e key root :
  match e with Text _ => False | _ => True end ->
  press_key e key root
  = first_accepted (map (fun child => press_key child key (root_or root e))
                        (children e)).
Proof. destruct e; [contradiction | reflexivity..]. Qed.

(** The loop of [list_align] stops by its own test: the fuel it is given
    is never used up before. *)
Lemma list_align_loop_length fuel width left out :
  width - length out <= fuel ->
  length (list_align_loop fuel width left out) = Nat.max (length out) width.
Proof.
  revert left out. induction fuel as [|fuel IH]; intros left out H; simpl.
  - lia.
  - destruct (Nat.ltb_spec (length out) width) as [Hlt|Hge]; [|lia].
    rewrite IH.
    + destruct (negb left); rewrite ?length_app; cbn [length]; lia.
    + destruct (negb left); rewrite ?length_app; cbn [length]; lia.
Qed.

(** [list_align] fails exactly on a list that is longer than a non-zero
    [width], and otherwise returns [width] cells. *)
Lemma list_align_ok ls width :
  length ls <= width -> exists out, list_align ls width = Ok out /\ length out = width.
Proof.
  intros H. unfold list_align. destruct (Nat.eqb_spec width 0) as [->|Hw].
  - exists []. auto.
  - rewrite list_align_loop_length by lia.
    replace (Nat.max (length ls) width) with width by lia.
    rewrite Nat.eqb_refl. eexists. split; [reflexivity|].
    rewrite list_align_loop_length by lia. lia.
Qed.

Lemma list_align_too_long ls width :
  width <> 0 -> width < length ls -> list_align ls width = Raise AssertionError.
Proof.
  intros Hw H. unfold list_align. destruct (Nat.eqb_spec width 0); [contradiction|].
  rewrite list_align_loop_length by lia.
  destruct (Nat.eqb_spec (Nat.max (length ls) width) width); [lia | reflexivity].
Qed.

(** ** Lines of equal length *)

Lemma str_align_length s w : length (str_align s w) = Nat.max (length s) w.
Proof.
  unfold str_align. destruct (Nat.leb_spec w (length s)) as [H|H].
  - lia.
  - rewrite !length_app, !repeat_length.
    assert ((w - length s) / 2 <= w - length s)
      by (apply Nat.Div0.div_le_upper_bound; lia).
    lia.
Qed.

Lemma nodup_all_eq (w : nat) l :
  l <> [] -> Forall (eq w) l -> nodup Nat.eq_dec l = [w].
Proof.
  induction l as [|x l IH]; intros Hne Hall; [contradiction|].
  inversion Hall as [|? ? Hx Hl]; subst x.
  simpl. destruct l as [|y l].
  - reflexivity.
  - destruct (in_dec Nat.eq_dec w (y :: l)) as [Hin|Hnin].
    + apply IH; [discriminate | assumption].
    + exfalso. apply Hnin. inversion Hl; subst. now left.
Qed.

Lemma nodup_singleton_inv (x : nat) l :
  nodup Nat.eq_dec l = [x] -> Forall (eq x) l.
Proof.
  intros H. apply Forall_forall. intros y Hy.
  apply (nodup_In Nat.eq_dec) in Hy. rewrite H in Hy.
  destruct Hy as [Hy|[]]. exact Hy.
Qed.

(** What the assertion of [Expression.width] checks. *)
Lemma same_length_assertion (ls : list str) :
  (length (nodup Nat.eq_dec (map (@length codepoint) ls)) =? 1) = true <->
  ls <> [] /\ exists w, all_length w ls.
Proof.
  unfold all_length. split.
  - intros H. apply Nat.eqb_eq in H. split.
    + intros ->. discriminate.
    + destruct (nodup Nat.eq_dec (map (@length codepoint) ls)) as [|x [|y n]] eqn:E;
        try discriminate.
      exists x. apply nodup_singleton_inv in E.
      rewrite Forall_map in E. revert E. apply Forall_impl. intros; congruence.
  - intros [Hne [w Hall]]. apply Nat.eqb_eq.
    rewrite (@nodup_all_eq w).
    + reflexivity.
    + destruct ls; [contradiction | discriminate].
    + rewrite Forall_map. revert Hall. apply Forall_impl. intros; congruence.
Qed.

Lemma all_length_unique w w' (ls : list str) :
  ls <> [] -> all_length w ls -> all_length w' ls -> w = w'.
Proof.
  destruct ls as [|l ls]; [contradiction|].
  intros _ H H'. inversion H; inversion H'; congruence.
Qed.

Lemma lift_bind {A B} (r : Res A) (f : A -> M B) s :
  bind (lift r) f s = match r with
                      | Ok a => f a s
                      | Raise e => (Raise e, s)
                      end.
Proof. now destruct r. Qed.

(** [width()] returns [w] exactly when [render()] returns a non-empty list of
    lines that are all [w] long. *)
Lemma width_of_ok (m : M RenderOutput) s w :
  pure_comp m ->
  (fst (width_of m s) = Ok w <->
   exists r, fst (m s) = Ok r /\ lines r <> [] /\ all_length w (lines r)).
Proof.
  intros Hm. unfold width_of. rewrite bind_pure_unfold by assumption.
  destruct (fst (m s)) as [r|e].
  2:{ split; [discriminate | intros (r & H & _); discriminate]. }
  rewrite bind_unfold.
  destruct (length (nodup Nat.eq_dec (map (@length codepoint) (lines r))) =? 1) eqn:E;
    simpl.
  - apply same_length_assertion in E. destruct E as [Hne [w0 Hall]].
    destruct (lines r) as [|l0 ls] eqn:El; [contradiction|]. simpl.
    split.
    + intros H. injection H as <-. exists r. rewrite El.
      repeat split; try assumption; try discriminate.
      inversion Hall; subst. assumption.
    + intros (r' & Hr' & _ & Hall'). injection Hr' as <-. rewrite El in Hall'.
      inversion Hall'; subst. reflexivity.
  - split; [discriminate|]. intros (r' & Hr' & Hne & Hall).
    injection Hr' as <-.
    assert ((length (nodup Nat.eq_dec (map (@length codepoint) (lines r))) =? 1) = true)
      by (apply same_length_assertion; eauto).
    congruence.
Qed.

Lemma mapM_ok {A B} (f : A -> M B) l s bs :
  (forall a, In a l -> pure_comp (f a)) ->
  fst (mapM f l s) = Ok bs ->
  Forall2 (fun a b => fst (f a s) = Ok b) l bs.
Proof.
  revert bs. induction l as [|a l IH]; intros bs Hp H; simpl in H.
  - injection H as <-. constructor.
  - rewrite bind_pure_unfold in H by (apply Hp; now left).
    destruct (fst (f a s)) as [b|e] eqn:Eb; [|discriminate].
    rewrite bind_pure_unfold in H
      by (apply pure_mapM; intros; apply Hp; now right).
    destruct (fst (mapM f l s)) as [bs'|e] eqn:Ebs; [|discriminate].
    injection H as <-. constructor; [assumption|].
    apply IH; [intros; apply Hp; now right | reflexivity].
Qed.

Lemma assert_ok b s u : fst (assert b s) = Ok u -> b = true.
Proof. destruct b; [reflexivity | discriminate]. Qed.

Lemma Forall2_length_eq {A B} (R : A -> B -> Prop) l l' :
  Forall2 R l l' -> length l = length l'.
Proof. induction 1; simpl; congruence. Qed.

Section RenderGood.
Context {U : UnicodeData}.

Ltac pure_solve :=
  repeat first
    [ apply pure_width_of | apply pure_align_space
    | apply pure_Row_top_padding | apply pure_Row_baseline_loop
    | apply pure_Row_output_row | apply pure_Parenthesis_rows
    | apply pure_Parenthesis_cursor | pure_step ].

(** One step of a run that returned: the first computation of a [bind]
    returned too, in the same state. *)
Tactic Notation "bind_inv" hyp(H) "as" simple_intropattern(x) ident(E) :=
  rewrite bind_pure_unfold in H by pure_solve;
  match type of H with
  | fst (match fst (?m ?s) with _ => _ end) = _ =>
    destruct (fst (m s)) as [x|] eqn:E; [|discriminate H]
  end.

(** The same when the result of the first computation is known. *)
Ltac bind_known H :=
  rewrite bind_pure_unfold in H by pure_solve;
  match type of H with
  | fst (match fst (?m ?s) with _ => _ end) = _ =>
    match goal with E : fst (m s) = Ok _ |- _ => rewrite E in H end
  end.

Ltac ret_inv H := unfold ret in H; cbn [fst] in H; injection H as <-.

Lemma good_Text_render self : good_render (Text_render self).
Proof.
  split; [apply pure_Text_render|].
  intros s r H. unfold Text_render in H.
  bind_inv H as text Et. bind_inv H as cur Ec. ret_inv H.
  exists (length text). repeat split; simpl.
  - discriminate.
  - repeat constructor.
Qed.

Lemma good_Fraction_render n d :
  good_render n -> good_render d -> good_render (Fraction_render n d).
Proof.
  intros [Pn Gn] [Pd Gd]. split; [now apply pure_Fraction_render|].
  intros s r H. unfold Fraction_render in H.
  bind_inv H as nw Enw. apply width_of_ok in Enw; [|assumption].
  destruct Enw as (rn & Ern & Hn_ne & Hn_all).
  bind_inv H as dw Edw. apply width_of_ok in Edw; [|assumption].
  destruct Edw as (rd & Erd & Hd_ne & Hd_all).
  do 2 bind_known H.
  bind_inv H as u1 E1. bind_inv H as u2 E2. bind_inv H as u3 E3.
  bind_inv H as cursor1 Ec1. bind_inv H as cursor2 Ec2.
  bind_inv H as ncolors En. apply mapM_ok in En; [|intros; apply pure_lift].
  bind_inv H as dcolors Ed. apply mapM_ok in Ed; [|intros; apply pure_lift].
  ret_inv H.
  apply Forall2_length_eq in En, Ed.
  destruct (Gn s rn Ern) as (wn & _ & Hn_col & _).
  destruct (Gd s rd Erd) as (wd & _ & Hd_col & _).
  exists (2 * FRAC_PADDING + Nat.max nw dw). repeat split; cbn [lines colors].
  - intros Heq. apply app_eq_nil in Heq. destruct Heq as [_ Heq].
    discriminate.
  - rewrite !length_app. cbn [length]. rewrite !length_map. lia.
  - unfold all_length in *. rewrite Forall_app. split; [|constructor].
    + rewrite Forall_map. revert Hn_all. apply Forall_impl. intros l Hl.
      rewrite str_align_length. unfold FRAC_PADDING. lia.
    + cbn [length]. rewrite repeat_length. reflexivity.
    + rewrite Forall_map. revert Hd_all. apply Forall_impl. intros l Hl.
      rewrite str_align_length. unfold FRAC_PADDING. lia.
Qed.

Lemma Parenthesis_rows_ok n width index rows s out :
  fst (Parenthesis_rows n width index rows s) = Ok out ->
  Forall2 (fun row o => length (fst o) = Nat.max (length (fst row)) width + 2)
          rows out.
Proof.
  revert index out. induction rows as [|[line c] rows IH]; intros index out H;
    cbn [Parenthesis_rows] in H.
  - ret_inv H. constructor.
  - bind_inv H as c' Ec. bind_inv H as rest Er. ret_inv H.
    constructor.
    + cbn [fst length]. rewrite length_app, str_align_length.
      cbn [length]. lia.
    + eapply IH. eassumption.
Qed.

Lemma good_Parenthesis_render x :
  good_render x -> good_render (Parenthesis_render x).
Proof.
  intros [Px Gx]. split; [now apply pure_Parenthesis_render|].
  intros s r H. unfold Parenthesis_render in H.
  bind_inv H as rx Erx.
  bind_inv H as width Ew.
  apply width_of_ok in Ew; [|assumption].
  destruct Ew as (rx' & Erx' & Hne & Hall). rewrite Erx in Erx'.
  injection Erx' as <-.
  destruct (Gx s rx Erx) as (wx & _ & Hcol & _).
  destruct (length (lines rx) =? 1).
  - bind_inv H as line0 E0. bind_inv H as color0 E1. bind_inv H as cur E2.
    ret_inv H.
    eexists. repeat split; cbn [lines colors].
    + discriminate.
    + constructor; [reflexivity | constructor].
  - bind_inv H as out Eout. bind_inv H as cur Ecur. ret_inv H.
    apply Parenthesis_rows_ok in Eout.
    assert (Hlen : length out = length (lines rx)).
    { apply Forall2_length_eq in Eout.
      rewrite length_combine, Hcol, Nat.min_id in Eout. now symmetry. }
    exists (width + 2). repeat split; cbn [lines colors].
    + intros Heq. apply (f_equal (@length _)) in Heq.
      rewrite length_map in Heq. simpl in Heq.
      destruct (lines rx); [contradiction | simpl in *; lia].
    + now rewrite !length_map.
    + unfold all_length in *. rewrite Forall_map.
      rewrite Forall_forall in Hall.
      clear Hlen. remember (combine (lines rx) (colors rx)) as rows eqn:Hrows.
      assert (Hin : forall row, In row rows -> length (fst row) = width).
      { intros [l c] Hrow. subst rows. apply in_combine_l in Hrow. simpl. auto. }
      clear Hrows.
      induction Eout as [|row o rows out Ho _ IH]; constructor.
      * rewrite Ho, (Hin row) by now left. lia.
      * apply IH. intros; apply Hin; now right.
Qed.

(** [Parenthesis.render] returns only when the render of the wrapped
    expression exposes a cursor. *)
Lemma Parenthesis_render_needs_cursor x s r :
  pure_comp x ->
  fst (Parenthesis_render x s) = Ok r ->
  exists rx cur, fst (x s) = Ok rx /\ cursor rx = Some cur.
Proof.
  intros Px H. unfold Parenthesis_render in H.
  bind_inv H as rx Erx. bind_inv H as width Ew.
  destruct (cursor rx) as [cur|] eqn:Ec; [now exists rx, cur|].
  exfalso. destruct (length (lines rx) =? 1).
  - bind_inv H as line0 E0. bind_inv H as color0 E1. bind_inv H as c E2.
    discriminate E2.
  - bind_inv H as out Eout. bind_inv H as c E2. discriminate E2.
Qed.

Lemma Row_top_padding_ok n w l c s lc :
  fst (Row_top_padding n w l c s) = Ok lc ->
  padded_ok w (l, c) -> padded_ok w lc.
Proof.
  revert l c. induction n as [|n IH]; intros l c H Hok; cbn [Row_top_padding] in H.
  - ret_inv H. assumption.
  - bind_inv H as blank Eb. apply IH in H; [assumption|].
    destruct Hok as (Hne & Hlen & Hall). cbn [fst snd] in *.
    repeat split; cbn [fst snd length].
    + discriminate.
    + now rewrite Hlen.
    + constructor; [apply repeat_length | assumption].
Qed.

Lemma Row_baseline_loop_ok base xs acc w_so_far s res :
  fst (Row_baseline_loop base xs acc w_so_far s) = Ok res ->
  Forall (fun rw => rect_out (fst rw) (snd rw)) xs ->
  Forall2 (fun lc w => padded_ok w lc) (fst res) (map snd xs).
Proof.
  revert acc w_so_far res.
  induction xs as [|[r w] xs IH]; intros acc w_so_far res H Hxs;
    cbn [Row_baseline_loop] in H.
  - ret_inv H. constructor.
  - inversion Hxs as [|? ? Hr Hxs']; subst.
    bind_inv H as lc Elc. bind_inv H as rest Erest. ret_inv H.
    cbn [fst snd map]. constructor.
    + eapply Row_top_padding_ok; [eassumption|]. exact Hr.
    + eapply IH; eassumption.
Qed.

(** The widths of the items of a row are the widths of the rectangles the
    items render as. *)
Lemma Row_items_rect items s widths rs :
  Forall good_render items ->
  fst (mapM width_of items s) = Ok widths ->
  fst (mapM (fun x => x) items s) = Ok rs ->
  Forall2 rect_out rs widths.
Proof.
  intros Hgood Hw Hr.
  apply mapM_ok in Hw.
  2:{ intros m Hm. rewrite Forall_forall in Hgood.
      apply pure_width_of, (Hgood m Hm). }
  apply mapM_ok in Hr.
  2:{ intros m Hm. rewrite Forall_forall in Hgood. apply (Hgood m Hm). }
  revert rs Hr. induction Hw as [|m w items widths Hmw _ IH]; intros rs Hr.
  - inversion Hr. constructor.
  - inversion Hr as [|? r ? rs' Hmr Hr']; subst.
    inversion Hgood as [|? ? [Pm Gm] Hgood']; subst.
    constructor; [|now apply IH].
    apply width_of_ok in Hmw; [|assumption].
    destruct Hmw as (r' & Er' & Hne & Hall).
    rewrite Hmr in Er'. injection Er' as <-.
    destruct (Gm s r Hmr) as (w' & _ & Hcol & _).
    repeat split; assumption.
Qed.

Lemma Forall2_combine_Forall {A B} (R : A -> B -> Prop) l l' :
  Forall2 R l l' -> Forall (fun ab => R (fst ab) (snd ab)) (combine l l').
Proof. induction 1; simpl; constructor; assumption. Qed.

Lemma map_snd_combine_eq {A B} (l : list A) (l' : list B) :
  length l = length l' -> map snd (combine l l') = l'.
Proof.
  revert l'. induction l as [|a l IH]; intros [|b l'] H; simpl in *;
    try discriminate; [reflexivity|].
  f_equal. apply IH. lia.
Qed.

Lemma zip_longest_length {A} (ls : list (list A)) fill :
  length (zip_longest ls fill) = list_max (map (@length A) ls).
Proof. unfold zip_longest. now rewrite length_map, length_seq. Qed.

Lemma zip_longest_In {A} (ls : list (list A)) fill rw :
  In rw (zip_longest ls fill) ->
  exists i, rw = map (fun l => nth i l fill) ls.
Proof.
  unfold zip_longest. intros H. apply in_map_iff in H.
  destruct H as (i & <- & _). now exists i.
Qed.

Lemma Row_output_row_ok widths lc s o :
  fst (Row_output_row widths lc s) = Ok o ->
  fst o = concat (map (fun xw => str_align (fst xw) (snd xw))
                      (combine (fst lc) widths)).
Proof.
  intros H. unfold Row_output_row in H.
  bind_inv H as c Ec. ret_inv H. reflexivity.
Qed.

(** A row of the output of [Row.render] is as long as the widths of the
    items together. *)
Lemma Row_line_length (pads : list (list (list N) * list (list color)))
    widths i :
  Forall2 (fun lc w => padded_ok w lc) pads widths ->
  length (concat (map (fun xw => str_align (fst xw) (snd xw))
                      (combine (map (fun l => nth i l []) (map fst pads))
                               widths)))
  = list_sum widths.
Proof.
  induction 1 as [|[l c] w pads widths (_ & _ & Hall) _ IH];
    [reflexivity|].
  cbn [map combine concat fst snd].
  change (list_sum (w :: widths)) with (w + list_sum widths).
  rewrite length_app, IH, str_align_length. f_equal. cbn [fst snd].
  destruct (Nat.lt_ge_cases i (length l)) as [Hi|Hi].
  - cbn [fst] in Hall. unfold all_length in Hall. rewrite Forall_forall in Hall.
    rewrite (Hall (nth i l [])) by now apply nth_In. lia.
  - rewrite nth_overflow by assumption. simpl. lia.
Qed.

Lemma good_Row_render items :
  Forall good_render items -> good_render (Row_render items).
Proof.
  intros Hgood. split.
  { apply pure_Row_render. revert Hgood. apply Forall_impl. now intros m []. }
  assert (Hpure : forall m, In m items -> pure_comp m).
  { intros m Hm. rewrite Forall_forall in Hgood. apply (Hgood m Hm). }
  intros s r H. unfold Row_render in H.
  rewrite bind_pure_unfold in H
    by (apply pure_mapM; intros; apply pure_width_of; auto).
  destruct (fst (mapM width_of items s)) as [widths|] eqn:Ew; [|discriminate].
  rewrite bind_pure_unfold in H by (apply pure_mapM; auto).
  destruct (fst (mapM (fun x => x) items s)) as [rs|] eqn:Er; [|discriminate].
  pose proof (Row_items_rect _ Hgood Ew Er) as Hrect.
  destruct rs as [|r0 rs]; [discriminate|].
  remember (r0 :: rs) as rs0 eqn:Hrs0.
  remember (list_max (map baseline rs0)) as base eqn:Hbase.
  bind_inv H as padded Ep.
  apply Row_baseline_loop_ok in Ep; [|now apply Forall2_combine_Forall].
  rewrite map_snd_combine_eq in Ep by (eapply Forall2_length_eq; eassumption).
  bind_inv H as out Eout. ret_inv H.
  apply mapM_ok in Eout; [|intros; apply pure_Row_output_row].
  set (pl := map fst (fst padded)) in *.
  set (pc := map snd (fst padded)) in *.
  assert (Hmax : list_max (map (@length _) pc) = list_max (map (@length _) pl)).
  { f_equal. subst pl pc. rewrite !map_map.
    clear -Ep. induction Ep as [|lc w ? ? (_ & Hlen & _) _ IH]; simpl;
      [reflexivity | now rewrite Hlen, IH]. }
  assert (Hpos : 1 <= list_max (map (@length _) pl)).
  { subst pl. subst rs0. inversion Hrect as [|? w0 ? ws H0 Hrest]; subst.
    inversion Ep as [|lc ? pads ? (Hne & _ & _) _]; subst.
    simpl. destruct (fst lc); [contradiction|].
    simpl.
    match goal with |- 1 <= match ?x with _ => _ end => destruct x; lia end. }
  assert (Hlen : length out = list_max (map (@length _) pl)).
  { apply Forall2_length_eq in Eout. rewrite <- Eout, length_combine.
    rewrite !zip_longest_length, Hmax. apply Nat.min_id. }
  exists (list_sum widths). repeat split; cbn [lines colors].
  - intros Heq. apply (f_equal (@length _)) in Heq.
    rewrite length_map in Heq. simpl in Heq. lia.
  - now rewrite !length_map.
  - unfold all_length. rewrite Forall_map.
    assert (Hrows : forall lc,
               In lc (combine (zip_longest pl []) (zip_longest pc [])) ->
               exists i, fst lc = map (fun l => nth i l []) pl).
    { intros [l c] Hin. apply in_combine_l in Hin.
      apply zip_longest_In in Hin. exact Hin. }
    clear Hlen.
    induction Eout as [|lc o rows out Ho _ IH]; constructor.
    + apply Row_output_row_ok in Ho. rewrite Ho.
      destruct (Hrows lc) as [i ->]; [now left|].
      subst pl. now apply Row_line_length.
    + apply IH. intros; apply Hrows; now right.
Qed.

(** Every expression renders purely and, when it renders, as a rectangle. *)
Lemma render_good e : good_render (render e).
Proof.
  induction e as [self|items IH|n d IHn IHd|x IHx] using Expression_induction;
    simpl.
  - apply good_Text_render.
  - apply good_Row_render. now rewrite Forall_map.
  - now apply good_Fraction_render.
  - now apply good_Parenthesis_render.
Qed.

(** C2: whenever an expression (a [Text], [Row], [Fraction] or
    [Parenthesis]) renders, all its lines are equally long, and that length
    is what [width()] returns. *)
Theorem render_lines_have_the_width (e : Expression) (s : State)
    (r : RenderOutput) :
  fst (render e s) = Ok r ->
  exists w, fst (width e s) = Ok w /\ all_length w (lines r).
Proof.
  intros H. destruct (render_good e) as [Hp Hg].
  destruct (Hg s r H) as (w & Hne & _ & Hall).
  exists w. split; [|assumption].
  apply width_of_ok; [assumption|]. exists r. auto.
Qed.

(** ** The trees on which [render] returns *)

(** One step of a run whose first computation is known to return. *)
Ltac bind_run E := rewrite bind_pure_unfold by pure_solve; rewrite E.

Lemma str_index_found s c : In c s -> exists i, str_index s c = Ok i.
Proof.
  induction s as [|x s IH]; intros H; [contradiction|]. simpl.
  destruct (N.eqb_spec x c) as [|Hne]; [eauto|].
  destruct IH as [i ->]; [|eauto].
  destruct H as [H|H]; [contradiction | assumption].
Qed.

Lemma str_align_In s w x : In x s -> In x (str_align s w).
Proof.
  intros H. unfold str_align. destruct (w <=? length s); [assumption|].
  apply in_or_app. right. apply in_or_app. now left.
Qed.

Lemma align_space_returns (m : M nat) w s ew :
  pure_comp m -> fst (m s) = Ok ew ->
  exists off, fst (align_space m w s) = Ok off.
Proof.
  intros Pm E. unfold align_space. bind_run E.
  destruct ew as [|ew]; [eexists; reflexivity|]. cbn [Nat.eqb].
  destruct (@str_index_found (str_align (repeat LETTER_x (S ew)) w) LETTER_x)
    as [i Hi].
  { apply str_align_In. now left. }
  exists i. unfold lift. cbn [fst]. exact Hi.
Qed.

Lemma list_align_returns ls w :
  length ls <= w \/ w = 0 ->
  exists out, list_align ls w = Ok out /\ length out = w.
Proof.
  intros [H| ->]; [now apply list_align_ok|]. exists []. auto.
Qed.

Lemma mapM_list_align_returns cs w s :
  Forall (fun c => length c <= w \/ w = 0) cs ->
  exists out,
    fst (mapM (fun c => lift (list_align c w)) cs s) = Ok out /\
    Forall (fun c => length c = w) out /\ length out = length cs.
Proof.
  induction 1 as [|c cs Hc _ (out & E & Hall & Hlen)]; simpl.
  - exists []. auto.
  - destruct (@list_align_returns c w Hc) as (c' & Ec & Hc').
    exists (c' :: out). rewrite lift_bind, Ec. bind_run E.
    repeat split; simpl; auto.
Qed.

Lemma returns_rect_width m s r w :
  pure_comp m -> returns_rect m s r w -> fst (width_of m s) = Ok w.
Proof.
  intros Pm (E & (Hne & _ & Hall) & _). apply width_of_ok; [assumption|].
  exists r. auto.
Qed.

Lemma Text_render_returns self s :
  exists r w, returns_rect (Text_render self) s r w /\
              cursor r = self_cursor (heap s self).
Proof.
  eexists. exists (length (self_text (heap s self))).
  split; [split; [reflexivity|]|reflexivity]. split.
  - repeat split; simpl; [discriminate | repeat constructor].
  - constructor; [|constructor]. apply length_map.
Qed.

Lemma Fraction_render_returns n d s rn nw rd dw :
  good_render n -> good_render d ->
  returns_rect n s rn nw -> returns_rect d s rd dw ->
  cursor rn = None \/ cursor rd = None ->
  exists r w, returns_rect (Fraction_render n d) s r w /\
              (cursor r = None <-> cursor rn = None /\ cursor rd = None).
Proof.
  intros Gn Gd Hn Hd Hcur.
  pose proof Gn as [Pn _]. pose proof Gd as [Pd _].
  pose proof (returns_rect_width Pn Hn) as Enw.
  pose proof (returns_rect_width Pd Hd) as Edw.
  destruct Hn as (En & (Hn_ne & Hn_len & Hn_all) & Hn_col).
  destruct Hd as (Ed & (Hd_ne & Hd_len & Hd_all) & Hd_col).
  set (w := 2 * FRAC_PADDING + Nat.max nw dw).
  destruct (@mapM_list_align_returns (colors rn) w s) as (ncolors & Enc & Hnc & _).
  { revert Hn_col. apply Forall_impl. intros c Hc. left.
    unfold w, FRAC_PADDING. lia. }
  destruct (@mapM_list_align_returns (colors rd) w s) as (dcolors & Edc & Hdc & _).
  { revert Hd_col. apply Forall_impl. intros c Hc. left.
    unfold w, FRAC_PADDING. lia. }
  assert (Hrun : exists c,
             fst (Fraction_render n d s)
             = Ok (mkRenderOutput
                     (map (fun l => str_align l w) (lines rn)
                      ++ [repeat HBAR w]
                      ++ map (fun l => str_align l w) (lines rd))
                     (ncolors ++ [repeat (Ansi FRAC_COLOR) w] ++ dcolors)
                     (length (lines rn)) c) /\
             (c = None <-> cursor rn = None /\ cursor rd = None)).
  { unfold Fraction_render. bind_run Enw. bind_run Edw. bind_run En. bind_run Ed.
    fold w.
    assert (A1 : (length (nodup Nat.eq_dec (map (@length N) (lines rn))) =? 1) = true)
      by (apply same_length_assertion; eauto).
    assert (A2 : (length (nodup Nat.eq_dec (map (@length N) (lines rd))) =? 1) = true)
      by (apply same_length_assertion; eauto).
    rewrite A1, A2.
    destruct (@align_space_returns (width_of n) w s nw) as [offn Eoffn];
      [now apply pure_width_of | assumption |].
    destruct (@align_space_returns (width_of d) w s dw) as [offd Eoffd];
      [now apply pure_width_of | assumption |].
    destruct (cursor rn) as [cn|], (cursor rd) as [cd|];
      try (destruct Hcur; discriminate);
      repeat first
        [ rewrite Eoffn | rewrite Eoffd | rewrite Enc | rewrite Edc
        | progress cbn [assert ret raise fst]
        | rewrite bind_pure_unfold
            by (repeat first [apply pure_align_space | apply pure_width_of
                             | pure_step]) ];
      eexists; (split; [reflexivity|]);
      split; try discriminate; try tauto; intros [? ?]; discriminate. }
  destruct Hrun as (c & Erun & Hc).
  eexists. exists w. split; [split; [exact Erun|]|exact Hc].
  destruct (proj2 (good_Fraction_render Gn Gd) s _ Erun) as (w' & Hne' & Hlen' & Hall').
  assert (Hw : all_length w
                 (map (fun l => str_align l w) (lines rn)
                  ++ [repeat HBAR w] ++ map (fun l => str_align l w) (lines rd))).
  { unfold all_length. rewrite !Forall_app. repeat split.
    - rewrite Forall_map. revert Hn_all. apply Forall_impl. intros l Hl.
      rewrite str_align_length. unfold w, FRAC_PADDING. lia.
    - constructor; [apply repeat_length | constructor].
    - rewrite Forall_map. revert Hd_all. apply Forall_impl. intros l Hl.
      rewrite str_align_length. unfold w, FRAC_PADDING. lia. }
  split.
  - repeat split; assumption.
  - unfold colors_ok. cbn [colors]. rewrite !Forall_app. repeat split; try assumption.
    constructor; [apply repeat_length | constructor].
Qed.

Lemma Parenthesis_rows_returns n w index rows s :
  Forall (fun row => length (fst row) = w /\ length (snd row) = w) rows ->
  exists out,
    fst (Parenthesis_rows n w index rows s) = Ok out /\
    length out = length rows /\
    Forall (fun o => length (fst o) = w + 2 /\ length (snd o) = w + 2) out.
Proof.
  intros H. revert index.
  induction H as [|[line c] rows [Hl Hc] _ IH]; intros index;
    cbn [Parenthesis_rows].
  - exists []. auto.
  - cbn [fst snd] in Hl, Hc.
    destruct (@list_align_returns c w) as (c' & Ec & Hc'); [left; lia|].
    destruct (IH (S index)) as (out & Eout & Hlen & Hall).
    eexists. rewrite lift_bind, Ec. bind_run Eout.
    split; [reflexivity|]. split; [simpl; now rewrite Hlen|].
    constructor; [|assumption]. cbn [fst snd length]. split.
    + rewrite !length_app, str_align_length. cbn [length]. lia.
    + rewrite !length_app. cbn [length]. lia.
Qed.

Lemma Parenthesis_render_returns x s rx w cur :
  pure_comp x -> returns_rect x s rx w -> cursor rx = Some cur ->
  exists r w', returns_rect (Parenthesis_render x) s r w' /\ cursor r <> None.
Proof.
  intros Px Hx Hcur.
  pose proof (returns_rect_width Px Hx) as Ew.
  destruct Hx as (Ex & (Hne & Hlen & Hall) & Hcol).
  unfold Parenthesis_render, returns_rect. bind_run Ex. bind_run Ew.
  rewrite Hcur. cbn [Parenthesis_cursor].
  destruct (length (lines rx) =? 1) eqn:E1.
  - apply Nat.eqb_eq in E1.
    destruct (lines rx) as [|l0 [|l1 ls]] eqn:El; try discriminate.
    destruct (colors rx) as [|c0 [|c1 cs]] eqn:Ec; try discriminate.
    eexists. exists (w + 2). split; [split; [reflexivity|]|discriminate].
    inversion Hall; subst. unfold colors_ok in Hcol. rewrite Ec in Hcol.
    inversion Hcol; subst. split.
    + repeat split; cbn [lines colors]; try discriminate.
      constructor; [|constructor]. cbn [length app].
      rewrite length_app. cbn [length]. lia.
    + constructor; [|constructor]. cbn [length app].
      rewrite length_app. cbn [length]. lia.
  - destruct (@Parenthesis_rows_returns (length (lines rx)) w 0
                (combine (lines rx) (colors rx)) s) as (out & Eout & Hout & Hrows).
    { apply Forall_forall. intros [l c] Hin. cbn [fst snd]. split.
      - apply in_combine_l in Hin. unfold all_length in Hall.
        rewrite Forall_forall in Hall. auto.
      - apply in_combine_r in Hin. unfold colors_ok in Hcol.
        rewrite Forall_forall in Hcol. auto. }
    bind_run Eout.
    eexists. exists (w + 2). split; [split; [reflexivity|]|discriminate].
    rewrite length_combine, Hlen, Nat.min_id in Hout.
    split.
    + repeat split; cbn [lines colors].
      * intros Heq. apply (f_equal (@length _)) in Heq.
        rewrite length_map, Hout in Heq.
        destruct (lines rx); [contradiction | discriminate].
      * now rewrite !length_map.
      * unfold all_length. rewrite Forall_map. revert Hrows.
        apply Forall_impl. now intros o [].
    + unfold colors_ok. cbn [colors]. rewrite Forall_map. revert Hrows.
      apply Forall_impl. now intros o [].
Qed.

Lemma mapM_returns {A B} (f : A -> M B) l s bs :
  (forall a, In a l -> pure_comp (f a)) ->
  Forall2 (fun a b => fst (f a s) = Ok b) l bs ->
  fst (mapM f l s) = Ok bs.
Proof.
  intros Hp H. induction H as [|a b l bs Hab _ IH]; simpl; [reflexivity|].
  rewrite bind_pure_unfold by (apply Hp; now left). rewrite Hab.
  rewrite bind_pure_unfold by (apply pure_mapM; intros; apply Hp; now right).
  rewrite IH by (intros; apply Hp; now right). reflexivity.
Qed.

Lemma mapM_all_return {A B} (f : A -> M B) (Q : B -> Prop) l s :
  (forall a, In a l -> pure_comp (f a)) ->
  (forall a, In a l -> exists b, fst (f a s) = Ok b /\ Q b) ->
  exists bs, fst (mapM f l s) = Ok bs /\ Forall Q bs /\ length bs = length l.
Proof.
  induction l as [|a l IH]; intros Hp H; simpl.
  - exists []. auto.
  - destruct (H a) as (b & Eb & Qb); [now left|].
    destruct IH as (bs & Ebs & Qbs & Hlen);
      [intros; apply Hp; now right | intros; apply H; now right |].
    exists (b :: bs).
    rewrite bind_pure_unfold by (apply Hp; now left). rewrite Eb.
    rewrite bind_pure_unfold by (apply pure_mapM; intros; apply Hp; now right).
    rewrite Ebs. simpl. auto.
Qed.

Lemma combine_map_same {A B C} (f : A -> B) (g : A -> C) l :
  combine (map f l) (map g l) = map (fun a => (f a, g a)) l.
Proof. induction l; simpl; congruence. Qed.

Lemma combine_fst_snd {A B} (l : list (A * B)) :
  combine (map fst l) (map snd l) = l.
Proof. induction l as [|[a b] l IH]; simpl; congruence. Qed.

Lemma Row_top_padding_returns n w l c s :
  padded_ok w (l, c) -> Forall (fun x => length x = w) c ->
  exists lc, fst (Row_top_padding n w l c s) = Ok lc /\
             padded_ok w lc /\ Forall (fun x => length x = w) (snd lc).
Proof.
  revert l c. induction n as [|n IH]; intros l c Hok Hc; cbn [Row_top_padding].
  - exists (l, c). auto.
  - destruct (@list_align_returns [no_color] w) as (blank & Eb & Hb).
    { destruct w; [now right | left; simpl; lia]. }
    rewrite lift_bind, Eb. apply IH.
    + destruct Hok as (Hne & Hlen & Hall). cbn [fst snd] in *.
      repeat split; cbn [fst snd length]; [discriminate | now rewrite Hlen |].
      constructor; [apply repeat_length | assumption].
    + now constructor.
Qed.

Lemma Row_baseline_loop_returns base xs acc w_so_far s :
  Forall (fun rw => rect_out (fst rw) (snd rw) /\ colors_ok (fst rw) (snd rw)) xs ->
  exists res,
    fst (Row_baseline_loop base xs acc w_so_far s) = Ok res /\
    Forall2 (fun lc w => padded_ok w lc /\ Forall (fun x => length x = w) (snd lc))
            (fst res) (map snd xs) /\
    (snd res = None <->
     acc = None /\ Forall (fun rw => cursor (fst rw) = None) xs).
Proof.
  intros H. revert acc w_so_far.
  induction H as [|[r w] xs [Hr Hc] _ IH]; intros acc w_so_far;
    cbn [Row_baseline_loop].
  - exists ([], acc). cbn [fst snd map]. repeat split; auto. now intros [].
  - cbn [fst snd] in Hr, Hc.
    destruct (@Row_top_padding_returns (base - baseline r) w (lines r) (colors r) s)
      as (lc & Elc & Hlc & Hlcc); [exact Hr | exact Hc |].
    bind_run Elc.
    match goal with
    | |- context [Row_baseline_loop base xs ?a ?v] =>
      destruct (IH a v) as (rest & Erest & Hrest & Hcur)
    end.
    bind_run Erest. eexists. split; [reflexivity|]. cbn [fst snd map].
    split; [constructor; auto|].
    rewrite Hcur. destruct (cursor r) as [cur|] eqn:Ecur.
    + split; [intros [? _]; discriminate|].
      intros [_ Hall]. inversion Hall; subst. cbn [fst] in *. congruence.
    + split.
      * intros [-> Hall]. split; [reflexivity|]. constructor; assumption.
      * intros [-> Hall]. inversion Hall; subst. auto.
Qed.

Lemma Row_color_row_returns
    (pads : list (list (list N) * list (list color))) widths k s :
  Forall2 (fun lc w => Forall (fun x => length x = w) (snd lc)) pads widths ->
  exists cs,
    fst (mapM (fun xw => lift (list_align (fst xw) (snd xw)))
              (combine (map (fun c => nth k c []) (map snd pads)) widths) s)
    = Ok cs /\
    length (concat cs) = list_sum widths.
Proof.
  induction 1 as [|[l c] w pads widths Hc _ (cs & Ecs & Hlen)];
    cbn [map combine mapM fst snd].
  - exists []. auto.
  - cbn [snd] in Hc.
    destruct (@list_align_returns (nth k c []) w) as (c' & Ec & Hc').
    { left. destruct (Nat.lt_ge_cases k (length c)) as [Hk|Hk].
      - rewrite Forall_forall in Hc. rewrite (Hc (nth k c [])) by now apply nth_In.
        lia.
      - rewrite nth_overflow by assumption. simpl. lia. }
    exists (c' :: cs). rewrite lift_bind, Ec. bind_run Ecs.
    split; [reflexivity|]. cbn [concat].
    change (list_sum (w :: widths)) with (w + list_sum widths).
    rewrite length_app. lia.
Qed.

Lemma Row_output_row_returns
    (pads : list (list (list N) * list (list color))) widths k s :
  Forall2 (fun lc w => padded_ok w lc /\ Forall (fun x => length x = w) (snd lc))
          pads widths ->
  exists o,
    fst (Row_output_row widths
           (map (fun l => nth k l []) (map fst pads),
            map (fun c => nth k c []) (map snd pads)) s) = Ok o /\
    length (fst o) = list_sum widths /\ length (snd o) = list_sum widths.
Proof.
  intros H.
  destruct (@Row_color_row_returns pads widths k s) as (cs & Ecs & Hcs).
  { revert H. apply Forall2_impl. now intros lc w []. }
  unfold Row_output_row. cbn [fst snd]. bind_run Ecs.
  eexists. split; [reflexivity|]. cbn [fst snd]. split; [|assumption].
  apply Row_line_length. revert H. apply Forall2_impl. now intros lc w [].
Qed.

Lemma Row_render_returns items s (rws : list (RenderOutput * nat)) :
  items <> [] -> Forall pure_comp items ->
  Forall2 (fun m rw => returns_rect m s (fst rw) (snd rw)) items rws ->
  exists r w, returns_rect (Row_render items) s r w /\
              (cursor r = None <-> Forall (fun rw => cursor (fst rw) = None) rws).
Proof.
  intros Hne Hpure H.
  assert (Hp : forall m, In m items -> pure_comp m)
    by (now apply Forall_forall).
  assert (Ew : fst (mapM width_of items s) = Ok (map snd rws)).
  { apply mapM_returns; [intros; apply pure_width_of; auto|].
    clear Hne. induction H as [|m rw items rws Hm _ IH]; constructor.
    - eapply returns_rect_width; [apply Hp; now left | exact Hm].
    - apply IH; [now inversion Hpure | intros; apply Hp; now right]. }
  assert (Er : fst (mapM (fun x => x) items s) = Ok (map fst rws)).
  { apply mapM_returns; [auto|].
    clear Hne Ew. induction H as [|m rw items rws Hm _ IH]; constructor.
    - apply Hm.
    - apply IH; [now inversion Hpure | intros; apply Hp; now right]. }
  assert (Hrws : Forall (fun rw => rect_out (fst rw) (snd rw)
                                   /\ colors_ok (fst rw) (snd rw)) rws).
  { clear -H. induction H as [|m rw items rws (_ & Hr & Hc) _ IH];
      constructor; auto. }
  assert (Hrws_ne : rws <> []).
  { intros ->. inversion H. subst. contradiction. }
  unfold Row_render, returns_rect.
  rewrite bind_pure_unfold
    by (apply pure_mapM; intros; apply pure_width_of; auto).
  rewrite Ew. rewrite bind_pure_unfold by (apply pure_mapM; auto). rewrite Er.
  destruct (map fst rws) as [|r0 rs0] eqn:Efst.
  { destruct rws; [contradiction | discriminate]. }
  rewrite <- Efst, combine_fst_snd.
  set (base := list_max (map baseline (map fst rws))).
  destruct (@Row_baseline_loop_returns base rws None 0 s Hrws)
    as (padded & Ep & Hpads & Hcur).
  bind_run Ep.
  set (widths := map snd rws) in *.
  set (pl := map fst (fst padded)).
  set (pc := map snd (fst padded)).
  assert (Hmax : list_max (map (@length _) pc) = list_max (map (@length _) pl)).
  { f_equal. subst pl pc. rewrite !map_map.
    clear -Hpads. induction Hpads as [|lc w ? ? ((_ & Hlen & _) & _) _ IH]; simpl;
      [reflexivity | now rewrite Hlen, IH]. }
  assert (Hpos : 1 <= list_max (map (@length _) pl)).
  { subst pl widths. clear -Hpads Hrws_ne.
    destruct rws as [|rw rws']; [contradiction|]. cbn [map] in Hpads.
    inversion Hpads as [|lc w pads ws ((Hlc & _ & _) & _) _ Hpad]; subst.
    simpl. destruct (fst lc); [contradiction|]. simpl.
    match goal with |- 1 <= match ?x with _ => _ end => destruct x; lia end. }
  assert (Hrows : combine (zip_longest pl []) (zip_longest pc [])
                  = map (fun k => (map (fun l => nth k l []) pl,
                                   map (fun c => nth k c []) pc))
                        (seq 0 (list_max (map (@length _) pl)))).
  { unfold zip_longest. rewrite Hmax. apply combine_map_same. }
  rewrite Hrows.
  destruct (@mapM_all_return _ _ (Row_output_row widths)
              (fun o => length (fst o) = list_sum widths
                        /\ length (snd o) = list_sum widths)
              (map (fun k => (map (fun l => nth k l []) pl,
                              map (fun c => nth k c []) pc))
                   (seq 0 (list_max (map (@length _) pl)))) s)
    as (out & Eout & Hout & Hlen).
  { intros; apply pure_Row_output_row. }
  { intros a Ha. apply in_map_iff in Ha. destruct Ha as (k & <- & _).
    subst pl pc. now apply Row_output_row_returns. }
  bind_run Eout.
  rewrite length_map, length_seq in Hlen.
  eexists. exists (list_sum widths).
  split; [split; [reflexivity|]|].
  - split.
    + repeat split; cbn [lines colors].
      * intros Heq. apply (f_equal (@length _)) in Heq.
        rewrite length_map in Heq. simpl in Heq. lia.
      * now rewrite !length_map.
      * unfold all_length. rewrite Forall_map. revert Hout.
        apply Forall_impl. now intros o [].
    + unfold colors_ok. cbn [colors]. rewrite Forall_map. revert Hout.
      apply Forall_impl. now intros o [].
  - cbn [cursor]. rewrite Hcur. tauto.
Qed.

End RenderGood.

(** ** Delivering a key to the leaf that owns the cursor *)

Lemma str_eqb_eq a b : str_eqb a b = true <-> a = b.
Proof.
  revert b. induction a as [|x a IH]; intros [|y b]; simpl;
    try (split; [discriminate | discriminate]); [tauto|].
  rewrite andb_true_iff, N.eqb_eq, IH. split.
  - intros [-> ->]. reflexivity.
  - intros H. injection H as -> ->. auto.
Qed.

Lemma bind_ext {A B} (m : M A) (f g : A -> M B) s :
  (forall a s', f a s' = g a s') -> bind m f s = bind m g s.
Proof.
  intros H. rewrite !bind_unfold. destruct (m s) as [[a|e] s']; auto.
Qed.

Lemma bind_cong {A B} (m1 m2 : M A) (f g : A -> M B) s :
  m1 s = m2 s -> (forall a s', f a s' = g a s') -> bind m1 f s = bind m2 g s.
Proof.
  intros Hm H. rewrite !bind_unfold, Hm. destruct (m2 s) as [[a|e] s']; auto.
Qed.

Lemma bind_assoc {A B C} (m : M A) (f : A -> M B) (g : B -> M C) s :
  bind (bind m f) g s = bind m (fun a => bind (f a) g) s.
Proof.
  rewrite !bind_unfold. destruct (m s) as [[a|e] s']; reflexivity.
Qed.

Lemma first_accepted_app l1 l2 s :
  first_accepted (l1 ++ l2) s
  = (accepted <- first_accepted l1 ;;
     if accepted then ret true else first_accepted l2) s.
Proof.
  revert s. induction l1 as [|m l1 IH]; intros s; simpl.
  - reflexivity.
  - rewrite bind_assoc. apply bind_ext. intros [|] s'.
    + reflexivity.
    + apply IH.
Qed.

Lemma first_accepted_one (m : M bool) s : first_accepted [m] s = m s.
Proof.
  simpl. rewrite bind_unfold. destruct (m s) as [[[|]|e] s']; reflexivity.
Qed.

Lemma texts_of_app l1 l2 : texts_of (l1 ++ l2) = texts_of l1 ++ texts_of l2.
Proof.
  induction l1 as [|[r| | |] l1 IH]; simpl; congruence.
Qed.

Lemma texts_of_flat_map (f : Expression -> list Expression) items :
  texts_of (flat_map f items) = flat_map (fun i => texts_of (f i)) items.
Proof.
  induction items as [|i items IH]; simpl; [reflexivity|].
  now rewrite texts_of_app, IH.
Qed.

Lemma In_texts_of r l : In r (texts_of l) <-> In (Text r) l.
Proof.
  induction l as [|[r'| | |] l IH]; simpl.
  - tauto.
  - rewrite IH. split; intros [H|H]; auto; left; congruence.
  - rewrite IH. split; [auto | intros [H|H]; [discriminate | auto]].
  - rewrite IH. split; [auto | intros [H|H]; [discriminate | auto]].
  - rewrite IH. split; [auto | intros [H|H]; [discriminate | auto]].
Qed.

Lemma text_refs_Row items : text_refs (Row items) = flat_map text_refs items.
Proof. unfold text_refs. cbn [bfs_children texts_of]. apply texts_of_flat_map. Qed.

Lemma text_refs_Fraction n d :
  text_refs (Fraction n d) = text_refs n ++ text_refs d.
Proof. unfold text_refs. cbn [bfs_children texts_of]. apply texts_of_app. Qed.

Lemma has_owner_Row h items :
  has_owner h (Row items) <-> Exists (has_owner h) items.
Proof.
  unfold has_owner. rewrite text_refs_Row, Exists_exists. split.
  - intros (r & Hr & Or). apply in_flat_map in Hr. destruct Hr as (i & Hi & Hr).
    exists i. eauto.
  - intros (i & Hi & r & Hr & Or). exists r. split; [|assumption].
    apply in_flat_map. eauto.
Qed.

Lemma has_owner_Fraction h n d :
  has_owner h (Fraction n d) <-> has_owner h n \/ has_owner h d.
Proof.
  unfold has_owner. rewrite text_refs_Fraction. split.
  - intros (r & Hr & Or). apply in_app_or in Hr. destruct Hr; eauto.
  - intros [(r & Hr & Or)|(r & Hr & Or)]; exists r; split; auto;
      apply in_or_app; auto.
Qed.

Lemma owner_or_none (h : Heap) l :
  (forall r, In r l -> self_cursor (h r) = None) \/
  (exists r, In r l /\ owns_cursor h r).
Proof.
  induction l as [|x l [IH|(r & Hr & Or)]].
  - left. intros r [].
  - destruct (self_cursor (h x)) as [c|] eqn:E.
    + right. exists x. split; [now left | unfold owns_cursor; congruence].
    + left. intros r [<-|Hr]; auto.
  - right. exists r. split; [now right | assumption].
Qed.

Section RenderReturns.
Context {U : UnicodeData}.

(** On a renderable tree [render] returns a rectangle with color rows of
    its width, and it exposes a cursor exactly when a leaf of the tree
    owns one. *)
Lemma render_returns_rect e s :
  renderable (heap s) e ->
  exists r w, returns_rect (render e) s r w /\
              (cursor r = None <-> ~ has_owner (heap s) e).
Proof.
  induction e as [self|items IH|n d IHn IHd|x IHx] using Expression_induction;
    intros Hr; inversion Hr as [|? Hne Hitems|? ? Hn Hd Hboth|? Hx Hown]; subst;
    cbn [render].
  - destruct (Text_render_returns self s) as (r & w & Hret & Hcur).
    exists r, w. split; [assumption|]. rewrite Hcur. unfold has_owner, owns_cursor.
    unfold text_refs. cbn. split.
    + intros E (r' & [<-|[]] & O). contradiction.
    + intros H. destruct (self_cursor (heap s self)) eqn:E; [|reflexivity].
      exfalso. apply H. exists self. split; [now left | congruence].
  - assert (Hrws : exists rws,
               Forall2 (fun m rw => returns_rect m s (fst rw) (snd rw))
                       (map render items) rws /\
               (Forall (fun rw => cursor (fst rw) = None) rws
                <-> ~ Exists (has_owner (heap s)) items)).
    { clear Hne Hr. induction IH as [|i items Hi _ IHitems].
      - exists []. split; [constructor|]. split; [|constructor].
        intros _ H. inversion H.
      - inversion Hitems as [|? ? Hri Hritems]; subst.
        destruct (Hi Hri) as (r & w & Hret & Hcur).
        destruct (IHitems Hritems) as (rws & Hrws & Hcurs).
        exists ((r, w) :: rws). split; [constructor; assumption|].
        split.
        + intros Hall Hex. inversion Hall as [|? ? Hr0 Hrest]; subst.
          cbn [fst] in Hr0. inversion Hex as [? ? Ho|? ? Ho]; subst.
          * now apply Hcur in Hr0.
          * now apply Hcurs in Hrest.
        + intros Hnot. constructor.
          * cbn [fst]. apply Hcur. intros Ho. apply Hnot. now left.
          * apply Hcurs. intros Ho. apply Hnot. now right. }
    destruct Hrws as (rws & Hrws & Hcurs).
    destruct (@Row_render_returns (map render items) s rws) as (r & w & Hret & Hcur).
    + destruct items; [contradiction | discriminate].
    + rewrite Forall_map. apply Forall_forall. intros; apply render_pure.
    + assumption.
    + exists r, w. split; [assumption|].
      rewrite Hcur, Hcurs, has_owner_Row. tauto.
  - destruct (IHn Hn) as (rn & nw & Hretn & Hcurn).
    destruct (IHd Hd) as (rd & dw & Hretd & Hcurd).
    destruct (@Fraction_render_returns (render n) (render d) s rn nw rd dw)
      as (r & w & Hret & Hcur);
      try apply render_good; try assumption.
    + destruct (cursor rn) as [cn|]; [|now left].
      destruct (cursor rd) as [cd|]; [|now right].
      exfalso.
      assert (Hnn : ~ ~ has_owner (heap s) n)
        by (intros H; apply Hcurn in H; discriminate).
      assert (Hdd : ~ ~ has_owner (heap s) d)
        by (intros H; apply Hcurd in H; discriminate).
      tauto.
    + exists r, w. split; [assumption|].
      rewrite Hcur, Hcurn, Hcurd, has_owner_Fraction. tauto.
  - destruct (IHx Hx) as (rx & w & Hretx & Hcurx).
    destruct (cursor rx) as [cur|] eqn:Ecur.
    2:{ exfalso. now apply Hcurx. }
    destruct (@Parenthesis_render_returns (render x) s rx w cur)
      as (r & w' & Hret & Hcur);
      [apply render_pure | assumption | assumption |].
    exists r, w'. split; [assumption|]. split; [contradiction|].
    intros Hnot. exfalso. apply Hnot. exact Hown.
Qed.

(** Apart from the two cases of C1 and C10, [render] is total: it returns
    on every tree whose rows have items, whose parentheses wrap the cursor,
    and in which no fraction has a cursor on both sides. *)
Theorem render_returns_on_renderable e s :
  renderable (heap s) e -> exists r, fst (render e s) = Ok r.
Proof.
  intros H. destruct (@render_returns_rect e s H) as (r & w & (E & _) & _). eauto.
Qed.

(** And only there: a tree on which [render] returns is renderable. *)
Theorem render_returns_only_on_renderable e s r :
  fst (render e s) = Ok r -> renderable (heap s) e.
Proof.
  revert r.
  induction e as [self|items IH|n d IHn IHd|x IHx] using Expression_induction;
    intros r H; cbn [render] in H.
  - constructor.
  - unfold Row_render in H.
    rewrite bind_pure_unfold in H
      by (apply pure_mapM; intros m Hm; apply pure_width_of;
          apply in_map_iff in Hm; destruct Hm as (i & <- & _); apply render_pure).
    destruct (fst (mapM width_of (map render items) s)) as [widths|]; [|discriminate].
    rewrite bind_pure_unfold in H
      by (apply pure_mapM; intros m Hm;
          apply in_map_iff in Hm; destruct Hm as (i & <- & _); apply render_pure).
    destruct (fst (mapM (fun x => x) (map render items) s)) as [rs|] eqn:Ers;
      [|discriminate].
    destruct rs as [|r0 rs]; [discriminate|].
    apply mapM_ok in Ers.
    2:{ intros m Hm. apply in_map_iff in Hm. destruct Hm as (i & <- & _).
        apply render_pure. }
    constructor.
    + intros ->. inversion Ers.
    + clear H. remember (r0 :: rs) as rs0 eqn:E. clear E.
      revert rs0 Ers. induction IH as [|i items Hi _ IHitems]; intros rs0 Ers;
        constructor.
      * inversion Ers; subst. eapply Hi. eassumption.
      * inversion Ers; subst. eapply IHitems. eassumption.
  - assert (Hn : exists rn, fst (render n s) = Ok rn).
    { unfold Fraction_render in H.
      rewrite bind_pure_unfold in H by apply pure_width_of, render_pure.
      destruct (fst (width_of (render n) s)) as [nw|] eqn:Enw; [|discriminate].
      apply width_of_ok in Enw; [|apply render_pure].
      destruct Enw as (rn & Ern & _). eauto. }
    assert (Hd : exists rd, fst (render d s) = Ok rd).
    { unfold Fraction_render in H.
      rewrite bind_pure_unfold in H by apply pure_width_of, render_pure.
      destruct (fst (width_of (render n) s)) as [nw|]; [|discriminate].
      rewrite bind_pure_unfold in H by apply pure_width_of, render_pure.
      destruct (fst (width_of (render d) s)) as [dw|] eqn:Edw; [|discriminate].
      apply width_of_ok in Edw; [|apply render_pure].
      destruct Edw as (rd & Erd & _). eauto. }
    destruct Hn as [rn Ern]. destruct Hd as [rd Erd].
    pose proof (IHn rn Ern) as Rn. pose proof (IHd rd Erd) as Rd.
    constructor; try assumption.
    intros [On Od].
    destruct (@render_returns_rect n s Rn) as (rn' & nw & (Ern' & _) & Hcn).
    destruct (@render_returns_rect d s Rd) as (rd' & dw & (Erd' & _) & Hcd).
    rewrite Ern in Ern'. injection Ern' as <-.
    rewrite Erd in Erd'. injection Erd' as <-.
    unfold Fraction_render in H.
    rewrite bind_pure_unfold in H by apply pure_width_of, render_pure.
    destruct (fst (width_of (render n) s)) as [nw'|]; [|discriminate].
    rewrite bind_pure_unfold in H by apply pure_width_of, render_pure.
    destruct (fst (width_of (render d) s)) as [dw'|]; [|discriminate].
    rewrite bind_pure_unfold in H by apply render_pure. rewrite Ern in H.
    rewrite bind_pure_unfold in H by apply render_pure. rewrite Erd in H.
    rewrite bind_pure_unfold in H by apply pure_assert.
    destruct (fst (assert _ s)); [|discriminate].
    rewrite bind_pure_unfold in H by apply pure_assert.
    destruct (fst (assert _ s)); [|discriminate].
    rewrite bind_pure_unfold in H by apply pure_assert.
    destruct (cursor rn) as [cn|]; [|now apply Hcn].
    destruct (cursor rd) as [cd|]; [|now apply Hcd].
    discriminate H.
  - destruct (@Parenthesis_render_needs_cursor (render x) s r)
      as (rx & cur & Erx & Ecur); [apply render_pure | assumption |].
    pose proof (IHx rx Erx) as Rx. constructor; [assumption|].
    destruct (@render_returns_rect x s Rx) as (rx' & w & (Erx' & _) & Hcx).
    rewrite Erx in Erx'. injection Erx' as <-.
    destruct (owner_or_none (heap s) (text_refs x)) as [Hnone|Hsome];
      [|exact Hsome].
    exfalso. assert (Hc : cursor rx = None).
    { apply Hcx. intros (r' & Hr' & Or'). apply Or'. now apply Hnone. }
    congruence.
Qed.

End RenderReturns.

Section Dispatch.
Context {U : UnicodeData}.

(** Inside a tree with root [R], a key reaches the [Text] leaves of a
    subtree in pre-order, until one of them accepts it. *)
Lemma press_key_offers_to_leaves e key R s :
  press_key e key (Some R) s
  = first_accepted (map (fun r => Text_press_key r key (Some R)) (text_refs e)) s.
Proof.
  revert s.
  induction e as [self|items IH|n d IHn IHd|x IHx] using Expression_induction;
    intros s.
  - cbn [press_key text_refs bfs_children texts_of map].
    now rewrite first_accepted_one.
  - cbn [press_key root_or]. unfold text_refs. cbn [bfs_children texts_of].
    rewrite texts_of_flat_map. fold text_refs.
    revert s. induction IH as [|i items Hi _ IHitems]; intros s.
    + reflexivity.
    + cbn [map flat_map first_accepted]. rewrite map_app, first_accepted_app.
      rewrite !bind_unfold, Hi.
      destruct (first_accepted _ s) as [[[|]|?] s']; try reflexivity.
      apply IHitems.
  - cbn [press_key root_or]. unfold text_refs. cbn [bfs_children texts_of].
    rewrite texts_of_app, map_app, first_accepted_app. fold (text_refs n) (text_refs d).
    cbn [first_accepted]. rewrite bind_unfold, IHn, <- bind_unfold.
    apply bind_ext. intros [|] s'; [reflexivity|].
    rewrite bind_unfold, IHd.
    destruct (first_accepted _ s') as [[[|]|?] ?]; reflexivity.
  - cbn [press_key root_or]. unfold text_refs. cbn [bfs_children texts_of].
    fold (text_refs x). rewrite first_accepted_one. apply IHx.
Qed.

End Dispatch.

Lemma bind_never_false {A} (m : M A) (f : A -> M bool) s :
  (forall a s', fst (f a s') <> Ok false) -> fst (bind m f s) <> Ok false.
Proof.
  intros H. rewrite bind_unfold. destruct (m s) as [[a|e] s'].
  - apply H.
  - discriminate.
Qed.

(** Among references, the first that owns a cursor. *)
Lemma first_owner_split (h : Heap) l :
  (exists r, In r l /\ owns_cursor h r) ->
  exists l1 L l2, l = l1 ++ L :: l2 /\
                  (forall r, In r l1 -> self_cursor (h r) = None) /\
                  owns_cursor h L.
Proof.
  induction l as [|x l IH]; intros (r & Hin & Hr); [contradiction|].
  destruct (self_cursor (h x)) as [c|] eqn:Ex.
  - exists [], x, l. repeat split; [intros ? [] | unfold owns_cursor; congruence].
  - destruct IH as (l1 & L & l2 & -> & Hl1 & HL).
    + exists r. split; [|assumption].
      destruct Hin as [->|Hin]; [|assumption].
      unfold owns_cursor in Hr. contradiction.
    + exists (x :: l1), L, l2. repeat split; [|assumption].
      intros r' [<-|Hr']; auto.
Qed.

Section Focus.
Context {U : UnicodeData}.

Lemma Text_press_key_without_cursor self key root s :
  self_cursor (heap s self) = None ->
  Text_press_key self key root s = (Ok false, s).
Proof.
  intros H. unfold Text_press_key. cbn [Text_press_key_fuel].
  unfold Text_press_key_body. rewrite bind_unfold. unfold get_cursor.
  rewrite H. reflexivity.
Qed.

(** A leaf that owns the cursor accepts every key: it returns [True] or
    raises, it never passes the key on. *)
Lemma Text_press_key_body_accepts rec self key root s :
  owns_cursor (heap s) self ->
  fst (Text_press_key_body rec self key root s) <> Ok false.
Proof.
  intros H. unfold Text_press_key_body. rewrite bind_unfold. unfold get_cursor.
  destruct (self_cursor (heap s self)) as [c|] eqn:E; [|contradiction].
  destruct (is_None root && _).
  - apply bind_never_false. intros; discriminate.
  - repeat (apply bind_never_false; intros). discriminate.
Qed.

Lemma first_accepted_skips key R l1 l2 s :
  (forall r, In r l1 -> self_cursor (heap s r) = None) ->
  first_accepted (map (fun r => Text_press_key r key R) (l1 ++ l2)) s
  = first_accepted (map (fun r => Text_press_key r key R) l2) s.
Proof.
  induction l1 as [|x l1 IH]; intros H; [reflexivity|].
  cbn [app map first_accepted]. rewrite bind_unfold.
  rewrite Text_press_key_without_cursor by (apply H; now left).
  apply IH. intros; apply H; now right.
Qed.

Lemma press_key_at_root e key s :
  match e with Text _ => False | _ => True end ->
  press_key e key None s = press_key e key (Some e) s.
Proof. destruct e; [contradiction | reflexivity..]. Qed.

(** Delivered to the root of a tree, a key goes to the first leaf in
    pre-order that owns a cursor. *)
Lemma press_key_reaches_owner root key s l1 L l2 :
  text_refs root = l1 ++ L :: l2 ->
  (forall r, In r l1 -> self_cursor (heap s r) = None) ->
  owns_cursor (heap s) L ->
  press_key root key None s
  = Text_press_key L key (root_seen_from_leaf root) s.
Proof.
  intros Hrefs Hl1 HL.
  assert (Hgen : forall R,
             first_accepted (map (fun r => Text_press_key r key R) (text_refs root)) s
             = Text_press_key L key R s).
  { intros R. rewrite Hrefs, first_accepted_skips by assumption.
    cbn [map first_accepted]. rewrite bind_unfold.
    pose proof (@Text_press_key_body_accepts
                  (fun k r => Text_press_key_fuel 1 L k r) L key R s HL) as Hacc.
    change (Text_press_key_body _ L key R s) with (Text_press_key L key R s) in Hacc.
    destruct (Text_press_key L key R s) as [[[|]|e] s']; try reflexivity.
    now contradiction Hacc. }
  destruct root as [self|items|n d|x].
  - cbn [press_key root_seen_from_leaf].
    unfold text_refs in Hrefs. cbn in Hrefs.
    destruct l1 as [|y [|z l1]]; cbn in Hrefs; try discriminate.
    now injection Hrefs as ->.
  - rewrite press_key_at_root by exact I.
    rewrite press_key_offers_to_leaves. apply Hgen.
  - rewrite press_key_at_root by exact I.
    rewrite press_key_offers_to_leaves. apply Hgen.
  - rewrite press_key_at_root by exact I.
    rewrite press_key_offers_to_leaves. apply Hgen.
Qed.

(** When no leaf owns a cursor, nobody accepts the key. *)
Lemma press_key_without_owner root key s :
  (forall r, In r (text_refs root) -> self_cursor (heap s r) = None) ->
  press_key root key None s = (Ok false, s).
Proof.
  intros H.
  assert (Hgen : forall R,
             first_accepted (map (fun r => Text_press_key r key R) (text_refs root)) s
             = (Ok false, s)).
  { intros R. rewrite <- (app_nil_r (text_refs root)).
    now rewrite first_accepted_skips. }
  destruct root as [self|items|n d|x].
  - cbn [press_key]. apply Text_press_key_without_cursor.
    apply H. unfold text_refs. cbn. now left.
  - rewrite press_key_at_root by exact I.
    rewrite press_key_offers_to_leaves. apply Hgen.
  - rewrite press_key_at_root by exact I.
    rewrite press_key_offers_to_leaves. apply Hgen.
  - rewrite press_key_at_root by exact I.
    rewrite press_key_offers_to_leaves. apply Hgen.
Qed.

End Focus.

(** ** What [Text.press_key] does, key by key *)

Section Keys.
Context {U : UnicodeData}.

Ltac key_eval :=
  repeat match goal with
         | |- context [isprintable ?k] =>
           let v := eval vm_compute in (isprintable k) in
           change (isprintable k) with v
         | |- context [str_eqb ?a ?b] =>
           let v := eval vm_compute in (str_eqb a b) in
           change (str_eqb a b) with v
         end.

Lemma Text_press_key_body_with_cursor rec self key root s cur :
  self_cursor (heap s self) = Some cur ->
  Text_press_key_body rec self key root s
  = (if is_None root && (str_eqb key key_UP || str_eqb key key_DOWN) then
       eprint D_cancelling_vertical_movement ;; ret true
     else
       when (isprintable key) (insert_key self key) ;;
       when (str_eqb key key_BACKSPACE) (erase_backward self) ;;
       when (str_eqb key key_LEFT) (move_left rec self root) ;;
       when (str_eqb key key_RIGHT) (move_right rec self root) ;;
       when (str_eqb key key_UP) (go_up self root) ;;
       when (str_eqb key key_DOWN) (go_down self root) ;;
       ret true) s.
Proof.
  intros H. unfold Text_press_key_body. rewrite bind_unfold. unfold get_cursor.
  rewrite H. reflexivity.
Qed.

Lemma unrecognized_spec key :
  unrecognized key = true ->
  isprintable key = false /\ str_eqb key key_BACKSPACE = false /\
  str_eqb key key_LEFT = false /\ str_eqb key key_RIGHT = false /\
  str_eqb key key_UP = false /\ str_eqb key key_DOWN = false.
Proof.
  unfold unrecognized. rewrite !andb_true_iff, !negb_true_iff. tauto.
Qed.

Lemma body_unrecognized rec self key root s cur :
  self_cursor (heap s self) = Some cur ->
  unrecognized key = true ->
  Text_press_key_body rec self key root s = (Ok true, s).
Proof.
  intros Hc Hk. apply unrecognized_spec in Hk.
  destruct Hk as (H1 & H2 & H3 & H4 & H5 & H6).
  erewrite Text_press_key_body_with_cursor by exact Hc.
  rewrite H1, H2, H3, H4, H5, H6, andb_false_r. reflexivity.
Qed.

Lemma body_BACKSPACE rec self root s cur :
  self_cursor (heap s self) = Some cur ->
  Text_press_key_body rec self key_BACKSPACE root s
  = (erase_backward self ;; ret true) s.
Proof.
  intros Hc. erewrite Text_press_key_body_with_cursor by exact Hc.
  key_eval. rewrite andb_false_r. reflexivity.
Qed.

Lemma body_LEFT rec self root s cur :
  self_cursor (heap s self) = Some cur ->
  Text_press_key_body rec self key_LEFT root s
  = (move_left rec self root ;; ret true) s.
Proof.
  intros Hc. erewrite Text_press_key_body_with_cursor by exact Hc.
  key_eval. rewrite andb_false_r. reflexivity.
Qed.

Lemma body_RIGHT rec self root s cur :
  self_cursor (heap s self) = Some cur ->
  Text_press_key_body rec self key_RIGHT root s
  = (move_right rec self root ;; ret true) s.
Proof.
  intros Hc. erewrite Text_press_key_body_with_cursor by exact Hc.
  key_eval. rewrite andb_false_r. reflexivity.
Qed.

Lemma body_UP rec self root s cur :
  self_cursor (heap s self) = Some cur ->
  Text_press_key_body rec self key_UP root s
  = (if is_None root then eprint D_cancelling_vertical_movement ;; ret true
     else go_up self root ;; ret true) s.
Proof.
  intros Hc. erewrite Text_press_key_body_with_cursor by exact Hc.
  key_eval. destruct root; reflexivity.
Qed.

Lemma body_DOWN rec self root s cur :
  self_cursor (heap s self) = Some cur ->
  Text_press_key_body rec self key_DOWN root s
  = (if is_None root then eprint D_cancelling_vertical_movement ;; ret true
     else go_down self root ;; ret true) s.
Proof.
  intros Hc. erewrite Text_press_key_body_with_cursor by exact Hc.
  key_eval. destruct root; reflexivity.
Qed.

Lemma body_other rec self key root s cur :
  self_cursor (heap s self) = Some cur ->
  str_eqb key key_BACKSPACE = false -> str_eqb key key_LEFT = false ->
  str_eqb key key_RIGHT = false -> str_eqb key key_UP = false ->
  str_eqb key key_DOWN = false ->
  Text_press_key_body rec self key root s
  = (when (isprintable key) (insert_key self key) ;; ret true) s.
Proof.
  intros Hc H2 H3 H4 H5 H6.
  erewrite Text_press_key_body_with_cursor by exact Hc.
  rewrite H2, H3, H4, H5, H6, andb_false_r.
  apply bind_ext. reflexivity.
Qed.

(** For [UP] and [DOWN] the body makes no call of [self.press_key]. *)
Lemma vertical_body_makes_no_call rec1 rec2 self key root s :
  key = key_UP \/ key = key_DOWN ->
  Text_press_key_body rec1 self key root s
  = Text_press_key_body rec2 self key root s.
Proof.
  intros Hk.
  destruct (self_cursor (heap s self)) as [cur|] eqn:Hc.
  - destruct Hk as [-> | ->].
    + erewrite !body_UP by exact Hc. reflexivity.
    + erewrite !body_DOWN by exact Hc. reflexivity.
  - unfold Text_press_key_body. rewrite !bind_unfold. unfold get_cursor.
    rewrite Hc. reflexivity.
Qed.

Lemma Text_press_key_body_ext rec1 rec2 self key root s :
  (forall k r s', k = key_UP \/ k = key_DOWN -> rec1 k r s' = rec2 k r s') ->
  Text_press_key_body rec1 self key root s
  = Text_press_key_body rec2 self key root s.
Proof.
  intros Hrec. unfold Text_press_key_body.
  apply bind_ext. intros [cur|] s1; [|reflexivity].
  destruct (is_None root && _); [reflexivity|].
  apply bind_ext. intros _ s2. apply bind_ext. intros _ s3.
  apply bind_cong.
  { destruct (str_eqb key key_LEFT); [|reflexivity]. cbn [when].
    unfold move_left. apply bind_ext. intros c s4.
    destruct (0 <? c); [reflexivity|].
    apply bind_cong; [apply Hrec; now left | reflexivity]. }
  intros _ s4. apply bind_cong; [|reflexivity].
  destruct (str_eqb key key_RIGHT); [|reflexivity]. cbn [when].
  unfold move_right. apply bind_ext. intros c s5. apply bind_ext. intros w s6.
  destruct (c <? w); [reflexivity|].
  apply bind_cong; [apply Hrec; now right | reflexivity].
Qed.

(** The calls of [self.press_key] from inside [Text.press_key] are for
    [UP] and [DOWN], which nest no call: any fuel from 2 on gives the
    result of [Text_press_key]. *)
Lemma Text_press_key_fuel_enough n self key root s :
  Text_press_key_fuel (2 + n) self key root s = Text_press_key self key root s.
Proof.
  unfold Text_press_key. cbn [Nat.add Text_press_key_fuel].
  apply Text_press_key_body_ext. intros k r s' Hk.
  cbv beta. cbn [Text_press_key_fuel]. now apply vertical_body_makes_no_call.
Qed.

(** The fuel never runs out: what stands at the bottom of the recursion
    does not matter for the result. *)
Lemma Text_press_key_fuel_never_runs_out bottom self key root s :
  Text_press_key self key root s
  = Text_press_key_body (Text_press_key_body bottom self) self key root s.
Proof.
  unfold Text_press_key. cbn [Text_press_key_fuel].
  apply Text_press_key_body_ext. intros k r s' Hk.
  cbv beta. now apply vertical_body_makes_no_call.
Qed.

End Keys.

Lemma firstn_skipn_middle {A} (l : list A) n :
  n < length l -> exists a x b, l = a ++ x :: b /\ length a = n.
Proof.
  revert l. induction n as [|n IH]; intros [|y l] H; simpl in H; try lia.
  - exists [], y, l. auto.
  - destruct (IH l) as (a & x & b & -> & Ha); [lia|].
    exists (y :: a), x, b. simpl. auto.
Qed.

(** ** Keys outside the taxonomy, and erase-backward *)

Section Editing.
Context {U : UnicodeData}.

Lemma owns_cursor_Some h r : owns_cursor h r -> exists cur, self_cursor (h r) = Some cur.
Proof.
  unfold owns_cursor. destruct (self_cursor (h r)) as [cur|]; [eauto | contradiction].
Qed.

(** C3, as the code has it: when some [Text] node of the tree owns the
    cursor, a key outside the recognized taxonomy is consumed like any
    other ([press_key] returns [True]), and nothing changes: neither the
    heap nor what was written to stderr. *)
Theorem unrecognized_key_is_consumed (root : Expression) (key : str)
    (s : State) (r : ref) :
  In r (text_refs root) -> owns_cursor (heap s) r ->
  unrecognized key = true ->
  press_key root key None s = (Ok true, s).
Proof.
  intros Hin Hown Hkey.
  destruct (@first_owner_split (heap s) (text_refs root)) as (l1 & L & l2 & Hrefs & Hl1 & HL).
  { eauto. }
  erewrite press_key_reaches_owner by eassumption.
  destruct (owns_cursor_Some HL) as [cur Hcur].
  unfold Text_press_key. cbn [Text_press_key_fuel].
  eapply body_unrecognized; eassumption.
Qed.

Lemma get_col_run self s cur :
  self_cursor (heap s self) = Some cur -> get_col self s = (Ok (col cur), s).
Proof.
  intros H. unfold get_col. rewrite bind_unfold. unfold get_cursor.
  rewrite H. reflexivity.
Qed.

Lemma set_col_run self v s cur :
  self_cursor (heap s self) = Some cur ->
  set_col self v s
  = (Ok tt, mkState (upd (heap s) self
                         (mkText (self_text (heap s self))
                                 (Some (mkScreenOffset (row cur) v))))
                    (stderr s)).
Proof.
  intros H. unfold set_col. rewrite bind_unfold. unfold get_cursor.
  rewrite H. reflexivity.
Qed.

Lemma erase_backward_at_start self s cur :
  self_cursor (heap s self) = Some cur -> col cur = 0 ->
  erase_backward self s
  = (Ok tt, mkState (heap s) (stderr s ++ [D_SPECIAL_ACTION])).
Proof.
  intros Hc H0. unfold erase_backward.
  rewrite bind_unfold. erewrite get_col_run by exact Hc. rewrite H0. reflexivity.
Qed.

Lemma erase_backward_inside self s cur a ch b :
  self_cursor (heap s self) = Some cur ->
  self_text (heap s self) = a ++ ch :: b ->
  col cur = S (length a) ->
  exists h',
    erase_backward self s = (Ok tt, mkState h' (stderr s ++ [D_REMOVE ch])) /\
    h' self = mkText (a ++ b) (Some (mkScreenOffset (row cur) (length a))) /\
    forall r, r <> self -> h' r = heap s r.
Proof.
  intros Hc Ht Hcol. unfold erase_backward.
  rewrite bind_unfold. erewrite get_col_run by exact Hc. rewrite Hcol.
  cbn [Nat.eqb]. rewrite bind_unfold. unfold get_text at 1. rewrite Ht.
  rewrite bind_unfold.
  replace (S (length a) - 1) with (length a) by lia.
  rewrite nth_error_app2, Nat.sub_diag by lia. cbn [nth_error ret].
  rewrite firstn_app, Nat.sub_diag, firstn_all, skipn_app, skipn_all2 by lia.
  replace (S (length a) - length a) with 1 by lia.
  cbn [firstn skipn app]. rewrite app_nil_r.
  rewrite bind_unfold. unfold eprint at 1.
  rewrite bind_unfold. unfold set_text at 1. cbn [heap stderr].
  rewrite bind_unfold.
  erewrite get_col_run by (cbn [heap]; rewrite upd_same; cbn [self_cursor]; exact Hc).
  rewrite bind_unfold.
  erewrite set_col_run by (cbn [heap]; rewrite upd_same; cbn [self_cursor]; exact Hc).
  rewrite bind_unfold.
  erewrite get_col_run by (cbn [heap]; rewrite upd_same; reflexivity).
  cbn [col heap stderr]. rewrite upd_same. cbn [self_text].
  eexists. split; [reflexivity|]. split.
  - rewrite upd_same. f_equal. f_equal. f_equal. lia.
  - intros r Hr. now rewrite !upd_other.
Qed.

(** C8: erase-backward on the leaf that owns the cursor (whose column is
    within the text).  The key is consumed and one diagnostic is written.
    At column 0 the text and the cursor are unchanged; at a column c > 0
    the character at index c - 1 is deleted and the column becomes c - 1.
    No other leaf changes. *)
Theorem erase_backward_on_focused_leaf (self : ref) (root : option Expression)
    (s : State) (cur : ScreenOffset) :
  self_cursor (heap s self) = Some cur ->
  col cur <= length (self_text (heap s self)) ->
  let s' := snd (Text_press_key self key_BACKSPACE root s) in
  fst (Text_press_key self key_BACKSPACE root s) = Ok true /\
  (exists d, stderr s' = stderr s ++ [d]) /\
  (forall r, r <> self -> heap s' r = heap s r) /\
  (col cur = 0 ->
   heap s' self = heap s self /\ stderr s' = stderr s ++ [D_SPECIAL_ACTION]) /\
  (0 < col cur ->
   exists a ch b,
     self_text (heap s self) = a ++ ch :: b /\ length a = col cur - 1 /\
     heap s' self
     = mkText (a ++ b) (Some (mkScreenOffset (row cur) (col cur - 1)))).
Proof.
  intros Hc Hle s'. subst s'.
  unfold Text_press_key. cbn [Text_press_key_fuel].
  erewrite body_BACKSPACE by exact Hc. rewrite bind_unfold.
  destruct (col cur) as [|c] eqn:Hcol.
  - erewrite erase_backward_at_start by eassumption. cbn [fst snd heap stderr ret].
    repeat split; eauto. intros H; lia.
  - destruct (@firstn_skipn_middle _ (self_text (heap s self)) c) as (a & ch & b & Ht & Ha).
    { lia. }
    destruct (@erase_backward_inside self s cur a ch b Hc Ht) as (h' & Hrun & Hself & Hother).
    { lia. }
    rewrite Hrun. cbn [fst snd heap stderr ret].
    repeat split; eauto; try discriminate.
    intros _. exists a, ch, b. repeat split; [assumption | lia |].
    rewrite Hself. do 3 f_equal. lia.
Qed.

End Editing.

(** ** Moving the cursor to a neighbouring leaf *)

Lemma obj_index_at pre L post :
  ~ In (Text L) pre -> obj_index (pre ++ Text L :: post) L = Ok (length pre).
Proof.
  induction pre as [|x pre IH]; intros H; simpl.
  - now rewrite Nat.eqb_refl.
  - assert (Hx : is_obj x L = false).
    { destruct x as [r| | |]; try reflexivity. simpl.
      apply Nat.eqb_neq. intros ->. apply H. now left. }
    rewrite Hx, IH; [reflexivity|]. intros Hin. apply H. now right.
Qed.

Lemma first_Text_app_none l1 l2 :
  (forall r, ~ In (Text r) l1) -> first_Text (l1 ++ l2) = first_Text l2.
Proof.
  induction l1 as [|x l1 IH]; intros H; [reflexivity|].
  destruct x as [r| | |]; simpl.
  - exfalso. apply (H r). now left.
  - apply IH. intros r Hr. apply (H r). now right.
  - apply IH. intros r Hr. apply (H r). now right.
  - apply IH. intros r Hr. apply (H r). now right.
Qed.

Lemma first_Text_none l :
  first_Text l = None <-> forall r, ~ In (Text r) l.
Proof.
  induction l as [|x l IH]; simpl.
  - split; [intros _ r [] | reflexivity].
  - destruct x as [r| | |].
    + split; [discriminate|]. intros H. exfalso. apply (H r). now left.
    + rewrite IH. split; intros H r; [intros [?|?]; [discriminate|now apply (H r)]|].
      intros Hr. apply (H r). now right.
    + rewrite IH. split; intros H r; [intros [?|?]; [discriminate|now apply (H r)]|].
      intros Hr. apply (H r). now right.
    + rewrite IH. split; intros H r; [intros [?|?]; [discriminate|now apply (H r)]|].
      intros Hr. apply (H r). now right.
Qed.

(** Scanning backward from the end of [pre' ++ Text P :: mid], where [mid]
    has no [Text], the first [Text] met is [P]. *)
Lemma first_Text_backward pre' P mid :
  (forall r, ~ In (Text r) mid) ->
  first_Text (rev (pre' ++ Text P :: mid)) = Some P.
Proof.
  intros H. rewrite rev_app_distr. simpl. rewrite <- app_assoc.
  rewrite first_Text_app_none; [reflexivity|].
  intros r Hr. apply (H r). now apply in_rev.
Qed.

Lemma forM_eprint_candidate_run l s :
  exists log, forM_ eprint_candidate l s = (Ok tt, mkState (heap s) log).
Proof.
  revert s. induction l as [|x l IH]; intros s; simpl.
  - exists (stderr s). now destruct s.
  - rewrite bind_unfold.
    assert (Hx : exists log, eprint_candidate x s = (Ok tt, mkState (heap s) log)).
    { destruct x; simpl; eexists; reflexivity. }
    destruct Hx as [log ->]. destruct (IH (mkState (heap s) log)) as [log' ->].
    now exists log'.
Qed.

Lemma text_after_cursor_change (h : Heap) self c r :
  self_text (upd h self (mkText (self_text (h self)) c) r) = self_text (h r).
Proof.
  unfold upd. destruct (Nat.eqb_spec r self) as [->|]; reflexivity.
Qed.

Lemma moved_target h self target c :
  moved h self target c target
  = mkText (self_text (h target)) (Some (mkScreenOffset 0 c)).
Proof. unfold moved. apply upd_same. Qed.

Lemma moved_self h self target c :
  target <> self ->
  moved h self target c self = mkText (self_text (h self)) None.
Proof.
  intros H. unfold moved. rewrite upd_other by congruence. apply upd_same.
Qed.

Lemma moved_other h self target c r :
  r <> target -> r <> self -> moved h self target c r = h r.
Proof. intros H1 H2. unfold moved. now rewrite !upd_other. Qed.

Section Jumps.
Context {U : UnicodeData}.

Lemma width_Text r s : width (Text r) s = (Ok (length (self_text (heap s r))), s).
Proof. reflexivity. Qed.

Lemma go_up_found self R s i P :
  obj_index (bfs_children R) self = Ok i ->
  first_Text (rev (firstn i (bfs_children R))) = Some P ->
  exists log,
    go_up self (Some R) s
    = (Ok tt, mkState (moved (heap s) self P (length (self_text (heap s P)))) log).
Proof.
  intros Hi HP. unfold go_up.
  rewrite bind_unfold. unfold eprint at 1. cbn [root_bfs_children].
  rewrite bind_unfold. cbn [ret]. rewrite lift_bind, Hi, bind_unfold.
  destruct (forM_eprint_candidate_run (rev (firstn i (bfs_children R)))
              (mkState (heap s) (stderr s ++ [D_GOING_UP]))) as [log ->].
  rewrite lift_bind. cbv beta iota. rewrite HP.
  rewrite bind_unfold. unfold get_text at 1.
  rewrite bind_unfold. unfold eprint at 1.
  rewrite bind_unfold. unfold set_cursor at 1.
  rewrite bind_unfold, width_Text. unfold set_cursor.
  cbn [heap stderr]. rewrite !text_after_cursor_change.
  eexists. reflexivity.
Qed.

Lemma go_up_not_found self R s i :
  obj_index (bfs_children R) self = Ok i ->
  first_Text (rev (firstn i (bfs_children R))) = None ->
  exists log, go_up self (Some R) s = (Ok tt, mkState (heap s) log).
Proof.
  intros Hi HP. unfold go_up.
  rewrite bind_unfold. unfold eprint at 1. cbn [root_bfs_children].
  rewrite bind_unfold. cbn [ret]. rewrite lift_bind, Hi, bind_unfold.
  destruct (forM_eprint_candidate_run (rev (firstn i (bfs_children R)))
              (mkState (heap s) (stderr s ++ [D_GOING_UP]))) as [log ->].
  rewrite lift_bind. cbv beta iota. rewrite HP. unfold eprint. cbn [heap stderr].
  eexists. reflexivity.
Qed.

Lemma go_down_found self R s i P :
  obj_index (bfs_children R) self = Ok i ->
  first_Text (skipn (i + 1) (bfs_children R)) = Some P ->
  exists log,
    go_down self (Some R) s = (Ok tt, mkState (moved (heap s) self P 0) log).
Proof.
  intros Hi HP. unfold go_down.
  rewrite bind_unfold. unfold eprint at 1. cbn [root_bfs_children].
  rewrite bind_unfold. cbn [ret]. rewrite lift_bind, Hi, bind_unfold.
  destruct (forM_eprint_candidate_run (skipn (i + 1) (bfs_children R))
              (mkState (heap s) (stderr s ++ [D_GOING_DOWN]))) as [log ->].
  rewrite lift_bind. cbv beta iota. rewrite HP.
  rewrite bind_unfold. unfold get_text at 1.
  rewrite bind_unfold. unfold eprint at 1.
  rewrite bind_unfold. unfold set_cursor.
  cbn [heap stderr]. rewrite !text_after_cursor_change.
  eexists. reflexivity.
Qed.

Lemma go_down_not_found self R s i :
  obj_index (bfs_children R) self = Ok i ->
  first_Text (skipn (i + 1) (bfs_children R)) = None ->
  exists log, go_down self (Some R) s = (Ok tt, mkState (heap s) log).
Proof.
  intros Hi HP. unfold go_down.
  rewrite bind_unfold. unfold eprint at 1. cbn [root_bfs_children].
  rewrite bind_unfold. cbn [ret]. rewrite lift_bind, Hi, bind_unfold.
  destruct (forM_eprint_candidate_run (skipn (i + 1) (bfs_children R))
              (mkState (heap s) (stderr s ++ [D_GOING_DOWN]))) as [log ->].
  rewrite lift_bind. cbv beta iota. rewrite HP. unfold eprint. cbn [heap stderr].
  eexists. reflexivity.
Qed.

(** Whatever happens in it, a vertical move leaves the heap as it was or
    hands the cursor of [self] to one leaf. *)
Lemma go_up_heap self root s :
  heap (snd (go_up self root s)) = heap s \/
  exists P c, heap (snd (go_up self root s)) = moved (heap s) self P c.
Proof.
  destruct root as [R|]; [|left; reflexivity].
  destruct (obj_index (bfs_children R) self) as [i|e] eqn:Hi.
  - destruct (first_Text (rev (firstn i (bfs_children R)))) as [P|] eqn:HP.
    + destruct (go_up_found self R s Hi HP) as [log ->]. right. do 2 eexists. reflexivity.
    + destruct (go_up_not_found self R s Hi HP) as [log ->]. now left.
  - left. unfold go_up. rewrite bind_unfold. unfold eprint at 1.
    cbn [root_bfs_children]. rewrite bind_unfold. cbn [ret].
    rewrite lift_bind, Hi. reflexivity.
Qed.

Lemma go_down_heap self root s :
  heap (snd (go_down self root s)) = heap s \/
  exists P c, heap (snd (go_down self root s)) = moved (heap s) self P c.
Proof.
  destruct root as [R|]; [|left; reflexivity].
  destruct (obj_index (bfs_children R) self) as [i|e] eqn:Hi.
  - destruct (first_Text (skipn (i + 1) (bfs_children R))) as [P|] eqn:HP.
    + destruct (go_down_found self R s Hi HP) as [log ->]. right. do 2 eexists. reflexivity.
    + destruct (go_down_not_found self R s Hi HP) as [log ->]. now left.
  - left. unfold go_down. rewrite bind_unfold. unfold eprint at 1.
    cbn [root_bfs_children]. rewrite bind_unfold. cbn [ret].
    rewrite lift_bind, Hi. reflexivity.
Qed.

End Jumps.

Lemma text_refs_split root pre L post :
  bfs_children root = pre ++ Text L :: post ->
  text_refs root = texts_of pre ++ L :: texts_of post.
Proof.
  intros H. unfold text_refs. rewrite H, texts_of_app. reflexivity.
Qed.

Lemma bfs_children_Text_inv self pre L post :
  bfs_children (Text self) = pre ++ Text L :: post ->
  pre = [] /\ L = self /\ post = [].
Proof.
  simpl. destruct pre as [|x [|y pre]]; simpl; intros H.
  - injection H as -> <-. auto.
  - injection H as _ H. discriminate.
  - injection H as _ H. discriminate.
Qed.

Section MoveUp.
Context {U : UnicodeData}.

(** The run of a move-up from the first owner [L] of a tree that is not
    a single leaf. *)
Lemma press_UP_inside root pre L post s cur :
  bfs_children root = pre ++ Text L :: post ->
  self_cursor (heap s L) = Some cur ->
  (forall r, In (Text r) pre -> self_cursor (heap s r) = None) ->
  root_seen_from_leaf root = Some root ->
  press_key root key_UP None s = (go_up L (Some root) ;; ret true) s /\
  obj_index (bfs_children root) L = Ok (length pre) /\
  firstn (length pre) (bfs_children root) = pre.
Proof.
  intros Hbfs Hcur Hpre Hroot.
  assert (Hown : owns_cursor (heap s) L) by (unfold owns_cursor; congruence).
  assert (Hnone : forall r, In r (texts_of pre) -> self_cursor (heap s r) = None).
  { intros r Hr. apply Hpre. now apply In_texts_of. }
  rewrite (@press_key_reaches_owner U root key_UP s (texts_of pre) L (texts_of post)
             (text_refs_split _ _ _ _ Hbfs) Hnone Hown).
  rewrite Hroot. unfold Text_press_key. cbn [Text_press_key_fuel].
  erewrite body_UP by exact Hcur. cbn [is_None].
  split; [reflexivity|]. rewrite Hbfs. split.
  - apply obj_index_at. intros Hin. apply Hpre in Hin. congruence.
  - rewrite firstn_app, Nat.sub_diag, firstn_all. cbn [firstn]. apply app_nil_r.
Qed.

Lemma move_up_inside root pre post L s cur :
  bfs_children root = pre ++ Text L :: post ->
  self_cursor (heap s L) = Some cur ->
  (forall r, In (Text r) pre -> self_cursor (heap s r) = None) ->
  root_seen_from_leaf root = Some root ->
  let s' := snd (press_key root key_UP None s) in
  fst (press_key root key_UP None s) = Ok true /\
  (forall pre' P mid,
      pre = pre' ++ Text P :: mid -> (forall r, ~ In (Text r) mid) ->
      heap s' P
      = mkText (self_text (heap s P))
               (Some (mkScreenOffset 0 (length (self_text (heap s P))))) /\
      heap s' L = mkText (self_text (heap s L)) None /\
      (forall r, r <> P -> r <> L -> heap s' r = heap s r)) /\
  ((forall r, ~ In (Text r) pre) -> heap s' = heap s).
Proof.
  intros Hbfs Hcur Hpre Hroot s'. subst s'.
  destruct (@press_UP_inside root pre L post s cur) as (-> & Hi & Hfirst);
    try assumption.
  rewrite bind_unfold.
  destruct (first_Text (rev pre)) as [P0|] eqn:HP.
  - destruct (@go_up_found U L root s (length pre) P0) as [log ->];
      [assumption | now rewrite Hfirst |].
    cbn [fst snd heap ret]. split; [reflexivity|]. split.
    + intros pre' P mid -> Hmid. rewrite first_Text_backward in HP by assumption.
      injection HP as <-.
      assert (P <> L).
      { intros ->. specialize (Hpre L). rewrite Hpre in Hcur; [discriminate|].
        apply in_or_app. right. now left. }
      rewrite moved_target, moved_self by assumption.
      repeat split. intros. now apply moved_other.
    + intros Hnone.
      assert (first_Text (rev pre) = None).
      { apply first_Text_none. intros r Hr. apply (Hnone r). now apply in_rev. }
      congruence.
  - destruct (@go_up_not_found U L root s (length pre)) as [log ->];
      [assumption | now rewrite Hfirst |].
    cbn [fst snd heap ret]. split; [reflexivity|]. split; [|reflexivity].
    intros pre' P mid -> Hmid. rewrite first_Text_backward in HP by assumption.
    discriminate.
Qed.

(** C6: move-up, delivered to a tree whose focused leaf is [L] (the
    pre-order flattening is [pre], then [L], then [post], and no leaf of
    [pre] owns a cursor).  The key is consumed.  When a [Text] precedes
    [L], the nearest one, [P] (the flattening before [L] ends with [P]
    followed by nodes [mid] that are not [Text]), gets the cursor at the
    column that is the length of its text, [L] loses its cursor, and
    nothing else changes.  When no [Text] precedes [L], the heap is left as
    it was. *)
Theorem move_up_focuses_previous_leaf (root : Expression)
    (pre post : list Expression) (L : ref) (s : State) (cur : ScreenOffset) :
  bfs_children root = pre ++ Text L :: post ->
  self_cursor (heap s L) = Some cur ->
  (forall r, In (Text r) pre -> self_cursor (heap s r) = None) ->
  let s' := snd (press_key root key_UP None s) in
  fst (press_key root key_UP None s) = Ok true /\
  (forall pre' P mid,
      pre = pre' ++ Text P :: mid -> (forall r, ~ In (Text r) mid) ->
      heap s' P
      = mkText (self_text (heap s P))
               (Some (mkScreenOffset 0 (length (self_text (heap s P))))) /\
      heap s' L = mkText (self_text (heap s L)) None /\
      (forall r, r <> P -> r <> L -> heap s' r = heap s r)) /\
  ((forall r, ~ In (Text r) pre) -> heap s' = heap s).
Proof.
  intros Hbfs Hcur Hpre.
  destruct root as [self|items|n d|x];
    [| eapply move_up_inside; solve [eassumption | reflexivity] ..].
  (* the tree is the leaf itself: vertical movement is cancelled *)
  intros s'. subst s'.
  apply bfs_children_Text_inv in Hbfs. destruct Hbfs as (-> & -> & ->).
  cbn [press_key]. unfold Text_press_key. cbn [Text_press_key_fuel].
  erewrite body_UP by exact Hcur. cbn [is_None].
  split; [reflexivity|]. split; [|reflexivity].
  intros pre' P mid Hsplit. now destruct pre'.
Qed.

End MoveUp.

(** ** Leaving a leaf at its end and coming back *)

Lemma texts_of_no_Text l : (forall r, ~ In (Text r) l) -> texts_of l = [].
Proof.
  intros H. destruct (texts_of l) as [|r rs] eqn:E; [reflexivity|].
  exfalso. apply (H r). apply In_texts_of. rewrite E. now left.
Qed.

Lemma bfs_children_not_single root pre L mid N post :
  bfs_children root = pre ++ Text L :: mid ++ Text N :: post ->
  root_seen_from_leaf root = Some root.
Proof.
  destruct root as [self| | |]; try reflexivity.
  simpl. intros H. apply (f_equal (@length _)) in H.
  rewrite !length_app in H. simpl in H. rewrite length_app in H. simpl in H. lia.
Qed.

Section RoundTrip.
Context {U : UnicodeData}.

(** Move-right at the end of the text of the focused leaf [L]: the
    cursor goes to the start of the next [Text] in pre-order. *)
Lemma press_RIGHT_at_end root pre L post N s cur :
  bfs_children root = pre ++ Text L :: post ->
  root_seen_from_leaf root = Some root ->
  self_cursor (heap s L) = Some cur ->
  col cur = length (self_text (heap s L)) ->
  (forall r, In (Text r) pre -> self_cursor (heap s r) = None) ->
  first_Text post = Some N ->
  exists log,
    press_key root key_RIGHT None s
    = (Ok true, mkState (moved (heap s) L N 0) log).
Proof.
  intros Hbfs Hroot Hcur Hcol Hpre HN.
  assert (Hown : owns_cursor (heap s) L) by (unfold owns_cursor; congruence).
  assert (Hnone : forall r, In r (texts_of pre) -> self_cursor (heap s r) = None).
  { intros r Hr. apply Hpre. now apply In_texts_of. }
  rewrite (@press_key_reaches_owner U root key_RIGHT s (texts_of pre) L (texts_of post)
             (text_refs_split _ _ _ _ Hbfs) Hnone Hown).
  rewrite Hroot. unfold Text_press_key. cbn [Text_press_key_fuel].
  erewrite body_RIGHT by exact Hcur.
  rewrite bind_unfold. unfold move_right.
  rewrite bind_unfold. erewrite get_col_run by exact Hcur.
  rewrite bind_unfold, width_Text, Hcol, Nat.ltb_irrefl.
  rewrite bind_unfold. cbn [Text_press_key_fuel].
  erewrite body_DOWN by exact Hcur. cbn [is_None]. rewrite bind_unfold.
  destruct (@go_down_found L root s (length pre) N) as [log ->].
  - rewrite Hbfs. apply obj_index_at. intros Hin. apply Hpre in Hin. congruence.
  - rewrite Hbfs, skipn_app, skipn_all2 by lia.
    replace (length pre + 1 - length pre) with 1 by lia. exact HN.
  - exists log. reflexivity.
Qed.

(** Move-left at the start of the text of the focused leaf [L]: the
    cursor goes to the end of the previous [Text] in pre-order. *)
Lemma press_LEFT_at_start root pre L post P s cur :
  bfs_children root = pre ++ Text L :: post ->
  root_seen_from_leaf root = Some root ->
  self_cursor (heap s L) = Some cur ->
  col cur = 0 ->
  (forall r, In (Text r) pre -> self_cursor (heap s r) = None) ->
  first_Text (rev pre) = Some P ->
  exists log,
    press_key root key_LEFT None s
    = (Ok true,
       mkState (moved (heap s) L P (length (self_text (heap s P)))) log).
Proof.
  intros Hbfs Hroot Hcur Hcol Hpre HP.
  assert (Hown : owns_cursor (heap s) L) by (unfold owns_cursor; congruence).
  assert (Hnone : forall r, In r (texts_of pre) -> self_cursor (heap s r) = None).
  { intros r Hr. apply Hpre. now apply In_texts_of. }
  rewrite (@press_key_reaches_owner U root key_LEFT s (texts_of pre) L (texts_of post)
             (text_refs_split _ _ _ _ Hbfs) Hnone Hown).
  rewrite Hroot. unfold Text_press_key. cbn [Text_press_key_fuel].
  erewrite body_LEFT by exact Hcur.
  rewrite bind_unfold. unfold move_left.
  rewrite bind_unfold. erewrite get_col_run by exact Hcur.
  rewrite Hcol. cbn [Nat.ltb Nat.leb].
  rewrite bind_unfold. cbn [Text_press_key_fuel].
  erewrite body_UP by exact Hcur. cbn [is_None]. rewrite bind_unfold.
  destruct (@go_up_found U L root s (length pre) P) as [log ->].
  - rewrite Hbfs. apply obj_index_at. intros Hin. apply Hpre in Hin. congruence.
  - rewrite Hbfs, firstn_app, Nat.sub_diag, firstn_all. cbn [firstn].
    now rewrite app_nil_r.
  - exists log. reflexivity.
Qed.

(** C5: in a tree (no [Text] object occurs twice) whose only cursor is at
    the end of the text of a leaf [L], with the [Text] leaf [N] the next
    one after [L] in pre-order: move-right is consumed and puts the cursor
    at column 0 of [N]; a move-left after it is consumed and puts the
    cursor back on [L] at the original column; every other leaf is then as
    it was before the two keys. *)
Theorem right_then_left_returns_to_leaf (root : Expression)
    (pre mid post : list Expression) (L N : ref) (s : State)
    (cur : ScreenOffset) :
  bfs_children root = pre ++ Text L :: mid ++ Text N :: post ->
  (forall r, ~ In (Text r) mid) ->
  NoDup (text_refs root) ->
  self_cursor (heap s L) = Some cur ->
  col cur = length (self_text (heap s L)) ->
  (forall r, In r (text_refs root) -> r <> L -> self_cursor (heap s r) = None) ->
  let s1 := snd (press_key root key_RIGHT None s) in
  let s2 := snd (press_key root key_LEFT None s1) in
  fst (press_key root key_RIGHT None s) = Ok true /\
  heap s1 N = mkText (self_text (heap s N)) (Some (mkScreenOffset 0 0)) /\
  self_cursor (heap s1 L) = None /\
  fst (press_key root key_LEFT None s1) = Ok true /\
  heap s2 L = mkText (self_text (heap s L)) (Some (mkScreenOffset 0 (col cur))) /\
  (forall r, r <> L -> heap s2 r = heap s r).
Proof.
  intros Hbfs Hmid Hnodup Hcur Hcol Huniq s1 s2.
  pose proof (bfs_children_not_single _ _ _ _ _ _ Hbfs) as Hroot.
  assert (Hrefs : text_refs root = texts_of pre ++ L :: N :: texts_of post).
  { unfold text_refs. rewrite Hbfs, texts_of_app. cbn [texts_of].
    rewrite texts_of_app, (texts_of_no_Text _ Hmid). reflexivity. }
  rewrite Hrefs in Hnodup.
  pose proof (NoDup_remove_2 _ _ _ Hnodup) as HL.
  pose proof (NoDup_remove_1 _ _ _ Hnodup) as Hnodup'.
  pose proof (NoDup_remove_2 _ _ _ Hnodup') as HN.
  assert (HLN : N <> L).
  { intros ->. apply HL. apply in_or_app. right. now left. }
  assert (HLpre : ~ In (Text L) pre).
  { intros Hin. apply HL. apply in_or_app. left. now apply In_texts_of. }
  assert (HNpre : ~ In (Text N) pre).
  { intros Hin. apply HN. apply in_or_app. left. now apply In_texts_of. }
  assert (Hpre : forall r, In (Text r) pre -> self_cursor (heap s r) = None).
  { intros r Hr. apply Huniq.
    - rewrite Hrefs. apply in_or_app. left. now apply In_texts_of.
    - intros ->. contradiction. }
  assert (HNcur : self_cursor (heap s N) = None).
  { apply Huniq; [|assumption]. rewrite Hrefs. apply in_or_app. right.
    right. now left. }
  (* move right *)
  destruct (@press_RIGHT_at_end root pre L (mid ++ Text N :: post) N s cur)
    as [log1 H1]; try assumption.
  { now rewrite first_Text_app_none. }
  subst s2 s1. rewrite H1. cbn [fst snd heap].
  (* move left *)
  destruct (@press_LEFT_at_start root (pre ++ Text L :: mid) N post L
              (mkState (moved (heap s) L N 0) log1) (mkScreenOffset 0 0))
    as [log2 H2]; try assumption; try reflexivity.
  { rewrite Hbfs, <- app_assoc. reflexivity. }
  { cbn [heap]. now rewrite moved_target. }
  { cbn [heap]. intros r Hr. apply in_app_or in Hr.
    destruct Hr as [Hr|[Hr|Hr]].
    - rewrite moved_other.
      + now apply Hpre.
      + intros ->. contradiction.
      + intros ->. contradiction.
    - injection Hr as <-. now rewrite moved_self.
    - now apply Hmid in Hr. }
  { now apply first_Text_backward. }
  rewrite H2. cbn [fst snd heap].
  rewrite moved_target, moved_self by assumption.
  repeat split.
  - rewrite moved_target, moved_self by assumption. cbn [self_text].
    now rewrite Hcol.
  - intros r Hr. destruct (Nat.eq_dec r N) as [->|HrN].
    + rewrite moved_self by congruence. rewrite moved_target. cbn [self_text].
      destruct (heap s N) as [t c]. cbn in *. now subst c.
    + rewrite !moved_other by assumption. reflexivity.
Qed.

End RoundTrip.

(** ** At most one cursor *)

Lemma keeps_of_heap_pure {A} (m : M A) : heap_pure m -> keeps_owners m.
Proof. intros H s r. now rewrite H. Qed.

Lemma heap_pure_of_pure {A} (m : M A) : pure_comp m -> heap_pure m.
Proof. intros H s. now rewrite H. Qed.

Lemma keeps_of_pure {A} (m : M A) : pure_comp m -> keeps_owners m.
Proof. intros H. now apply keeps_of_heap_pure, heap_pure_of_pure. Qed.

Lemma keeps_bind {A B} (m : M A) (f : A -> M B) :
  keeps_owners m -> (forall a, keeps_owners (f a)) -> keeps_owners (bind m f).
Proof.
  intros Hm Hf s r. rewrite bind_unfold. specialize (Hm s r).
  destruct (m s) as [[a|e] s1]; cbn [snd] in *.
  - destruct (Hf a s1 r) as [F1 F2]. destruct Hm as [M1 M2]. split; auto.
  - exact Hm.
Qed.

Lemma keeps_eprint d : keeps_owners (eprint d).
Proof. apply keeps_of_heap_pure. intros s. reflexivity. Qed.

Lemma keeps_set_text self t : keeps_owners (set_text self t).
Proof.
  intros s r. unfold set_text. cbn [snd heap]. unfold upd.
  destruct (Nat.eqb_spec r self) as [->|]; reflexivity.
Qed.

Lemma pure_get_col self : pure_comp (get_col self).
Proof. unfold get_col. repeat pure_step. Qed.

Lemma keeps_set_col self v : keeps_owners (set_col self v).
Proof.
  intros s r. unfold set_col. rewrite bind_unfold. unfold get_cursor.
  destruct (self_cursor (heap s self)) as [off|] eqn:E; [|reflexivity].
  unfold set_cursor. cbn [snd heap]. unfold upd.
  destruct (Nat.eqb_spec r self) as [->|]; [|reflexivity].
  cbn [self_cursor]. rewrite E. split; discriminate.
Qed.

Lemma keeps_when b (m : M unit) : keeps_owners m -> keeps_owners (when b m).
Proof. destruct b; [auto | intros _; apply keeps_of_pure, pure_ret]. Qed.

Ltac keeps_step :=
  match goal with
  | |- keeps_owners (bind _ _) => apply keeps_bind; [| intros ]
  | |- keeps_owners (eprint _) => apply keeps_eprint
  | |- keeps_owners (set_text _ _) => apply keeps_set_text
  | |- keeps_owners (set_col _ _) => apply keeps_set_col
  | |- keeps_owners (get_col _) => apply keeps_of_pure, pure_get_col
  | |- keeps_owners (get_text _) => apply keeps_of_pure, pure_get_text
  | |- keeps_owners (assert _) => apply keeps_of_pure, pure_assert
  | |- keeps_owners (ret _) => apply keeps_of_pure, pure_ret
  | |- keeps_owners (raise _) => apply keeps_of_pure, pure_raise
  | |- keeps_owners (when _ _) => apply keeps_when
  | |- keeps_owners (match ?x with _ => _ end) => destruct x
  end.

Lemma keeps_insert_key self key : keeps_owners (insert_key self key).
Proof. unfold insert_key. repeat keeps_step. Qed.

Lemma keeps_erase_backward self : keeps_owners (erase_backward self).
Proof. unfold erase_backward. repeat keeps_step. Qed.

Lemma at_most_one_kept root (h h' : Heap) :
  (forall r, self_cursor (h' r) = None <-> self_cursor (h r) = None) ->
  at_most_one_cursor h root -> at_most_one_cursor h' root.
Proof.
  intros Hsame H r1 r2 H1 H2 O1 O2. apply H; try assumption.
  - unfold owns_cursor in *. intros E. apply O1. now apply Hsame.
  - unfold owns_cursor in *. intros E. apply O2. now apply Hsame.
Qed.

Lemma safe_of_keeps {A} root self (m : M A) :
  keeps_owners m -> cursor_safe root self m.
Proof.
  intros Hm s Hamo _. eapply at_most_one_kept; [|eassumption].
  intros r. apply Hm.
Qed.

Lemma safe_bind_keeps {A B} root self (m : M A) (f : A -> M B) :
  keeps_owners m -> (forall a, cursor_safe root self (f a)) ->
  cursor_safe root self (bind m f).
Proof.
  intros Hm Hf s Hamo Hown. rewrite bind_unfold.
  pose proof (Hm s) as Hs. destruct (m s) as [[a|e] s1]; cbn [snd] in *.
  - apply Hf.
    + eapply at_most_one_kept; eassumption.
    + unfold owns_cursor in *. intros E. apply Hown. now apply Hs.
  - eapply at_most_one_kept; eassumption.
Qed.

Lemma safe_bind_pure {A B} root self (m : M A) (f : A -> M B) :
  cursor_safe root self m -> (forall a, pure_comp (f a)) ->
  cursor_safe root self (bind m f).
Proof.
  intros Hm Hf s Hamo Hown. rewrite bind_unfold.
  specialize (Hm s Hamo Hown). destruct (m s) as [[a|e] s1]; cbn [snd] in *.
  - now rewrite Hf.
  - exact Hm.
Qed.

(** Handing the one cursor of the tree from [self] to a leaf leaves one
    cursor. *)
Lemma at_most_one_moved root h self target c :
  In self (text_refs root) -> owns_cursor h self ->
  at_most_one_cursor h root ->
  at_most_one_cursor (moved h self target c) root.
Proof.
  intros Hin Hown Hamo.
  assert (Honly : forall r, In r (text_refs root) ->
                            owns_cursor (moved h self target c) r -> r = target).
  { intros r Hr Or. destruct (Nat.eq_dec r target) as [|Hne]; [assumption|].
    exfalso. unfold owns_cursor, moved in Or. rewrite upd_other in Or by assumption.
    destruct (Nat.eq_dec r self) as [->|Hns].
    - rewrite upd_same in Or. now apply Or.
    - rewrite upd_other in Or by assumption. apply Hns. now apply Hamo. }
  intros r1 r2 H1 H2 O1 O2.
  rewrite (Honly r1 H1 O1), (Honly r2 H2 O2). reflexivity.
Qed.

Section Unique.
Context {U : UnicodeData}.

Lemma safe_go_up root self r :
  In self (text_refs root) -> cursor_safe root self (go_up self r).
Proof.
  intros Hin s Hamo Hown.
  destruct (go_up_heap self r s) as [-> | (P & c & ->)];
    [assumption | now apply at_most_one_moved].
Qed.

Lemma safe_go_down root self r :
  In self (text_refs root) -> cursor_safe root self (go_down self r).
Proof.
  intros Hin s Hamo Hown.
  destruct (go_down_heap self r s) as [-> | (P & c & ->)];
    [assumption | now apply at_most_one_moved].
Qed.

Lemma safe_vertical root self n key r :
  In self (text_refs root) -> key = key_UP \/ key = key_DOWN ->
  cursor_safe root self (Text_press_key_fuel n self key r).
Proof.
  intros Hin Hkey. destruct n as [|n].
  { apply safe_of_keeps, keeps_of_pure, pure_raise. }
  intros s Hamo Hown. cbn [Text_press_key_fuel].
  destruct (owns_cursor_Some Hown) as [cur Hcur].
  destruct Hkey as [-> | ->].
  - erewrite body_UP by exact Hcur. destruct r as [R|]; cbn [is_None].
    + refine (@safe_bind_pure _ _ root self _ _ _ _ s Hamo Hown);
        [now apply safe_go_up | intros; apply pure_ret].
    + refine (@safe_of_keeps _ root self _ _ s Hamo Hown). repeat keeps_step.
  - erewrite body_DOWN by exact Hcur. destruct r as [R|]; cbn [is_None].
    + refine (@safe_bind_pure _ _ root self _ _ _ _ s Hamo Hown);
        [now apply safe_go_down | intros; apply pure_ret].
    + refine (@safe_of_keeps _ root self _ _ s Hamo Hown). repeat keeps_step.
Qed.

Lemma safe_move_left root self n r :
  In self (text_refs root) ->
  cursor_safe root self (move_left (Text_press_key_fuel n self) self r).
Proof.
  intros Hin. unfold move_left.
  apply safe_bind_keeps; [apply keeps_of_pure, pure_get_col|]. intros c.
  destruct (0 <? c).
  - apply safe_of_keeps, keeps_set_col.
  - apply safe_bind_pure; [|intros; apply pure_ret].
    apply safe_vertical; auto.
Qed.

Lemma safe_move_right root self n r :
  In self (text_refs root) ->
  cursor_safe root self (move_right (Text_press_key_fuel n self) self r).
Proof.
  intros Hin. unfold move_right.
  apply safe_bind_keeps; [apply keeps_of_pure, pure_get_col|]. intros c.
  apply safe_bind_keeps; [apply keeps_of_pure, width_pure|]. intros w.
  destruct (c <? w).
  - apply safe_of_keeps, keeps_set_col.
  - apply safe_bind_pure; [|intros; apply pure_ret].
    apply safe_vertical; auto.
Qed.

(** [Text.press_key] on the owner of the only cursor leaves at most one
    cursor, whatever the key. *)
Lemma safe_Text_press_key root self key r :
  In self (text_refs root) ->
  cursor_safe root self (Text_press_key self key r).
Proof.
  intros Hin s Hamo Hown. unfold Text_press_key.
  destruct (str_eqb key key_UP) eqn:EU.
  { apply str_eqb_eq in EU. subst key. apply safe_vertical; auto. }
  destruct (str_eqb key key_DOWN) eqn:ED.
  { apply str_eqb_eq in ED. subst key. apply safe_vertical; auto. }
  cbn [Text_press_key_fuel].
  destruct (owns_cursor_Some Hown) as [cur Hcur].
  destruct (str_eqb key key_BACKSPACE) eqn:EB.
  { apply str_eqb_eq in EB. subst key. erewrite body_BACKSPACE by exact Hcur.
    refine (@safe_of_keeps _ root self _ _ s Hamo Hown). repeat keeps_step.
    apply keeps_erase_backward. }
  destruct (str_eqb key key_LEFT) eqn:EL.
  { apply str_eqb_eq in EL. subst key. erewrite body_LEFT by exact Hcur.
    refine (@safe_bind_pure _ _ root self _ _ _ _ s Hamo Hown);
      [exact (@safe_move_left root self 1 r Hin) | intros; apply pure_ret]. }
  destruct (str_eqb key key_RIGHT) eqn:ER.
  { apply str_eqb_eq in ER. subst key. erewrite body_RIGHT by exact Hcur.
    refine (@safe_bind_pure _ _ root self _ _ _ _ s Hamo Hown);
      [exact (@safe_move_right root self 1 r Hin) | intros; apply pure_ret]. }
  erewrite body_other by eassumption.
  refine (@safe_of_keeps _ root self _ _ s Hamo Hown). repeat keeps_step.
  apply keeps_insert_key.
Qed.

(** C4: a key event preserves the uniqueness of the cursor.  If at most
    one [Text] node of the tree owns a cursor when a key, any key, is
    delivered to the root, then at most one [Text] node of the tree owns a
    cursor in the state [press_key] leaves, whether it returned or raised. *)
Theorem press_key_keeps_the_cursor_unique (root : Expression) (key : str)
    (s : State) :
  at_most_one_cursor (heap s) root ->
  at_most_one_cursor (heap (snd (press_key root key None s))) root.
Proof.
  intros Hamo.
  destruct (owner_or_none (heap s) (text_refs root)) as [Hnone|Hsome].
  - now rewrite press_key_without_owner.
  - destruct (@first_owner_split (heap s) (text_refs root) Hsome)
      as (l1 & L & l2 & Hrefs & Hl1 & HL).
    erewrite press_key_reaches_owner by eassumption.
    apply safe_Text_press_key; try assumption.
    rewrite Hrefs. apply in_or_app. right. now left.
Qed.

End Unique.

(** * The theorems at concrete inputs *)

Section Witnesses.
#[local] Existing Instance glyphs_only.

Lemma render_lines_have_the_width_witness :
  exists r,
    fst (render root_frac s_frac) = Ok r /\
    exists w, fst (width root_frac s_frac) = Ok w /\ all_length w (lines r).
Proof.
  eexists. split.
  - vm_compute. reflexivity.
  - apply (@render_lines_have_the_width glyphs_only root_frac s_frac).
    vm_compute. reflexivity.
Defined.

(** C3 as the specification states it fails on the row of a and b with the
    cursor on a: the tab key is outside the taxonomy, the leaf 0 owns the
    cursor, and [press_key] returns [True], not [False]. *)
Lemma unrecognized_key_is_not_passed_on :
  In 0 (text_refs root_ab) /\ owns_cursor (heap s_ab) 0 /\
  unrecognized key_TAB = true /\
  fst (press_key root_ab key_TAB None s_ab) = Ok true /\
  fst (press_key root_ab key_TAB None s_ab) <> Ok false.
Proof.
  repeat split; try (vm_compute; auto; fail); discriminate.
Qed.

Lemma unrecognized_key_is_consumed_witness :
  press_key root_ab key_TAB None s_ab = (Ok true, s_ab).
Proof.
  apply (@unrecognized_key_is_consumed glyphs_only root_ab key_TAB s_ab 0).
  - vm_compute. auto.
  - discriminate.
  - reflexivity.
Defined.

Lemma at_most_one_cursor_ab : at_most_one_cursor (heap s_ab) root_ab.
Proof.
  intros r1 r2 H1 H2 O1 O2.
  destruct H1 as [<-|[<-|[]]]; destruct H2 as [<-|[<-|[]]];
    try reflexivity; exfalso;
    first [apply O1; reflexivity | apply O2; reflexivity].
Defined.

Lemma press_key_keeps_the_cursor_unique_witness :
  at_most_one_cursor (heap (snd (press_key root_ab key_RIGHT None s_ab))) root_ab.
Proof.
  apply (@press_key_keeps_the_cursor_unique glyphs_only root_ab key_RIGHT s_ab).
  exact at_most_one_cursor_ab.
Defined.

(** The scenario of C5: the row of a and b, the cursor at column 1 of a. *)
Lemma right_then_left_returns_to_leaf_witness :
  let s1 := snd (press_key root_ab key_RIGHT None s_ab) in
  let s2 := snd (press_key root_ab key_LEFT None s1) in
  fst (press_key root_ab key_RIGHT None s_ab) = Ok true /\
  heap s1 1 = mkText (py "b") (Some (mkScreenOffset 0 0)) /\
  self_cursor (heap s1 0) = None /\
  fst (press_key root_ab key_LEFT None s1) = Ok true /\
  heap s2 0 = mkText (py "a") (Some (mkScreenOffset 0 1)) /\
  (forall r, r <> 0 -> heap s2 r = heap s_ab r).
Proof.
  apply (@right_then_left_returns_to_leaf glyphs_only root_ab [root_ab] [] []
           0 1 s_ab (mkScreenOffset 0 1)).
  - reflexivity.
  - intros r [].
  - repeat constructor; simpl; intuition discriminate.
  - reflexivity.
  - reflexivity.
  - intros r [<-|[<-|[]]] Hr; [contradiction | reflexivity].
Defined.

Lemma move_up_focuses_previous_leaf_witness :
  let s' := snd (press_key root_frac key_UP None s_frac) in
  fst (press_key root_frac key_UP None s_frac) = Ok true /\
  (forall pre' P mid,
      [root_frac; Text 0; Fraction (Text 1) (Text 2); Text 1]
      = pre' ++ Text P :: mid ->
      (forall r, ~ In (Text r) mid) ->
      heap s' P
      = mkText (self_text (heap s_frac P))
               (Some (mkScreenOffset 0 (length (self_text (heap s_frac P))))) /\
      heap s' 2 = mkText (self_text (heap s_frac 2)) None /\
      (forall r, r <> P -> r <> 2 -> heap s' r = heap s_frac r)) /\
  ((forall r, ~ In (Text r) [root_frac; Text 0; Fraction (Text 1) (Text 2); Text 1]) ->
   heap s' = heap s_frac).
Proof.
  apply (@move_up_focuses_previous_leaf glyphs_only root_frac
           [root_frac; Text 0; Fraction (Text 1) (Text 2); Text 1] [] 2 s_frac
           (mkScreenOffset 0 0)).
  - reflexivity.
  - reflexivity.
  - intros r [H|[H|[H|[H|[]]]]]; try discriminate; injection H as <-; reflexivity.
Defined.

Lemma erase_backward_on_focused_leaf_witness :
  let s' := snd (Text_press_key 0 key_BACKSPACE (Some root_ab) s_ab) in
  fst (Text_press_key 0 key_BACKSPACE (Some root_ab) s_ab) = Ok true /\
  (exists d, stderr s' = stderr s_ab ++ [d]) /\
  (forall r, r <> 0 -> heap s' r = heap s_ab r) /\
  (1 = 0 ->
   heap s' 0 = heap s_ab 0 /\ stderr s' = stderr s_ab ++ [D_SPECIAL_ACTION]) /\
  (0 < 1 ->
   exists a ch b,
     py "a" = a ++ ch :: b /\ length a = 1 - 1 /\
     heap s' 0 = mkText (a ++ b) (Some (mkScreenOffset 0 (1 - 1)))).
Proof.
  apply (@erase_backward_on_focused_leaf glyphs_only 0 (Some root_ab) s_ab
           (mkScreenOffset 0 1)).
  - reflexivity.
  - simpl. lia.
Defined.

End Witnesses.

(** * Further properties of the code *)

(** ** The alignment helpers *)

Lemma half_step k : (S k) / 2 = k - k / 2.
Proof.
  pose proof (Nat.div_mod_eq k 2). pose proof (Nat.mod_upper_bound k 2).
  pose proof (Nat.div_mod_eq (S k) 2). pose proof (Nat.mod_upper_bound (S k) 2).
  lia.
Qed.

Lemma half_le k : k / 2 <= k - k / 2 <= k / 2 + 1.
Proof.
  pose proof (Nat.div_mod_eq k 2). pose proof (Nat.mod_upper_bound k 2). lia.
Qed.

Lemma repeat_snoc {A} (x : A) n : repeat x (S n) = repeat x n ++ [x].
Proof. induction n as [|n IH]; simpl; [reflexivity|]. simpl in IH. now rewrite <- IH. Qed.

(** The loop of [list_align] adds one cell at a time, right first and then
    left in turn, so the smaller half of the padding ends up on the left. *)
Lemma list_align_loop_pads fuel width left out :
  width - length out <= fuel ->
  list_align_loop fuel width left out
  = let k := width - length out in
    if left then repeat no_color (k - k / 2) ++ out ++ repeat no_color (k / 2)
    else repeat no_color (k / 2) ++ out ++ repeat no_color (k - k / 2).
Proof.
  revert left out.
  induction fuel as [|fuel IH]; intros left out Hk; cbn zeta.
  - replace (width - length out) with 0 by lia.
    destruct left; simpl; now rewrite app_nil_r.
  - cbn [list_align_loop].
    destruct (Nat.ltb_spec (length out) width) as [Hlt|Hge].
    + destruct (width - length out) as [|k] eqn:Ek; [lia|].
      pose proof (half_step k) as Hs. pose proof (half_le k) as Hl.
      destruct left; cbn [negb].
      * rewrite IH by (simpl; lia). cbn zeta.
        cbn [length]. replace (width - S (length out)) with k by lia.
        replace (S k - S k / 2) with (S (k / 2)) by lia.
        rewrite Hs, repeat_snoc, <- app_assoc. reflexivity.
      * rewrite IH by (rewrite length_app; simpl; lia). cbn zeta.
        rewrite length_app. cbn [length].
        replace (width - (length out + 1)) with k by lia.
        replace (S k - S k / 2) with (S (k / 2)) by lia.
        rewrite Hs, <- app_assoc. reflexivity.
    + replace (width - length out) with 0 by lia.
      destruct left; simpl; now rewrite app_nil_r.
Qed.

(** X1: a color row centered by [list_align] stays under the characters of
    the string centered by [str_align]: for a string and a color row of the
    same length that fit a width that is not zero, both get the same left
    and the same right padding, the right one being the left one or one
    more. *)
Theorem list_align_pads_like_str_align (s : str) (c : list color) (width : nat) :
  length c = length s -> length s <= width -> width <> 0 ->
  exists left right,
    left + length s + right = width /\ left <= right <= left + 1 /\
    str_align s width = repeat SPACE left ++ s ++ repeat SPACE right /\
    list_align c width = Ok (repeat no_color left ++ c ++ repeat no_color right).
Proof.
  intros Hc Hs Hw.
  exists ((width - length s) / 2), (width - length s - (width - length s) / 2).
  pose proof (half_le (width - length s)) as Hh.
  split; [lia|]. split; [lia|]. split.
  - unfold str_align. destruct (Nat.leb_spec width (length s)) as [Hle|Hlt].
    + replace (width - length s) with 0 by lia. simpl. now rewrite app_nil_r.
    + reflexivity.
  - unfold list_align. destruct (Nat.eqb_spec width 0) as [|_]; [contradiction|].
    rewrite list_align_loop_length by lia.
    rewrite list_align_loop_pads by lia. cbn zeta. rewrite Hc.
    replace (Nat.max (length s) width =? width) with true
      by (symmetry; apply Nat.eqb_eq; lia).
    reflexivity.
Qed.

(** X2: [list_align] fails exactly when the list is longer than a width that
    is not zero, and then with an [AssertionError]; with width zero it
    returns the empty list whatever it was given. *)
Theorem list_align_fails_exactly_when_too_long (ls : list color) (width : nat) :
  (forall e, list_align ls width = Raise e <->
             e = AssertionError /\ width <> 0 /\ width < length ls) /\
  list_align ls 0 = Ok [].
Proof.
  split; [|reflexivity].
  intros e. split.
  - intros H. destruct (Nat.eq_dec width 0) as [->|Hw]; [discriminate H|].
    destruct (Nat.le_gt_cases (length ls) width) as [Hle|Hgt].
    + destruct (list_align_ok ls Hle) as (out & Hout & _). congruence.
    + rewrite (list_align_too_long ls Hw Hgt) in H. injection H as <-. auto.
  - intros (-> & Hw & Hgt). now apply list_align_too_long.
Qed.

Lemma str_index_after_spaces n rest :
  str_index (repeat SPACE n ++ LETTER_x :: rest) LETTER_x = Ok n.
Proof.
  induction n as [|n IH]; simpl; [reflexivity|].
  simpl in IH. now rewrite IH.
Qed.

Lemma align_space_value (m : M nat) w s ew :
  pure_comp m -> fst (m s) = Ok ew ->
  fst (align_space m w s) = Ok ((w - ew) / 2).
Proof.
  intros Pm Hw. unfold align_space. rewrite bind_pure_unfold by exact Pm.
  rewrite Hw. destruct ew as [|ew].
  - simpl. now rewrite Nat.sub_0_r.
  - cbn [Nat.eqb]. unfold lift, str_align. cbn [fst]. rewrite repeat_length.
    destruct (Nat.leb_spec w (S ew)) as [Hle|Hlt].
    + replace (w - S ew) with 0 by lia. reflexivity.
    + cbn zeta. cbn [repeat]. cbn [app]. apply str_index_after_spaces.
Qed.

(** X3: [align_space(expr, width)] is the number of spaces [str_align] puts
    in front of a string as wide as the expression: half the room that is
    left, rounded down, and zero when the expression is wider. *)
Theorem align_space_is_the_left_padding `{UnicodeData} (e : Expression)
    (width0 : nat) (s : State) (ew : nat) :
  fst (width e s) = Ok ew ->
  fst (align_space (width e) width0 s) = Ok ((width0 - ew) / 2) /\
  (forall t : str, length t = ew -> ew <= width0 ->
     exists right,
       str_align t width0 = repeat SPACE ((width0 - ew) / 2) ++ t ++ repeat SPACE right).
Proof.
  intros Hw. split.
  - apply align_space_value; [apply width_pure|exact Hw].
  - intros t Ht Hle. unfold str_align. rewrite Ht.
    destruct (Nat.leb_spec width0 ew) as [Hle'|Hlt].
    + exists 0. replace (width0 - ew) with 0 by lia. simpl. now rewrite app_nil_r.
    + eexists. reflexivity.
Qed.

(** ** Searching by identity *)

Lemma is_obj_true item obj : is_obj item obj = true <-> item = Text obj.
Proof.
  destruct item; simpl; try (split; [discriminate|discriminate]).
  rewrite Nat.eqb_eq. split; [now intros ->|now intros [= ->]].
Qed.

Lemma obj_index_raises l obj e : obj_index l obj = Raise e -> e = ValueError.
Proof.
  induction l as [|x l IH]; simpl.
  - now intros [= <-].
  - destruct (is_obj x obj); [discriminate|].
    destruct (obj_index l obj); [discriminate|]. intros [= <-]. now apply IH.
Qed.

(** X4: [obj_index] returns the position of the first item that is the
    object itself, and raises [ValueError], and nothing else, exactly when
    no item is. *)
Theorem obj_index_is_the_first_occurrence (l : list Expression) (obj : ref) :
  (forall i, obj_index l obj = Ok i <->
             nth_error l i = Some (Text obj) /\
             forall j, j < i -> nth_error l j <> Some (Text obj)) /\
  (obj_index l obj = Raise ValueError <-> ~ In (Text obj) l) /\
  (forall e, obj_index l obj = Raise e -> e = ValueError).
Proof.
  split; [|split; [|apply obj_index_raises]].
  - induction l as [|x l IH]; intros i.
    + simpl. split; [discriminate|]. intros [H _]. now destruct i.
    + cbn [obj_index]. destruct (is_obj x obj) eqn:Ex.
      * apply is_obj_true in Ex. subst x. split.
        -- intros [= <-]. split; [reflexivity|]. intros j Hj. lia.
        -- intros [Hi Hfirst]. destruct i as [|i]; [reflexivity|].
           exfalso. apply (Hfirst 0); [lia|reflexivity].
      * assert (Hx : x <> Text obj).
        { intros ->. assert (is_obj (Text obj) obj = true) by now apply is_obj_true.
          congruence. }
        split.
        -- destruct (obj_index l obj) as [k|] eqn:Ek; [|discriminate].
           intros [= <-]. destruct (proj1 (IH k) eq_refl) as [Hk Hfirst].
           split; [exact Hk|]. intros [|j] Hj; simpl.
           ++ congruence.
           ++ apply Hfirst. lia.
        -- intros [Hi Hfirst]. destruct i as [|i]; [simpl in Hi; congruence|].
           simpl in Hi.
           assert (Hl : obj_index l obj = Ok i).
           { apply IH. split; [exact Hi|]. intros j Hj.
             apply (Hfirst (S j)). lia. }
           now rewrite Hl.
  - induction l as [|x l IH]; simpl.
    + split; [intros _ []|reflexivity].
    + destruct (is_obj x obj) eqn:Ex.
      * apply is_obj_true in Ex. split; [discriminate|]. intros H. exfalso. apply H. auto.
      * assert (Hx : x <> Text obj).
        { intros ->. assert (is_obj (Text obj) obj = true) by now apply is_obj_true.
          congruence. }
        destruct (obj_index l obj) as [k|e] eqn:Ek.
        -- split; [discriminate|]. intros H. exfalso.
           destruct IH as [_ IH]. 
           assert (Hn : ~ In (Text obj) l) by (intros Hin; apply H; now right).
           specialize (IH Hn). discriminate.
        -- pose proof (obj_index_raises _ _ Ek) as ->.
           split.
           ++ intros _ [Hin|Hin]; [congruence|]. now apply (proj1 IH).
           ++ reflexivity.
Qed.

Lemma bfs_children_self e : In e (bfs_children e).
Proof. destruct e; simpl; auto. Qed.

(** Every node of the flattening but the tree itself is a child of a node
    of the flattening. *)
Lemma bfs_children_has_parent e x :
  In x (bfs_children e) ->
  x = e \/ exists p, In p (bfs_children e) /\ In x (children p).
Proof.
  revert x. induction e as [self|items IH|n d IHn IHd|y IHy] using Expression_induction;
    intros x Hin; rewrite bfs_children_children in Hin; cbn [children] in Hin;
    destruct Hin as [<-|Hin]; auto; right.
  - destruct Hin.
  - apply in_flat_map in Hin. destruct Hin as (i & Hi & Hx).
    rewrite Forall_forall in IH. destruct (IH i Hi x Hx) as [->|(p & Hp & Hc)].
    + exists (Row items). split; [apply bfs_children_self|exact Hi].
    + exists p. split; [|exact Hc].
      rewrite bfs_children_children. right. cbn [children].
      apply in_flat_map. eauto.
  - simpl in Hin. rewrite app_nil_r in Hin. apply in_app_or in Hin.
    destruct Hin as [Hin|Hin].
    + destruct (IHn x Hin) as [->|(p & Hp & Hc)].
      * exists (Fraction n d). split; [apply bfs_children_self|simpl; auto].
      * exists p. split; [|exact Hc]. simpl. right. apply in_or_app. auto.
    + destruct (IHd x Hin) as [->|(p & Hp & Hc)].
      * exists (Fraction n d). split; [apply bfs_children_self|simpl; auto].
      * exists p. split; [|exact Hc]. simpl. right. apply in_or_app. auto.
  - simpl in Hin. rewrite app_nil_r in Hin.
    destruct (IHy x Hin) as [->|(p & Hp & Hc)].
    + exists (Parenthesis y). split; [apply bfs_children_self|simpl; auto].
    + exists p. split; [|exact Hc]. simpl. right. exact Hp.
Qed.

Lemma has_child_true p child :
  existsb (fun c => is_obj c child) (children p) = true <-> In (Text child) (children p).
Proof.
  rewrite existsb_exists. split.
  - intros (c & Hc & Ho). apply is_obj_true in Ho. now subst.
  - intros H. exists (Text child). split; [exact H|]. now apply is_obj_true.
Qed.

(** X5: [parentof] of a [Text] object returns a node of the tree that has
    the object among its children; it raises [ValueError] exactly when no
    node of the tree has, which is so for the tree itself; and it finds a
    parent for every [Text] node of the tree that is not the tree itself. *)
Theorem parentof_finds_a_parent (root : Expression) (child : ref) :
  (forall p, parentof root child = Ok p ->
             In p (bfs_children root) /\ In (Text child) (children p)) /\
  (parentof root child = Raise ValueError <->
   forall p, In p (bfs_children root) -> ~ In (Text child) (children p)) /\
  (In (Text child) (bfs_children root) ->
   root = Text child \/ exists p, parentof root child = Ok p) /\
  parentof (Text child) child = Raise ValueError.
Proof.
  unfold parentof. split; [|split; [|split]].
  - intros p H.
    destruct (find _ (bfs_children root)) as [q|] eqn:Ef; [|discriminate].
    injection H as <-. apply find_some in Ef. destruct Ef as [Hin Hc].
    split; [exact Hin|]. now apply has_child_true.
  - destruct (find _ (bfs_children root)) as [q|] eqn:Ef.
    + split; [discriminate|]. intros H. exfalso.
      apply find_some in Ef. destruct Ef as [Hin Hc].
      apply (H q Hin). now apply has_child_true.
    + split; [|reflexivity]. intros _ p Hin Hc.
      pose proof (find_none _ _ Ef p Hin) as Hn. cbv beta in Hn.
      apply has_child_true in Hc. congruence.
  - intros Hin. destruct (bfs_children_has_parent _ _ Hin) as [<-|(p & Hp & Hc)];
      [now left|right].
    destruct (find _ (bfs_children root)) as [q|] eqn:Ef; [eauto|].
    pose proof (find_none _ _ Ef p Hp) as Hn. cbv beta in Hn.
    apply has_child_true in Hc. congruence.
  - reflexivity.
Qed.

(** ** The escape sequence of the cursor *)

Lemma uint_digits_inj d d' : uint_digits d = uint_digits d' -> d = d'.
Proof.
  revert d'. induction d; intros d' H; destruct d'; simpl in H;
    try discriminate H; try reflexivity; injection H as H; f_equal; now apply IHd.
Qed.

Lemma str_of_nat_inj n n' : str_of_nat n = str_of_nat n' -> n = n'.
Proof.
  intros H. now apply DecimalNat.Unsigned.to_uint_inj, uint_digits_inj.
Qed.

Lemma uint_digits_are_digits d :
  Forall (fun c => (48 <= c <= 57)%N) (uint_digits d).
Proof. induction d; simpl; constructor; auto; lia. Qed.

Lemma app_separator_inj (sep : N) (a a' x x' : str) :
  Forall (fun c => c <> sep) a -> Forall (fun c => c <> sep) a' ->
  a ++ sep :: x = a' ++ sep :: x' -> a = a' /\ x = x'.
Proof.
  revert a'. induction a as [|c a IH]; intros a' Ha Ha' H; destruct a' as [|c' a'].
  - simpl in H. injection H as <-. auto.
  - simpl in H. injection H as <- _. inversion Ha'; subst. congruence.
  - simpl in H. injection H as -> _. inversion Ha; subst. congruence.
  - simpl in H. injection H as <- H. inversion Ha; inversion Ha'; subst.
    destruct (IH a' H3 H7 H) as [-> ->]. auto.
Qed.

(** X6: [cursor_string] addresses the screen from one: it writes row and
    column increased by one between ESC [ and H, [None] stands for the
    origin, and two offsets get the same sequence only when they are the
    same offset. *)
Theorem cursor_string_names_one_position (a b : ScreenOffset) :
  (cursor_string (Some a) = cursor_string (Some b) <-> a = b) /\
  cursor_string None = cursor_string (Some (mkScreenOffset 0 0)) /\
  cursor_string None = [ESC; 91; 49; 59; 49; 72]%N /\
  exists r c,
    cursor_string (Some a) = [ESC; 91%N] ++ r ++ [59%N] ++ c ++ [72%N] /\
    r = str_of_nat (row a + 1) /\ c = str_of_nat (col a + 1) /\
    Forall (fun ch => (48 <= ch <= 57)%N) (r ++ c).
Proof.
  split; [|split; [reflexivity|split; [reflexivity|]]].
  - split; [|now intros ->]. unfold cursor_string. intros H.
    cbn [app] in H. injection H as H.
    apply app_separator_inj in H.
    + destruct H as [Hr Hc]. apply app_inj_tail in Hc. destruct Hc as [Hc _].
      apply str_of_nat_inj in Hr, Hc.
      destruct a as [ra ca], b as [rb cb]. simpl in *. f_equal; lia.
    + eapply Forall_impl; [|apply uint_digits_are_digits]. cbv beta. intros; lia.
    + eapply Forall_impl; [|apply uint_digits_are_digits]. cbv beta. intros; lia.
  - exists (str_of_nat (row a + 1)), (str_of_nat (col a + 1)).
    split; [reflexivity|]. split; [reflexivity|]. split; [reflexivity|].
    apply Forall_app. split; apply uint_digits_are_digits.
Qed.

(** ** More keys *)

Section MoreKeys.
Context {U : UnicodeData}.

(** The keys [Text.press_key] compares with hold a control character, so a
    printable key is none of them. *)
Lemma printable_not_special key :
  isprintable key = true ->
  str_eqb key key_BACKSPACE = false /\ str_eqb key key_LEFT = false /\
  str_eqb key key_RIGHT = false /\ str_eqb key key_UP = false /\
  str_eqb key key_DOWN = false.
Proof.
  intros Hp.
  repeat split;
    match goal with
    | |- str_eqb key ?k = false =>
      destruct (str_eqb key k) eqn:E; [|reflexivity];
      apply str_eqb_eq in E; subst key; vm_compute in Hp; discriminate Hp
    end.
Qed.

Lemma insert_key_run self key s cur :
  self_cursor (heap s self) = Some cur ->
  exists h',
    insert_key self key s = (Ok tt, mkState h' (stderr s ++ [D_INSERT key])) /\
    h' self
    = mkText (firstn (col cur) (self_text (heap s self)) ++ key
              ++ skipn (col cur) (self_text (heap s self)))
             (Some (mkScreenOffset (row cur) (col cur + 1))) /\
    forall r, r <> self -> h' r = heap s r.
Proof.
  intros Hc. unfold insert_key.
  rewrite bind_unfold. unfold eprint at 1.
  rewrite bind_unfold. unfold get_text at 1. cbn [heap stderr].
  rewrite bind_unfold. erewrite get_col_run by exact Hc.
  rewrite bind_unfold. unfold set_text at 1. cbn [heap stderr].
  rewrite bind_unfold.
  erewrite get_col_run by (cbn [heap]; rewrite upd_same; cbn [self_cursor]; exact Hc).
  erewrite set_col_run by (cbn [heap]; rewrite upd_same; cbn [self_cursor]; exact Hc).
  cbn [heap stderr]. rewrite upd_same. cbn [self_text].
  eexists. split; [reflexivity|]. split.
  - now rewrite upd_same.
  - intros r Hr. now rewrite !upd_other.
Qed.

(** X7: a printable key delivered to the leaf that owns the cursor is
    consumed and inserted into the text at the cursor column; the column
    goes up by one, whatever the length of the key; one diagnostic is
    written and no other leaf changes. *)
Theorem printable_key_is_inserted (self : ref) (key : str)
    (root : option Expression) (s : State) (cur : ScreenOffset) :
  self_cursor (heap s self) = Some cur ->
  isprintable key = true ->
  let s' := snd (Text_press_key self key root s) in
  fst (Text_press_key self key root s) = Ok true /\
  heap s' self
  = mkText (firstn (col cur) (self_text (heap s self)) ++ key
            ++ skipn (col cur) (self_text (heap s self)))
           (Some (mkScreenOffset (row cur) (col cur + 1))) /\
  (forall r, r <> self -> heap s' r = heap s r) /\
  stderr s' = stderr s ++ [D_INSERT key].
Proof.
  intros Hc Hp s'. subst s'.
  destruct (printable_not_special key Hp) as (HB & HL & HR & HU & HD).
  unfold Text_press_key. cbn [Text_press_key_fuel].
  erewrite body_other by eassumption. rewrite Hp. cbn [when].
  rewrite bind_unfold.
  destruct (insert_key_run self key s Hc) as (h' & -> & Hself & Hother).
  cbn [fst snd heap stderr ret]. auto.
Qed.

Lemma press_LEFT_inside self root s cur :
  self_cursor (heap s self) = Some cur -> 0 < col cur ->
  Text_press_key self key_LEFT root s
  = (Ok true,
     mkState (upd (heap s) self
                  (mkText (self_text (heap s self))
                          (Some (mkScreenOffset (row cur) (col cur - 1)))))
             (stderr s)).
Proof.
  intros Hc Hpos. unfold Text_press_key. cbn [Text_press_key_fuel].
  erewrite body_LEFT by exact Hc.
  rewrite bind_unfold. unfold move_left.
  rewrite bind_unfold. erewrite get_col_run by exact Hc.
  replace (0 <? col cur) with true by (symmetry; now apply Nat.ltb_lt).
  erewrite set_col_run by exact Hc. reflexivity.
Qed.

Lemma press_RIGHT_inside self root s cur :
  self_cursor (heap s self) = Some cur ->
  col cur < length (self_text (heap s self)) ->
  Text_press_key self key_RIGHT root s
  = (Ok true,
     mkState (upd (heap s) self
                  (mkText (self_text (heap s self))
                          (Some (mkScreenOffset (row cur) (col cur + 1)))))
             (stderr s)).
Proof.
  intros Hc Hlt. unfold Text_press_key. cbn [Text_press_key_fuel].
  erewrite body_RIGHT by exact Hc.
  rewrite bind_unfold. unfold move_right.
  rewrite bind_unfold. erewrite get_col_run by exact Hc.
  rewrite bind_unfold, width_Text.
  replace (col cur <? _) with true by (symmetry; now apply Nat.ltb_lt).
  erewrite set_col_run by exact Hc. reflexivity.
Qed.

Lemma moves_left_inside root l1 L l2 k :
  text_refs root = l1 ++ L :: l2 ->
  forall s cur,
    (forall r, In r l1 -> self_cursor (heap s r) = None) ->
    self_cursor (heap s L) = Some cur -> k <= col cur ->
    let s' := snd (press_keys root (repeat key_LEFT k) s) in
    fst (press_keys root (repeat key_LEFT k) s) = Ok tt /\
    heap s' L = mkText (self_text (heap s L))
                       (Some (mkScreenOffset (row cur) (col cur - k))) /\
    (forall r, r <> L -> heap s' r = heap s r) /\ stderr s' = stderr s.
Proof.
  intros Hrefs. induction k as [|k IH]; intros s cur Hl1 Hc Hk; cbn zeta.
  - simpl. rewrite Nat.sub_0_r. split; [reflexivity|]. split; [|auto].
    destruct (heap s L) as [t c]. simpl in *. subst c. now destruct cur.
  - cbn [repeat press_keys]. rewrite bind_unfold.
    assert (Hown : owns_cursor (heap s) L) by (unfold owns_cursor; congruence).
    erewrite press_key_reaches_owner by eassumption.
    rewrite (@press_LEFT_inside L _ s cur Hc) by lia.
    match goal with |- context [press_keys root _ ?s1] => set (s1' := s1) end.
    assert (HL1 : heap s1' L = mkText (self_text (heap s L))
                                      (Some (mkScreenOffset (row cur) (col cur - 1)))).
    { subst s1'. cbn [heap]. now rewrite upd_same. }
    assert (Hne : forall r, r <> L -> heap s1' r = heap s r).
    { intros r Hr. subst s1'. cbn [heap]. now rewrite upd_other. }
    assert (HLl1 : ~ In L l1).
    { intros Hin. apply Hl1 in Hin. congruence. }
    destruct (IH s1' (mkScreenOffset (row cur) (col cur - 1))) as (H0 & H1 & H2 & H3).
    + intros r Hr. rewrite Hne; [now apply Hl1|]. intros ->. contradiction.
    + now rewrite HL1.
    + simpl. lia.
    + cbn zeta in *. rewrite H1, HL1. cbn [self_text row col].
      split; [exact H0|]. split; [|split].
      * do 3 f_equal. lia.
      * intros r Hr. rewrite H2 by assumption. now apply Hne.
      * rewrite H3. reflexivity.
Qed.

Lemma moves_right_inside root l1 L l2 k :
  text_refs root = l1 ++ L :: l2 ->
  forall s cur,
    (forall r, In r l1 -> self_cursor (heap s r) = None) ->
    self_cursor (heap s L) = Some cur ->
    col cur + k <= length (self_text (heap s L)) ->
    let s' := snd (press_keys root (repeat key_RIGHT k) s) in
    fst (press_keys root (repeat key_RIGHT k) s) = Ok tt /\
    heap s' L = mkText (self_text (heap s L))
                       (Some (mkScreenOffset (row cur) (col cur + k))) /\
    (forall r, r <> L -> heap s' r = heap s r) /\ stderr s' = stderr s.
Proof.
  intros Hrefs. induction k as [|k IH]; intros s cur Hl1 Hc Hk; cbn zeta.
  - simpl. rewrite Nat.add_0_r. split; [reflexivity|]. split; [|auto].
    destruct (heap s L) as [t c]. simpl in *. subst c. now destruct cur.
  - cbn [repeat press_keys]. rewrite bind_unfold.
    assert (Hown : owns_cursor (heap s) L) by (unfold owns_cursor; congruence).
    erewrite press_key_reaches_owner by eassumption.
    rewrite (@press_RIGHT_inside L _ s cur Hc) by lia.
    match goal with |- context [press_keys root _ ?s1] => set (s1' := s1) end.
    assert (HL1 : heap s1' L = mkText (self_text (heap s L))
                                      (Some (mkScreenOffset (row cur) (col cur + 1)))).
    { subst s1'. cbn [heap]. now rewrite upd_same. }
    assert (Hne : forall r, r <> L -> heap s1' r = heap s r).
    { intros r Hr. subst s1'. cbn [heap]. now rewrite upd_other. }
    assert (HLl1 : ~ In L l1).
    { intros Hin. apply Hl1 in Hin. congruence. }
    destruct (IH s1' (mkScreenOffset (row cur) (col cur + 1))) as (H0 & H1 & H2 & H3).
    + intros r Hr. rewrite Hne; [now apply Hl1|]. intros ->. contradiction.
    + now rewrite HL1.
    + rewrite HL1. simpl. lia.
    + cbn zeta in *. rewrite H1, HL1. cbn [self_text row col].
      split; [exact H0|]. split; [|split].
      * do 3 f_equal. lia.
      * intros r Hr. rewrite H2 by assumption. now apply Hne.
      * rewrite H3. reflexivity.
Qed.

(** X8: moving inside a text.  With the cursor of the focused leaf [L] at
    column c, k move-left keys (k at most c) leave it on [L] at column
    c - k, and k move-right keys (c + k at most the length of the text)
    at column c + k: the text, the other leaves and stderr stay as they
    were.  So c move-left keys reach column zero without leaving the
    leaf. *)
Theorem horizontal_moves_stay_inside_the_text (root : Expression)
    (l1 l2 : list ref) (L : ref) (k : nat) (s : State) (cur : ScreenOffset) :
  text_refs root = l1 ++ L :: l2 ->
  (forall r, In r l1 -> self_cursor (heap s r) = None) ->
  self_cursor (heap s L) = Some cur ->
  (k <= col cur ->
   let s' := snd (press_keys root (repeat key_LEFT k) s) in
   fst (press_keys root (repeat key_LEFT k) s) = Ok tt /\
   heap s' L = mkText (self_text (heap s L))
                      (Some (mkScreenOffset (row cur) (col cur - k))) /\
   (forall r, r <> L -> heap s' r = heap s r) /\ stderr s' = stderr s) /\
  (col cur + k <= length (self_text (heap s L)) ->
   let s' := snd (press_keys root (repeat key_RIGHT k) s) in
   fst (press_keys root (repeat key_RIGHT k) s) = Ok tt /\
   heap s' L = mkText (self_text (heap s L))
                      (Some (mkScreenOffset (row cur) (col cur + k))) /\
   (forall r, r <> L -> heap s' r = heap s r) /\ stderr s' = stderr s).
Proof.
  intros Hrefs Hl1 Hc. split; intros Hk.
  - eapply moves_left_inside; eassumption.
  - eapply moves_right_inside; eassumption.
Qed.

End MoreKeys.

(** ** Where a key can reach *)

Lemma snd_bind_pure {A B} (m : M A) (f : A -> M B) s :
  (forall a, pure_comp (f a)) -> snd (bind m f s) = snd (m s).
Proof.
  intros Hf. rewrite bind_unfold.
  destruct (m s) as [[a|e] s1]; cbn [snd]; [apply Hf|reflexivity].
Qed.

Lemma first_Text_In l P : first_Text l = Some P -> In (Text P) l.
Proof.
  induction l as [|x l IH]; [discriminate|].
  destruct x; simpl; intros H; auto. injection H as ->. now left.
Qed.

Lemma touches_bind {A B} self (m : M A) (f : A -> M B) :
  touches_only self m -> (forall a, touches_only self (f a)) ->
  touches_only self (bind m f).
Proof.
  intros Hm Hf s r Hr. rewrite bind_unfold. specialize (Hm s r Hr).
  destruct (m s) as [[a|e] s1]; cbn [snd] in *; [|exact Hm].
  now rewrite Hf.
Qed.

Lemma touches_of_heap_pure {A} self (m : M A) : heap_pure m -> touches_only self m.
Proof. intros H s r _. now rewrite H. Qed.

Lemma touches_set_cursor self c : touches_only self (set_cursor self c).
Proof. intros s r Hr. unfold set_cursor. cbn [snd heap]. now rewrite upd_other. Qed.

Lemma touches_set_text self t : touches_only self (set_text self t).
Proof. intros s r Hr. unfold set_text. cbn [snd heap]. now rewrite upd_other. Qed.

Lemma touches_set_col self v : touches_only self (set_col self v).
Proof.
  unfold set_col. apply touches_bind.
  - apply touches_of_heap_pure, heap_pure_of_pure, pure_get_cursor.
  - intros [off|]; [apply touches_set_cursor|].
    apply touches_of_heap_pure, heap_pure_of_pure, pure_raise.
Qed.

Lemma touches_when self b (m : M unit) :
  touches_only self m -> touches_only self (when b m).
Proof.
  destruct b; [auto|]. intros _.
  apply touches_of_heap_pure, heap_pure_of_pure, pure_ret.
Qed.

Ltac touches_step :=
  match goal with
  | |- touches_only _ (bind _ _) => apply touches_bind; [| intros ]
  | |- touches_only _ (eprint _) =>
    apply touches_of_heap_pure; intros ?; reflexivity
  | |- touches_only _ (set_text _ _) => apply touches_set_text
  | |- touches_only _ (set_col _ _) => apply touches_set_col
  | |- touches_only _ (get_col _) =>
    apply touches_of_heap_pure, heap_pure_of_pure, pure_get_col
  | |- touches_only _ (get_text _) =>
    apply touches_of_heap_pure, heap_pure_of_pure, pure_get_text
  | |- touches_only _ (assert _) =>
    apply touches_of_heap_pure, heap_pure_of_pure, pure_assert
  | |- touches_only _ (ret _) =>
    apply touches_of_heap_pure, heap_pure_of_pure, pure_ret
  | |- touches_only _ (raise _) =>
    apply touches_of_heap_pure, heap_pure_of_pure, pure_raise
  | |- touches_only _ (when _ _) => apply touches_when
  | |- touches_only _ (match ?x with _ => _ end) => destruct x
  end.

Lemma touches_insert_key self key : touches_only self (insert_key self key).
Proof. unfold insert_key. repeat touches_step. Qed.

Lemma touches_erase_backward self : touches_only self (erase_backward self).
Proof. unfold erase_backward. repeat touches_step. Qed.

Lemma texts_bind {A B} (m : M A) (f : A -> M B) :
  keeps_texts m -> (forall a, keeps_texts (f a)) -> keeps_texts (bind m f).
Proof.
  intros Hm Hf s r. rewrite bind_unfold. specialize (Hm s r).
  destruct (m s) as [[a|e] s1]; cbn [snd] in *; [|exact Hm].
  now rewrite Hf.
Qed.

Lemma texts_of_heap_pure {A} (m : M A) : heap_pure m -> keeps_texts m.
Proof. intros H s r. now rewrite H. Qed.

Lemma texts_set_col self v : keeps_texts (set_col self v).
Proof.
  intros s r. unfold set_col. rewrite bind_unfold. unfold get_cursor.
  destruct (self_cursor (heap s self)); [|reflexivity].
  unfold set_cursor. cbn [snd heap]. apply text_after_cursor_change.
Qed.

Lemma texts_moved h self target c r :
  self_text (moved h self target c r) = self_text (h r).
Proof.
  unfold moved. destruct (Nat.eq_dec r target) as [->|Ht].
  - now rewrite upd_same.
  - rewrite upd_other by assumption. apply text_after_cursor_change.
Qed.

Section Reach.
Context {U : UnicodeData}.

Lemma firstn_In' {A} n (l : list A) x : In x (firstn n l) -> In x l.
Proof.
  intros H. rewrite <- (firstn_skipn n l). apply in_or_app. now left.
Qed.

(** A vertical move leaves the heap as it was or hands the cursor of
    [self] to a [Text] node of the tree. *)
Lemma go_up_moves self R s :
  heap (snd (go_up self (Some R) s)) = heap s \/
  exists P c, In (Text P) (bfs_children R) /\
              heap (snd (go_up self (Some R) s)) = moved (heap s) self P c.
Proof.
  destruct (obj_index (bfs_children R) self) as [i|e] eqn:Hi.
  - destruct (first_Text (rev (firstn i (bfs_children R)))) as [P|] eqn:HP.
    + destruct (go_up_found self R s Hi HP) as [log ->]. right.
      exists P. eexists. split; [|reflexivity].
      apply first_Text_In, in_rev in HP. eapply firstn_In'; exact HP.
    + destruct (go_up_not_found self R s Hi HP) as [log ->]. now left.
  - left. unfold go_up. rewrite bind_unfold. unfold eprint at 1.
    cbn [root_bfs_children]. rewrite bind_unfold. cbn [ret].
    rewrite lift_bind, Hi. reflexivity.
Qed.

Lemma skipn_In' {A} n (l : list A) x : In x (skipn n l) -> In x l.
Proof.
  intros H. rewrite <- (firstn_skipn n l). apply in_or_app. now right.
Qed.

Lemma go_down_moves self R s :
  heap (snd (go_down self (Some R) s)) = heap s \/
  exists P c, In (Text P) (bfs_children R) /\
              heap (snd (go_down self (Some R) s)) = moved (heap s) self P c.
Proof.
  destruct (obj_index (bfs_children R) self) as [i|e] eqn:Hi.
  - destruct (first_Text (skipn (i + 1) (bfs_children R))) as [P|] eqn:HP.
    + destruct (go_down_found self R s Hi HP) as [log ->]. right.
      exists P. eexists. split; [|reflexivity].
      apply first_Text_In in HP. eapply skipn_In'; exact HP.
    + destruct (go_down_not_found self R s Hi HP) as [log ->]. now left.
  - left. unfold go_down. rewrite bind_unfold. unfold eprint at 1.
    cbn [root_bfs_children]. rewrite bind_unfold. cbn [ret].
    rewrite lift_bind, Hi. reflexivity.
Qed.

Lemma key_effect_same L rs s s' :
  heap s' = heap s -> owns_cursor (heap s) L -> key_effect L rs s s'.
Proof. intros H Hown. left. rewrite H. auto. Qed.

Lemma key_effect_edit {A} L rs (m : M A) s :
  touches_only L m -> keeps_owners m -> owns_cursor (heap s) L ->
  key_effect L rs s (snd (m s)).
Proof.
  intros Ht Hk Hown. left. split; [intros r Hr; now apply Ht|].
  unfold owns_cursor in *. intros E. apply Hown. now apply Hk.
Qed.

Lemma vertical_effect n L key rs s :
  key = key_UP \/ key = key_DOWN -> owns_cursor (heap s) L ->
  key_effect L rs s (snd (Text_press_key_fuel n L key rs s)).
Proof.
  intros Hkey Hown. destruct n as [|n]; [now apply key_effect_same|].
  cbn [Text_press_key_fuel].
  destruct (owns_cursor_Some Hown) as [cur Hcur].
  destruct Hkey as [-> | ->].
  - erewrite body_UP by exact Hcur. destruct rs as [R|]; cbn [is_None].
    + rewrite snd_bind_pure by (intros; apply pure_ret).
      destruct (go_up_moves L R s) as [E | (P & c & HP & E)].
      * now apply key_effect_same.
      * right. exists R, P, c. auto.
    + now apply key_effect_same.
  - erewrite body_DOWN by exact Hcur. destruct rs as [R|]; cbn [is_None].
    + rewrite snd_bind_pure by (intros; apply pure_ret).
      destruct (go_down_moves L R s) as [E | (P & c & HP & E)].
      * now apply key_effect_same.
      * right. exists R, P, c. auto.
    + now apply key_effect_same.
Qed.

Lemma Text_press_key_effect L key rs s :
  owns_cursor (heap s) L ->
  key_effect L rs s (snd (Text_press_key L key rs s)).
Proof.
  intros Hown. unfold Text_press_key.
  destruct (str_eqb key key_UP) eqn:EU.
  { apply str_eqb_eq in EU. subst key. apply vertical_effect; auto. }
  destruct (str_eqb key key_DOWN) eqn:ED.
  { apply str_eqb_eq in ED. subst key. apply vertical_effect; auto. }
  cbn [Text_press_key_fuel].
  destruct (owns_cursor_Some Hown) as [cur Hcur].
  destruct (str_eqb key key_BACKSPACE) eqn:EB.
  { apply str_eqb_eq in EB. subst key. erewrite body_BACKSPACE by exact Hcur.
    apply key_effect_edit; [| |assumption].
    - repeat touches_step. apply touches_erase_backward.
    - repeat keeps_step. apply keeps_erase_backward. }
  destruct (str_eqb key key_LEFT) eqn:EL.
  { apply str_eqb_eq in EL. subst key. erewrite body_LEFT by exact Hcur.
    rewrite snd_bind_pure by (intros; apply pure_ret).
    unfold move_left. rewrite bind_unfold. erewrite get_col_run by exact Hcur.
    destruct (0 <? col cur).
    - apply key_effect_edit; [apply touches_set_col|apply keeps_set_col|assumption].
    - rewrite snd_bind_pure by (intros; apply pure_ret).
      exact (@vertical_effect 1 L key_UP rs s (or_introl eq_refl) Hown). }
  destruct (str_eqb key key_RIGHT) eqn:ER.
  { apply str_eqb_eq in ER. subst key. erewrite body_RIGHT by exact Hcur.
    rewrite snd_bind_pure by (intros; apply pure_ret).
    unfold move_right. rewrite bind_unfold. erewrite get_col_run by exact Hcur.
    rewrite bind_unfold, width_Text.
    destruct (col cur <? _).
    - apply key_effect_edit; [apply touches_set_col|apply keeps_set_col|assumption].
    - rewrite snd_bind_pure by (intros; apply pure_ret).
      exact (@vertical_effect 1 L key_DOWN rs s (or_intror eq_refl) Hown). }
  erewrite body_other by eassumption.
  apply key_effect_edit; [| |assumption].
  - repeat touches_step. apply touches_insert_key.
  - repeat keeps_step. apply keeps_insert_key.
Qed.

Lemma root_seen_bfs root R P :
  root_seen_from_leaf root = Some R -> In (Text P) (bfs_children R) ->
  In P (text_refs root).
Proof.
  intros HR HP. destruct root; simpl in HR; try discriminate;
    injection HR as <-; now apply In_texts_of.
Qed.

(** The effect of a key delivered to the root of a tree in which some leaf
    owns a cursor: [L] is the first owner in pre-order. *)
Lemma press_key_effect root key s :
  (exists r, In r (text_refs root) /\ owns_cursor (heap s) r) ->
  exists L, In L (text_refs root) /\ owns_cursor (heap s) L /\
            key_effect L (root_seen_from_leaf root) s
                       (snd (press_key root key None s)).
Proof.
  intros Hsome.
  destruct (@first_owner_split (heap s) (text_refs root) Hsome)
    as (l1 & L & l2 & Hrefs & Hl1 & HL).
  exists L. split; [rewrite Hrefs; apply in_or_app; right; now left|].
  split; [assumption|].
  erewrite press_key_reaches_owner by eassumption.
  now apply Text_press_key_effect.
Qed.

(** X9: [press_key] changes no [Text] object outside the tree it is
    delivered to, whatever the key and whether it returns or raises. *)
Theorem press_key_changes_only_the_tree (root : Expression) (key : str)
    (s : State) (r : ref) :
  ~ In r (text_refs root) ->
  heap (snd (press_key root key None s)) r = heap s r.
Proof.
  intros Hr.
  destruct (owner_or_none (heap s) (text_refs root)) as [Hnone|Hsome].
  - now rewrite press_key_without_owner.
  - destruct (press_key_effect root key s Hsome) as (L & HL & Hown & [[He _]|He]).
    + apply He. intros ->. contradiction.
    + destruct He as (R & P & c & HR & HP & ->).
      apply moved_other; intros ->; [|contradiction].
      apply Hr. eapply root_seen_bfs; eassumption.
Qed.

(** X10: [press_key] never makes the cursor disappear: when a leaf of the
    tree owns a cursor before a key, any key, is delivered, a leaf of the
    tree owns one afterwards. *)
Theorem press_key_never_drops_the_cursor (root : Expression) (key : str)
    (s : State) :
  has_owner (heap s) root ->
  has_owner (heap (snd (press_key root key None s))) root.
Proof.
  intros Hsome.
  destruct (press_key_effect root key s Hsome) as (L & HL & Hown & [[_ He]|He]).
  - exists L. auto.
  - destruct He as (R & P & c & HR & HP & ->).
    exists P. split; [eapply root_seen_bfs; eassumption|].
    unfold owns_cursor. rewrite moved_target. discriminate.
Qed.

(** X11: [press_key] returns [False] exactly when no leaf of the tree owns a
    cursor, and then it leaves the state as it was: no text, cursor or
    diagnostic changes. *)
Theorem press_key_declines_exactly_without_cursor (root : Expression)
    (key : str) (s : State) :
  (fst (press_key root key None s) = Ok false <->
   forall r, In r (text_refs root) -> self_cursor (heap s r) = None) /\
  ((forall r, In r (text_refs root) -> self_cursor (heap s r) = None) ->
   press_key root key None s = (Ok false, s)).
Proof.
  split; [|apply press_key_without_owner].
  split; [|intros H; now rewrite press_key_without_owner].
  intros H.
  destruct (owner_or_none (heap s) (text_refs root)) as [Hnone|Hsome]; [assumption|].
  exfalso.
  destruct (@first_owner_split (heap s) (text_refs root) Hsome)
    as (l1 & L & l2 & Hrefs & Hl1 & HL).
  erewrite press_key_reaches_owner in H by eassumption.
  unfold Text_press_key in H. cbn [Text_press_key_fuel] in H.
  revert H. now apply Text_press_key_body_accepts.
Qed.

(** The navigation keys change no text. *)
Lemma texts_go_up self rs : keeps_texts (go_up self rs).
Proof.
  intros s r. destruct (go_up_heap self rs s) as [-> | (P & c & ->)];
    [reflexivity | apply texts_moved].
Qed.

Lemma texts_go_down self rs : keeps_texts (go_down self rs).
Proof.
  intros s r. destruct (go_down_heap self rs s) as [-> | (P & c & ->)];
    [reflexivity | apply texts_moved].
Qed.

Lemma texts_vertical n L key rs :
  key = key_UP \/ key = key_DOWN ->
  keeps_texts (Text_press_key_fuel n L key rs).
Proof.
  intros Hkey s r. destruct n as [|n]; [reflexivity|].
  cbn [Text_press_key_fuel].
  destruct (self_cursor (heap s L)) as [cur|] eqn:Hcur.
  - destruct Hkey as [-> | ->].
    + erewrite body_UP by exact Hcur. destruct rs as [R|]; cbn [is_None].
      * rewrite snd_bind_pure by (intros; apply pure_ret). apply texts_go_up.
      * reflexivity.
    + erewrite body_DOWN by exact Hcur. destruct rs as [R|]; cbn [is_None].
      * rewrite snd_bind_pure by (intros; apply pure_ret). apply texts_go_down.
      * reflexivity.
  - unfold Text_press_key_body. rewrite bind_unfold. unfold get_cursor.
    rewrite Hcur. reflexivity.
Qed.

Lemma texts_navigation L key rs :
  key = key_LEFT \/ key = key_RIGHT \/ key = key_UP \/ key = key_DOWN ->
  keeps_texts (Text_press_key L key rs).
Proof.
  intros Hkey s r. unfold Text_press_key.
  destruct Hkey as [-> | [-> | Hv]]; [| |now apply texts_vertical].
  - cbn [Text_press_key_fuel].
    destruct (self_cursor (heap s L)) as [cur|] eqn:Hcur.
    + erewrite body_LEFT by exact Hcur.
      rewrite snd_bind_pure by (intros; apply pure_ret).
      unfold move_left. rewrite bind_unfold. erewrite get_col_run by exact Hcur.
      destruct (0 <? col cur); [apply texts_set_col|].
      rewrite snd_bind_pure by (intros; apply pure_ret).
      exact (@texts_vertical 1 L key_UP rs (or_introl eq_refl) s r).
    + unfold Text_press_key_body. rewrite bind_unfold. unfold get_cursor.
      rewrite Hcur. reflexivity.
  - cbn [Text_press_key_fuel].
    destruct (self_cursor (heap s L)) as [cur|] eqn:Hcur.
    + erewrite body_RIGHT by exact Hcur.
      rewrite snd_bind_pure by (intros; apply pure_ret).
      unfold move_right. rewrite bind_unfold. erewrite get_col_run by exact Hcur.
      rewrite bind_unfold, width_Text.
      destruct (col cur <? _); [apply texts_set_col|].
      rewrite snd_bind_pure by (intros; apply pure_ret).
      exact (@texts_vertical 1 L key_DOWN rs (or_intror eq_refl) s r).
    + unfold Text_press_key_body. rewrite bind_unfold. unfold get_cursor.
      rewrite Hcur. reflexivity.
Qed.

Lemma press_key_navigation_texts root key s r :
  key = key_LEFT \/ key = key_RIGHT \/ key = key_UP \/ key = key_DOWN ->
  self_text (heap (snd (press_key root key None s)) r) = self_text (heap s r).
Proof.
  intros Hkey.
  destruct (owner_or_none (heap s) (text_refs root)) as [Hnone|Hsome].
  - now rewrite press_key_without_owner.
  - destruct (@first_owner_split (heap s) (text_refs root) Hsome)
      as (l1 & L & l2 & Hrefs & Hl1 & HL).
    erewrite press_key_reaches_owner by eassumption.
    now apply texts_navigation.
Qed.

(** X12: the four navigation keys never change a text: after move-left,
    move-right, move-up or move-down every [Text] object has the text it
    had, in every state and whether the call returns or raises. *)
Theorem navigation_keys_leave_the_texts (root : Expression) (s : State) (r : ref) :
  self_text (heap (snd (press_key root key_LEFT None s)) r) = self_text (heap s r) /\
  self_text (heap (snd (press_key root key_RIGHT None s)) r) = self_text (heap s r) /\
  self_text (heap (snd (press_key root key_UP None s)) r) = self_text (heap s r) /\
  self_text (heap (snd (press_key root key_DOWN None s)) r) = self_text (heap s r).
Proof.
  repeat split; apply press_key_navigation_texts; auto.
Qed.

End Reach.

(** ** Keys on a cursor that is within its text *)

Lemma obj_index_In l L : In (Text L) l -> exists i, obj_index l L = Ok i.
Proof.
  induction l as [|x l IH]; [intros []|].
  intros Hin. cbn [obj_index]. destruct (is_obj x L) eqn:Ex; [eauto|].
  destruct Hin as [->|Hin].
  - assert (is_obj (Text L) L = true) by now apply is_obj_true. congruence.
  - destruct (IH Hin) as [i ->]. eauto.
Qed.

Lemma same_object (h h' : Heap) L t c :
  h' = h -> h L = mkText t c -> h' L = mkText t c.
Proof. now intros ->. Qed.

Section WithinText.
Context {U : UnicodeData}.

(** The run of a vertical move from a leaf [L] of the tree. *)
Lemma vertical_run n L key rs s cur :
  key = key_UP \/ key = key_DOWN ->
  self_cursor (heap s L) = Some cur ->
  (forall R, rs = Some R -> In (Text L) (bfs_children R)) ->
  exists s',
    Text_press_key_fuel (S n) L key rs s = (Ok true, s') /\
    (heap s' = heap s \/
     exists P c, heap s' = moved (heap s) L P c /\
                 c <= length (self_text (heap s P))).
Proof.
  intros Hkey Hcur Hrs. cbn [Text_press_key_fuel].
  destruct Hkey as [-> | ->].
  - erewrite body_UP by exact Hcur. destruct rs as [R|]; cbn [is_None].
    + destruct (obj_index_In _ _ (Hrs R eq_refl)) as [i Hi].
      rewrite bind_unfold.
      destruct (first_Text (rev (firstn i (bfs_children R)))) as [P|] eqn:HP.
      * destruct (go_up_found L R s Hi HP) as [log ->].
        eexists. split; [reflexivity|]. right. exists P. eexists.
        split; [reflexivity|]. lia.
      * destruct (go_up_not_found L R s Hi HP) as [log ->].
        eexists. split; [reflexivity|]. now left.
    + eexists. split; [reflexivity|]. now left.
  - erewrite body_DOWN by exact Hcur. destruct rs as [R|]; cbn [is_None].
    + destruct (obj_index_In _ _ (Hrs R eq_refl)) as [i Hi].
      rewrite bind_unfold.
      destruct (first_Text (skipn (i + 1) (bfs_children R))) as [P|] eqn:HP.
      * destruct (go_down_found L R s Hi HP) as [log ->].
        eexists. split; [reflexivity|]. right. exists P. eexists.
        split; [reflexivity|]. lia.
      * destruct (go_down_not_found L R s Hi HP) as [log ->].
        eexists. split; [reflexivity|]. now left.
    + eexists. split; [reflexivity|]. now left.
Qed.

Lemma within_text_same L key s s' cur :
  heap s' = heap s -> self_cursor (heap s L) = Some cur ->
  col cur <= length (self_text (heap s L)) ->
  within_text_after L key s s'.
Proof.
  intros He Hcur Hle. left. exists (self_text (heap s L)), cur.
  rewrite He. split; [|split; auto].
  destruct (heap s L) as [t c]. simpl in *. now subst c.
Qed.

Lemma within_text_of_vertical L key s s' cur :
  self_cursor (heap s L) = Some cur ->
  col cur <= length (self_text (heap s L)) ->
  (heap s' = heap s \/
   exists P c, heap s' = moved (heap s) L P c /\
               c <= length (self_text (heap s P))) ->
  within_text_after L key s s'.
Proof.
  intros Hcur Hle [He|He]; [eapply within_text_same; eassumption|now right].
Qed.

Lemma Text_press_key_within_text L key rs s cur :
  self_cursor (heap s L) = Some cur ->
  col cur <= length (self_text (heap s L)) ->
  (forall R, rs = Some R -> In (Text L) (bfs_children R)) ->
  exists s',
    Text_press_key L key rs s = (Ok true, s') /\ within_text_after L key s s'.
Proof.
  intros Hcur Hle Hrs. unfold Text_press_key.
  destruct (str_eqb key key_UP) eqn:EU.
  { apply str_eqb_eq in EU. subst key.
    destruct (@vertical_run 1 L key_UP rs s cur) as (s' & Hrun & Hs'); auto.
    exists s'. split; [exact Hrun|]. eapply within_text_of_vertical; eassumption. }
  destruct (str_eqb key key_DOWN) eqn:ED.
  { apply str_eqb_eq in ED. subst key.
    destruct (@vertical_run 1 L key_DOWN rs s cur) as (s' & Hrun & Hs'); auto.
    exists s'. split; [exact Hrun|]. eapply within_text_of_vertical; eassumption. }
  destruct (str_eqb key key_BACKSPACE) eqn:EB.
  { apply str_eqb_eq in EB. subst key. cbn [Text_press_key_fuel].
    erewrite body_BACKSPACE by exact Hcur. rewrite bind_unfold.
    destruct (col cur) as [|c] eqn:Hcol.
    - erewrite erase_backward_at_start by eassumption.
      eexists. split; [reflexivity|].
      eapply within_text_same; [reflexivity|exact Hcur|lia].
    - destruct (@firstn_skipn_middle _ (self_text (heap s L)) c)
        as (a & ch & b & Ht & Ha); [lia|].
      destruct (@erase_backward_inside L s cur a ch b Hcur Ht)
        as (h' & Hrun & Hself & Hother); [lia|].
      rewrite Hrun. eexists. split; [reflexivity|]. left.
      do 2 eexists. cbn [heap]. split; [exact Hself|]. split; [|exact Hother].
      intros _. cbn [col]. rewrite length_app. lia. }
  destruct (str_eqb key key_LEFT) eqn:EL.
  { apply str_eqb_eq in EL. subst key.
    destruct (col cur) as [|c] eqn:Hcol.
    - cbn [Text_press_key_fuel].
      erewrite body_LEFT by exact Hcur.
      rewrite bind_unfold. unfold move_left.
      rewrite bind_unfold. erewrite get_col_run by exact Hcur.
      rewrite Hcol. cbn [Nat.ltb Nat.leb]. rewrite bind_unfold.
      destruct (@vertical_run 0 L key_UP rs s cur) as (s' & Hrun & Hs'); auto.
      cbn [Text_press_key_fuel] in Hrun. rewrite Hrun.
      exists s'. split; [reflexivity|].
      eapply within_text_of_vertical; [exact Hcur|lia|exact Hs'].
    - fold (Text_press_key L key_LEFT rs s).
      rewrite (@press_LEFT_inside U L rs s cur Hcur) by lia.
      eexists. split; [reflexivity|]. left. do 2 eexists. cbn [heap].
      split; [apply upd_same|]. split; [cbn [col]; lia|].
      intros r Hr. now apply upd_other. }
  destruct (str_eqb key key_RIGHT) eqn:ER.
  { apply str_eqb_eq in ER. subst key.
    destruct (Nat.lt_ge_cases (col cur) (length (self_text (heap s L)))) as [Hlt|Hge].
    - fold (Text_press_key L key_RIGHT rs s).
      rewrite (@press_RIGHT_inside U L rs s cur Hcur) by lia.
      eexists. split; [reflexivity|]. left. do 2 eexists. cbn [heap].
      split; [apply upd_same|]. split; [cbn [col]; lia|].
      intros r Hr. now apply upd_other.
    - cbn [Text_press_key_fuel].
      erewrite body_RIGHT by exact Hcur.
      rewrite bind_unfold. unfold move_right.
      rewrite bind_unfold. erewrite get_col_run by exact Hcur.
      rewrite bind_unfold, width_Text.
      replace (col cur <? _) with false by (symmetry; apply Nat.ltb_ge; lia).
      rewrite bind_unfold.
      destruct (@vertical_run 0 L key_DOWN rs s cur) as (s' & Hrun & Hs'); auto.
      cbn [Text_press_key_fuel] in Hrun. rewrite Hrun.
      exists s'. split; [reflexivity|].
      eapply within_text_of_vertical; [exact Hcur|lia|exact Hs']. }
  cbn [Text_press_key_fuel].
  erewrite body_other by eassumption. rewrite bind_unfold.
  destruct (isprintable key) eqn:Hp; cbn [when].
  - destruct (insert_key_run L key s Hcur) as (h' & -> & Hself & Hother).
    eexists. split; [reflexivity|]. left. do 2 eexists. cbn [heap].
    split; [exact Hself|]. split; [|exact Hother].
    intros Hkey. cbn [col]. rewrite !length_app, length_firstn, length_skipn.
    destruct key; [contradiction|]. simpl. lia.
  - eexists. split; [reflexivity|].
    eapply within_text_same; [reflexivity|exact Hcur|lia].
Qed.

Lemma press_key_within_text root key s :
  cursors_within_text (heap s) root ->
  (press_key root key None s = (Ok false, s)) \/
  exists L s', In L (text_refs root) /\
               press_key root key None s = (Ok true, s') /\
               within_text_after L key s s'.
Proof.
  intros Hval.
  destruct (owner_or_none (heap s) (text_refs root)) as [Hnone|Hsome].
  - left. now apply press_key_without_owner.
  - right.
    destruct (@first_owner_split (heap s) (text_refs root) Hsome)
      as (l1 & L & l2 & Hrefs & Hl1 & HL).
    assert (HinL : In L (text_refs root)).
    { rewrite Hrefs. apply in_or_app. right. now left. }
    destruct (owns_cursor_Some HL) as [cur Hcur].
    destruct (@Text_press_key_within_text L key (root_seen_from_leaf root) s cur)
      as (s' & Hrun & Hs'); [assumption|now apply Hval| |].
    { intros R HR. destruct root; simpl in HR; try discriminate;
        injection HR as <-; now apply In_texts_of. }
    exists L, s'. split; [assumption|]. split; [|assumption].
    erewrite press_key_reaches_owner by eassumption. exact Hrun.
Qed.

(** X13: [press_key] does not raise when every cursor of the tree is within
    its text: whatever the key, it returns [True] or [False]. *)
Theorem press_key_returns_on_cursors_within_text (root : Expression)
    (key : str) (s : State) :
  cursors_within_text (heap s) root ->
  exists accepted, fst (press_key root key None s) = Ok accepted.
Proof.
  intros Hval.
  destruct (@press_key_within_text root key s Hval) as [-> | (L & s' & _ & -> & _)];
    eexists; reflexivity.
Qed.

(** X14: a key that is not the empty string keeps every cursor of the tree
    within its text: the column of a cursor is at most the length of the
    text of its leaf before the key, and so it is after it. *)
Theorem press_key_keeps_cursors_within_text (root : Expression) (key : str)
    (s : State) :
  cursors_within_text (heap s) root -> key <> [] ->
  cursors_within_text (heap (snd (press_key root key None s))) root.
Proof.
  intros Hval Hkey.
  destruct (@press_key_within_text root key s Hval)
    as [-> | (L & s' & HL & -> & [Hedit|Hmove])]; [exact Hval| |]; cbn [snd].
  - destruct Hedit as (t' & cur' & HsL & Hcol & Hother).
    intros r cur Hr Hc. destruct (Nat.eq_dec r L) as [->|Hne].
    + rewrite HsL in Hc |- *. cbn [self_cursor self_text] in *.
      injection Hc as <-. now apply Hcol.
    + rewrite Hother in Hc |- * by assumption. now apply Hval.
  - destruct Hmove as (P & c & -> & Hc).
    intros r cur Hr Hcur. destruct (Nat.eq_dec r P) as [->|HneP].
    + rewrite moved_target in Hcur |- *. cbn [self_cursor self_text] in *.
      injection Hcur as <-. exact Hc.
    + destruct (Nat.eq_dec r L) as [->|HneL].
      * rewrite moved_self in Hcur by congruence. discriminate.
      * rewrite moved_other in Hcur |- * by assumption. now apply Hval.
Qed.

End WithinText.

(** ** Moving down, and leaving a leaf at its start *)

Section MoveDown.
Context {U : UnicodeData}.

(** The run of a move-down from the first owner [L] of a tree that is not
    a single leaf. *)
Lemma press_DOWN_inside root pre L post s cur :
  bfs_children root = pre ++ Text L :: post ->
  self_cursor (heap s L) = Some cur ->
  (forall r, In (Text r) pre -> self_cursor (heap s r) = None) ->
  root_seen_from_leaf root = Some root ->
  press_key root key_DOWN None s = (go_down L (Some root) ;; ret true) s /\
  obj_index (bfs_children root) L = Ok (length pre) /\
  skipn (length pre + 1) (bfs_children root) = post.
Proof.
  intros Hbfs Hcur Hpre Hroot.
  assert (Hown : owns_cursor (heap s) L) by (unfold owns_cursor; congruence).
  assert (Hnone : forall r, In r (texts_of pre) -> self_cursor (heap s r) = None).
  { intros r Hr. apply Hpre. now apply In_texts_of. }
  rewrite (@press_key_reaches_owner U root key_DOWN s (texts_of pre) L (texts_of post)
             (text_refs_split _ _ _ _ Hbfs) Hnone Hown).
  rewrite Hroot. unfold Text_press_key. cbn [Text_press_key_fuel].
  erewrite body_DOWN by exact Hcur. cbn [is_None].
  split; [reflexivity|]. rewrite Hbfs. split.
  - apply obj_index_at. intros Hin. apply Hpre in Hin. congruence.
  - rewrite skipn_app, skipn_all2 by lia.
    replace (length pre + 1 - length pre) with 1 by lia. reflexivity.
Qed.

(** X15: move-down, delivered to a tree whose focused leaf is [L] (the
    pre-order flattening is [pre], then [L], then [post], and no leaf of
    [pre] owns a cursor).  The key is consumed.  When a [Text] follows [L],
    the nearest one, [N] (the flattening after [L] starts with nodes [mid]
    that are not [Text], followed by [N]), gets the cursor at column 0,
    [L] loses its cursor, and nothing else changes.  When no [Text]
    follows [L], and so when the tree is the leaf itself, the heap is left
    as it was. *)
Theorem move_down_focuses_next_leaf (root : Expression)
    (pre post : list Expression) (L : ref) (s : State) (cur : ScreenOffset) :
  bfs_children root = pre ++ Text L :: post ->
  self_cursor (heap s L) = Some cur ->
  (forall r, In (Text r) pre -> self_cursor (heap s r) = None) ->
  let s' := snd (press_key root key_DOWN None s) in
  fst (press_key root key_DOWN None s) = Ok true /\
  (forall mid N post',
      post = mid ++ Text N :: post' -> (forall r, ~ In (Text r) mid) ->
      heap s' N = mkText (self_text (heap s N)) (Some (mkScreenOffset 0 0)) /\
      (N <> L -> heap s' L = mkText (self_text (heap s L)) None) /\
      (forall r, r <> N -> r <> L -> heap s' r = heap s r)) /\
  ((forall r, ~ In (Text r) post) -> heap s' = heap s).
Proof.
  intros Hbfs Hcur Hpre s'. subst s'.
  destruct (root_seen_from_leaf root) as [R|] eqn:Hroot.
  - assert (R = root) by (destruct root; simpl in Hroot; congruence). subst R.
    destruct (@press_DOWN_inside root pre L post s cur) as (-> & Hi & Hskip);
      try assumption.
    rewrite bind_unfold.
    destruct (first_Text post) as [N0|] eqn:HN.
    + destruct (@go_down_found L root s (length pre) N0) as [log ->];
        [assumption | now rewrite Hskip |].
      cbn [fst snd heap ret]. split; [reflexivity|]. split.
      * intros mid N post' -> Hmid.
        rewrite first_Text_app_none in HN by assumption. cbn [first_Text] in HN.
        injection HN as <-. rewrite moved_target.
        split; [reflexivity|]. split.
        -- intros HNL. now apply moved_self.
        -- intros. now apply moved_other.
      * intros Hnone. apply first_Text_none in Hnone. congruence.
    + destruct (@go_down_not_found L root s (length pre)) as [log ->];
        [assumption | now rewrite Hskip |].
      cbn [fst snd heap ret]. split; [reflexivity|]. split; [|reflexivity].
      intros mid N post' -> Hmid.
      rewrite first_Text_app_none in HN by assumption. discriminate.
  - destruct root as [self| | |]; try discriminate.
    apply bfs_children_Text_inv in Hbfs. destruct Hbfs as (-> & -> & ->).
    cbn [press_key]. unfold Text_press_key. cbn [Text_press_key_fuel].
    erewrite body_DOWN by exact Hcur. cbn [is_None].
    split; [reflexivity|]. split; [|reflexivity].
    intros mid N post' Hsplit. now destruct mid.
Qed.

(** X16: in a tree (no [Text] object occurs twice) whose only cursor is at
    column 0 of a leaf [L], with the [Text] leaf [P] the nearest one
    before [L] in pre-order: move-left is consumed and puts the cursor at
    the end of the text of [P]; a move-right after it is consumed and puts
    the cursor back on [L] at column 0; every other leaf is then as it
    was before the two keys. *)
Theorem left_then_right_returns_to_leaf (root : Expression)
    (pre mid post : list Expression) (P L : ref) (s : State)
    (cur : ScreenOffset) :
  bfs_children root = pre ++ Text P :: mid ++ Text L :: post ->
  (forall r, ~ In (Text r) mid) ->
  NoDup (text_refs root) ->
  self_cursor (heap s L) = Some cur ->
  col cur = 0 ->
  (forall r, In r (text_refs root) -> r <> L -> self_cursor (heap s r) = None) ->
  let s1 := snd (press_key root key_LEFT None s) in
  let s2 := snd (press_key root key_RIGHT None s1) in
  fst (press_key root key_LEFT None s) = Ok true /\
  heap s1 P = mkText (self_text (heap s P))
                     (Some (mkScreenOffset 0 (length (self_text (heap s P))))) /\
  self_cursor (heap s1 L) = None /\
  fst (press_key root key_RIGHT None s1) = Ok true /\
  heap s2 L = mkText (self_text (heap s L)) (Some (mkScreenOffset 0 0)) /\
  (forall r, r <> L -> heap s2 r = heap s r).
Proof.
  intros Hbfs Hmid Hnodup Hcur Hcol Huniq s1 s2.
  pose proof (bfs_children_not_single _ _ _ _ _ _ Hbfs) as Hroot.
  assert (Hrefs : text_refs root = texts_of pre ++ P :: L :: texts_of post).
  { unfold text_refs. rewrite Hbfs, texts_of_app. cbn [texts_of].
    rewrite texts_of_app, (texts_of_no_Text _ Hmid). reflexivity. }
  rewrite Hrefs in Hnodup.
  pose proof (NoDup_remove_2 _ _ _ Hnodup) as HP.
  pose proof (NoDup_remove_1 _ _ _ Hnodup) as Hnodup'.
  pose proof (NoDup_remove_2 _ _ _ Hnodup') as HL.
  assert (HPL : P <> L).
  { intros ->. apply HP. apply in_or_app. right. now left. }
  assert (HPpre : ~ In (Text P) pre).
  { intros Hin. apply HP. apply in_or_app. left. now apply In_texts_of. }
  assert (HLpre : ~ In (Text L) pre).
  { intros Hin. apply HL. apply in_or_app. left. now apply In_texts_of. }
  assert (Hpre : forall r, In (Text r) pre -> self_cursor (heap s r) = None).
  { intros r Hr. apply Huniq.
    - rewrite Hrefs. apply in_or_app. left. now apply In_texts_of.
    - intros ->. contradiction. }
  assert (HPcur : self_cursor (heap s P) = None).
  { apply Huniq; [|assumption]. rewrite Hrefs. apply in_or_app. right. now left. }
  (* move left *)
  destruct (@press_LEFT_at_start U root (pre ++ Text P :: mid) L post P s cur)
    as [log1 H1]; try assumption.
  { rewrite Hbfs, <- app_assoc. reflexivity. }
  { intros r Hr. apply in_app_or in Hr. destruct Hr as [Hr|[Hr|Hr]].
    - now apply Hpre.
    - injection Hr as <-. exact HPcur.
    - now apply Hmid in Hr. }
  { now apply first_Text_backward. }
  subst s2 s1. rewrite H1. cbn [fst snd heap].
  (* move right *)
  destruct (@press_RIGHT_at_end U root pre P (mid ++ Text L :: post) L
              (mkState (moved (heap s) L P (length (self_text (heap s P)))) log1)
              (mkScreenOffset 0 (length (self_text (heap s P)))))
    as [log2 H2]; try assumption.
  { cbn [heap]. now rewrite moved_target. }
  { cbn [heap col]. now rewrite moved_target. }
  { cbn [heap]. intros r Hr. rewrite moved_other.
    - now apply Hpre.
    - intros ->. contradiction.
    - intros ->. contradiction. }
  { now rewrite first_Text_app_none. }
  rewrite H2. cbn [fst snd heap].
  rewrite moved_target, moved_self by assumption.
  repeat split.
  - rewrite moved_target, moved_self by congruence. reflexivity.
  - intros r Hr. destruct (Nat.eq_dec r P) as [->|HrP].
    + rewrite moved_self by congruence. rewrite moved_target. cbn [self_text].
      destruct (heap s P) as [t c]. cbn in *. now subst c.
    + rewrite !moved_other by assumption. reflexivity.
Qed.

(** X17: a tree that is a single [Text] keeps its cursor: move-up and
    move-down are cancelled, and so are move-left at column 0 and
    move-right at the end of the text; each writes one diagnostic and
    leaves the heap as it was. *)
Theorem lone_text_cancels_moves_out_of_it (self : ref) (s : State)
    (cur : ScreenOffset) :
  self_cursor (heap s self) = Some cur ->
  let cancelled :=
    (Ok true, mkState (heap s) (stderr s ++ [D_cancelling_vertical_movement])) in
  press_key (Text self) key_UP None s = cancelled /\
  press_key (Text self) key_DOWN None s = cancelled /\
  (col cur = 0 -> press_key (Text self) key_LEFT None s = cancelled) /\
  (length (self_text (heap s self)) <= col cur ->
   press_key (Text self) key_RIGHT None s = cancelled).
Proof.
  intros Hcur cancelled. subst cancelled.
  cbn [press_key]. unfold Text_press_key. cbn [Text_press_key_fuel].
  split; [|split; [|split]].
  - erewrite body_UP by exact Hcur. reflexivity.
  - erewrite body_DOWN by exact Hcur. reflexivity.
  - intros Hcol. erewrite body_LEFT by exact Hcur.
    rewrite bind_unfold. unfold move_left.
    rewrite bind_unfold. erewrite get_col_run by exact Hcur.
    rewrite Hcol. cbn [Nat.ltb Nat.leb]. rewrite bind_unfold.
    erewrite body_UP by exact Hcur. reflexivity.
  - intros Hcol. erewrite body_RIGHT by exact Hcur.
    rewrite bind_unfold. unfold move_right.
    rewrite bind_unfold. erewrite get_col_run by exact Hcur.
    rewrite bind_unfold, width_Text.
    replace (col cur <? _) with false by (symmetry; apply Nat.ltb_ge; lia).
    rewrite bind_unfold.
    erewrite body_DOWN by exact Hcur. reflexivity.
Qed.

End MoveDown.

(** ** The geometry of a render *)

Lemma Forall2_same_length {A B} (P : A -> nat) (Q : B -> nat) (w : nat) l l' :
  length l' = length l ->
  Forall (fun a => P a = w) l -> Forall (fun b => Q b = w) l' ->
  Forall2 (fun a b => Q b = P a) l l'.
Proof.
  revert l'. induction l as [|a l IH]; intros [|b l'] Hlen Hl Hl';
    simpl in Hlen; try discriminate; constructor.
  - inversion Hl; inversion Hl'; subst. congruence.
  - apply IH; [lia| |]; [now inversion Hl | now inversion Hl'].
Qed.

Section Geometry.
Context {U : UnicodeData}.

Ltac pure_solve :=
  repeat first
    [ apply pure_width_of | apply pure_align_space
    | apply pure_Row_top_padding | apply pure_Row_baseline_loop
    | apply pure_Row_output_row | apply pure_Parenthesis_rows
    | apply pure_Parenthesis_cursor | pure_step ].

Tactic Notation "bind_inv" hyp(H) "as" simple_intropattern(x) ident(E) :=
  rewrite bind_pure_unfold in H by pure_solve;
  match type of H with
  | fst (match fst (?m ?s) with _ => _ end) = _ =>
    destruct (fst (m s)) as [x|] eqn:E; [|discriminate H]
  end.

Ltac bind_known H :=
  rewrite bind_pure_unfold in H by pure_solve;
  match type of H with
  | fst (match fst (?m ?s) with _ => _ end) = _ =>
    match goal with E : fst (m s) = Ok _ |- _ => rewrite E in H end
  end.

Ltac ret_inv H := unfold ret in H; cbn [fst] in H; injection H as <-.

Ltac bind_run E := rewrite bind_pure_unfold by pure_solve; rewrite E.

(** X18: in every render that returns, each color row is as long as its
    line, and there are as many color rows as lines: the colors [display]
    pairs with the characters match them one to one. *)
Theorem render_colors_match_the_lines (e : Expression) (s : State)
    (r : RenderOutput) :
  fst (render e s) = Ok r ->
  length (colors r) = length (lines r) /\
  Forall2 (fun line color => length color = length line) (lines r) (colors r).
Proof.
  intros H.
  pose proof (@render_returns_only_on_renderable U e s r H) as Hr.
  destruct (@render_returns_rect U e s Hr) as (r' & w & (Hrun & (Hne & Hlen & Hall) & Hcol) & _).
  rewrite H in Hrun. injection Hrun as <-.
  split; [exact Hlen|]. eapply Forall2_same_length; eassumption.
Qed.

(** *** Fractions *)

Lemma Fraction_render_inv n d s r :
  good_render n -> good_render d ->
  fst (Fraction_render n d s) = Ok r ->
  exists rn rd nw dw,
    fst (n s) = Ok rn /\ fst (d s) = Ok rd /\
    rect_out rn nw /\ rect_out rd dw /\
    lines r = map (fun l => str_align l (2 + Nat.max nw dw)) (lines rn)
              ++ [repeat HBAR (2 + Nat.max nw dw)]
              ++ map (fun l => str_align l (2 + Nat.max nw dw)) (lines rd) /\
    (exists ncolors dcolors,
        colors r = ncolors ++ [repeat (Ansi FRAC_COLOR) (2 + Nat.max nw dw)] ++ dcolors /\
        length ncolors = length (lines rn)) /\
    baseline r = length (lines rn) /\
    cursor r
    = match cursor rd with
      | Some cur =>
        Some (mkScreenOffset (row cur + length (lines rn) + 1)
                             (col cur + (2 + Nat.max nw dw - dw) / 2))
      | None =>
        match cursor rn with
        | Some cur =>
          Some (mkScreenOffset (row cur) (col cur + (2 + Nat.max nw dw - nw) / 2))
        | None => None
        end
      end.
Proof.
  intros [Pn Gn] [Pd Gd] H. unfold Fraction_render in H.
  bind_inv H as nw Enw. pose proof Enw as Enw'.
  apply width_of_ok in Enw; [|assumption].
  destruct Enw as (rn & Ern & Hn_ne & Hn_all).
  bind_inv H as dw Edw. pose proof Edw as Edw'.
  apply width_of_ok in Edw; [|assumption].
  destruct Edw as (rd & Erd & Hd_ne & Hd_all).
  do 2 bind_known H.
  bind_inv H as u1 E1. bind_inv H as u2 E2. bind_inv H as u3 E3.
  bind_inv H as cursor1 Ec1. bind_inv H as cursor2 Ec2.
  bind_inv H as ncolors En. apply mapM_ok in En; [|intros; apply pure_lift].
  bind_inv H as dcolors Ed. apply mapM_ok in Ed; [|intros; apply pure_lift].
  ret_inv H.
  apply Forall2_length_eq in En, Ed.
  destruct (Gn s rn Ern) as (wn & _ & Hn_col & _).
  destruct (Gd s rd Erd) as (wd & _ & Hd_col & _).
  change (2 * FRAC_PADDING) with 2 in *.
  exists rn, rd, nw, dw. cbn [lines colors baseline cursor].
  split; [assumption|]. split; [assumption|].
  split; [repeat split; assumption|]. split; [repeat split; assumption|].
  split; [reflexivity|].
  split; [exists ncolors, dcolors; split; [reflexivity|congruence]|].
  split; [reflexivity|].
  assert (Hc1 : cursor1
                = match cursor rn with
                  | Some cur =>
                    Some (mkScreenOffset (row cur)
                                         (col cur + (2 + Nat.max nw dw - nw) / 2))
                  | None => None
                  end).
  { destruct (cursor rn) as [cur|].
    - bind_inv Ec1 as off Eoff.
      rewrite (@align_space_value (width_of n) _ s nw) in Eoff
        by (try apply pure_width_of; assumption).
      injection Eoff as <-. ret_inv Ec1. reflexivity.
    - ret_inv Ec1. reflexivity. }
  destruct (cursor rd) as [cur|].
  - bind_inv Ec2 as off Eoff.
    rewrite (@align_space_value (width_of d) _ s dw) in Eoff
      by (try apply pure_width_of; assumption).
    injection Eoff as <-. ret_inv Ec2. reflexivity.
  - ret_inv Ec2. exact Hc1.
Qed.

(** *** Parentheses *)

Lemma str_align_same l w : length l = w -> str_align l w = l.
Proof. intros <-. unfold str_align. now rewrite Nat.leb_refl. Qed.

Lemma Parenthesis_rows_inv n width index rows s out :
  fst (Parenthesis_rows n width index rows s) = Ok out ->
  Forall (fun row => length (fst row) = width) rows ->
  length out = length rows /\
  forall i row,
    nth_error rows i = Some row ->
    nth_error (map fst out) i
    = Some ([if index + i =? 0 then LPAREN_TOP
             else if index + i <? n - 1 then LPAREN_MID else LPAREN_BOT]
            ++ fst row
            ++ [if index + i =? 0 then RPAREN_TOP
                else if index + i <? n - 1 then RPAREN_MID else RPAREN_BOT]).
Proof.
  revert index out. induction rows as [|[line c] rows IH]; intros index out H Hall;
    cbn [Parenthesis_rows] in H.
  - ret_inv H. split; [reflexivity|]. intros i row Hi. now destruct i.
  - bind_inv H as c' Ec. bind_inv H as rest Er. ret_inv H.
    apply Forall_cons_iff in Hall. destruct Hall as [Hline Hall']. cbn [fst] in Hline.
    destruct (IH _ _ Er Hall') as [Hlen Hnth].
    split; [simpl; now rewrite Hlen|].
    intros [|i] row Hi; cbn [nth_error map fst] in *.
    + injection Hi as <-. cbn [fst]. rewrite Nat.add_0_r.
      rewrite str_align_same by exact Hline.
      destruct (index =? 0); [reflexivity|].
      destruct (index <? n - 1); reflexivity.
    + rewrite (Hnth i row Hi). now rewrite Nat.add_succ_comm.
Qed.

Lemma Parenthesis_render_inv x s r :
  good_render x ->
  fst (Parenthesis_render x s) = Ok r ->
  exists rx w cur,
    fst (x s) = Ok rx /\ rect_out rx w /\ cursor rx = Some cur /\
    all_length (w + 2) (lines r) /\
    length (lines r) = length (lines rx) /\
    baseline r = (if length (lines rx) =? 1 then 0 else baseline rx) /\
    cursor r = Some (mkScreenOffset (row cur) (col cur + 1)) /\
    forall i l,
      nth_error (lines rx) i = Some l ->
      nth_error (lines r) i
      = Some (if length (lines rx) =? 1 then [LPAREN] ++ l ++ [RPAREN]
              else [if i =? 0 then LPAREN_TOP
                    else if i <? length (lines rx) - 1 then LPAREN_MID
                    else LPAREN_BOT]
                   ++ l
                   ++ [if i =? 0 then RPAREN_TOP
                       else if i <? length (lines rx) - 1 then RPAREN_MID
                       else RPAREN_BOT]).
Proof.
  intros [Px Gx] H. unfold Parenthesis_render in H.
  bind_inv H as rx Erx.
  bind_inv H as width Ew.
  apply width_of_ok in Ew; [|assumption].
  destruct Ew as (rx' & Erx' & Hne & Hall). rewrite Erx in Erx'.
  injection Erx' as <-.
  destruct (Gx s rx Erx) as (wx & _ & Hcol & _).
  destruct (cursor rx) as [cur|] eqn:Ecur.
  2:{ exfalso. destruct (length (lines rx) =? 1).
      - bind_inv H as line0 E0. bind_inv H as color0 E1. bind_inv H as c E2.
        discriminate E2.
      - bind_inv H as out Eout. bind_inv H as c E2. discriminate E2. }
  exists rx, width, cur.
  split; [reflexivity|]. split; [repeat split; assumption|]. split; [exact Ecur|].
  destruct (length (lines rx) =? 1) eqn:E1.
  - apply Nat.eqb_eq in E1.
    bind_inv H as line0 E0. bind_inv H as color0 Ec0. bind_inv H as c E2.
    ret_inv H. ret_inv E2. cbn [lines baseline cursor].
    destruct (lines rx) as [|l0 [|l1 ls]] eqn:El; try discriminate E1.
    ret_inv E0. inversion Hall; subst.
    split; [|split; [reflexivity|split; [reflexivity|split; [reflexivity|]]]].
    + constructor; [|constructor]. simpl. rewrite length_app. simpl. lia.
    + intros [|i] l Hi; [|now destruct i]. simpl in Hi. injection Hi as <-.
      reflexivity.
  - bind_inv H as out Eout. bind_inv H as c E2. ret_inv H. ret_inv E2.
    cbn [lines baseline cursor].
    assert (Hrows : Forall (fun row : list N * list color => length (fst row) = width)
                           (combine (lines rx) (colors rx))).
    { apply Forall_forall. intros [l c] Hin. apply in_combine_l in Hin. cbn [fst].
      unfold all_length in Hall. rewrite Forall_forall in Hall. auto. }
    destruct (@Parenthesis_rows_inv _ _ _ _ _ _ Eout Hrows) as [Hlen Hnth].
    rewrite length_combine, Hcol, Nat.min_id in Hlen.
    assert (Hout : forall i l,
               nth_error (lines rx) i = Some l ->
               nth_error (map fst out) i
               = Some ([if i =? 0 then LPAREN_TOP
                        else if i <? length (lines rx) - 1 then LPAREN_MID
                        else LPAREN_BOT]
                       ++ l
                       ++ [if i =? 0 then RPAREN_TOP
                           else if i <? length (lines rx) - 1 then RPAREN_MID
                           else RPAREN_BOT])).
    { intros i l Hi.
      assert (Hi' : i < length (colors rx)).
      { rewrite Hcol. apply nth_error_Some. congruence. }
      apply nth_error_Some in Hi'.
      destruct (nth_error (colors rx) i) as [c|] eqn:Ec; [|contradiction].
      assert (Hrow : nth_error (combine (lines rx) (colors rx)) i = Some (l, c)).
      { clear -Hi Ec. revert i Hi Ec.
        generalize (colors rx). induction (lines rx) as [|a ls IH];
          intros cs i Hi Ec; [now destruct i|].
        destruct cs as [|b cs]; [now destruct i|].
        destruct i as [|i]; simpl in *; [congruence|]. now apply IH. }
      apply Hnth in Hrow. cbn [fst] in Hrow. exact Hrow. }
    split; [|split; [now rewrite length_map|split; [reflexivity|split; [reflexivity|exact Hout]]]].
    unfold all_length. apply Forall_forall. intros o Ho.
    apply In_nth_error in Ho. destruct Ho as [i Hi].
    assert (Hi' : i < length (lines rx)).
    { rewrite <- Hlen, <- (length_map fst out). apply nth_error_Some. congruence. }
    apply nth_error_Some in Hi'.
    destruct (nth_error (lines rx) i) as [l|] eqn:El; [|contradiction].
    rewrite (Hout i l El) in Hi. injection Hi as <-.
    assert (length l = width).
    { unfold all_length in Hall. rewrite Forall_forall in Hall.
      apply Hall. eapply nth_error_In; eassumption. }
    simpl. rewrite length_app. simpl. lia.
Qed.

(** *** Rows *)

Lemma Row_top_padding_length n w l c s lc :
  fst (Row_top_padding n w l c s) = Ok lc -> length (fst lc) = n + length l.
Proof.
  revert l c. induction n as [|n IH]; intros l c H; cbn [Row_top_padding] in H.
  - ret_inv H. reflexivity.
  - bind_inv H as blank Eb. apply IH in H. simpl in H. lia.
Qed.

Lemma Row_baseline_loop_heights base xs acc w_so_far s res :
  fst (Row_baseline_loop base xs acc w_so_far s) = Ok res ->
  Forall2 (fun lc rw => length (fst lc)
                        = base - baseline (fst rw) + length (lines (fst rw)))
          (fst res) xs.
Proof.
  revert acc w_so_far res.
  induction xs as [|[r w] xs IH]; intros acc w_so_far res H;
    cbn [Row_baseline_loop] in H.
  - ret_inv H. constructor.
  - bind_inv H as lc Elc. bind_inv H as rest Erest. ret_inv H.
    cbn [fst snd]. constructor.
    + cbn [fst]. eapply Row_top_padding_length. eassumption.
    + eapply IH. eassumption.
Qed.

(** The cursor the first loop of [Row.render] ends with is the one it
    started with, or the cursor of the last item that has one, moved down
    to the baseline of the row and right by the widths before the item. *)
Lemma Row_baseline_loop_cursor base xs acc w_so_far s res c :
  fst (Row_baseline_loop base xs acc w_so_far s) = Ok res ->
  snd res = Some c ->
  (acc = Some c /\ Forall (fun rw => cursor (fst rw) = None) xs) \/
  (exists pre rw post ci,
      xs = pre ++ rw :: post /\ cursor (fst rw) = Some ci /\
      Forall (fun rw => cursor (fst rw) = None) post /\
      c = mkScreenOffset (row ci + base - baseline (fst rw))
                         (col ci + (w_so_far + list_sum (map snd pre)))).
Proof.
  revert acc w_so_far res.
  induction xs as [|[r w] xs IH]; intros acc w_so_far res H Hc;
    cbn [Row_baseline_loop] in H.
  - ret_inv H. cbn [snd] in Hc. left. auto.
  - bind_inv H as lc Elc. bind_inv H as rest Erest. ret_inv H.
    cbn [snd] in Hc.
    destruct (IH _ _ _ Erest Hc) as [[Hacc Hnone] | (pre & rw & post & ci & -> & Hci & Hpost & ->)].
    + destruct (cursor r) as [cur|] eqn:Ecur.
      * right. exists [], (r, w), xs, cur. cbn [fst snd app map list_sum fold_right].
        injection Hacc as <-.
        repeat split; try assumption. f_equal. lia.
      * left. split; [assumption|]. constructor; assumption.
    + right. exists ((r, w) :: pre), rw, post, ci.
      repeat split; try assumption.
      cbn [map snd list_sum fold_right]. f_equal.
      change (fold_right Nat.add 0 (map snd pre)) with (list_sum (map snd pre)).
      lia.
Qed.

Lemma Forall2_combine {A B C} (P : A -> B -> Prop) (Q : B -> C -> Prop) la lb lc :
  Forall2 P la lb -> Forall2 Q lb lc ->
  Forall2 (fun a bc => P a (fst bc) /\ Q (fst bc) (snd bc)) la (combine lb lc).
Proof.
  intros H. revert lc. induction H as [|a b la lb Hab _ IH]; intros lc Hq;
    inversion Hq; subst; simpl; constructor; auto.
Qed.

Lemma map_fst_combine_eq {A B} (l : list A) (l' : list B) :
  length l = length l' -> map fst (combine l l') = l.
Proof.
  revert l'. induction l as [|a l IH]; intros [|b l'] H; simpl in *;
    try discriminate; [reflexivity|].
  f_equal. apply IH. lia.
Qed.

Lemma Row_render_inv items s r :
  Forall good_render items ->
  fst (Row_render items s) = Ok r ->
  exists rws,
    rws <> [] /\
    Forall2 (fun m rw => fst (m s) = Ok (fst rw) /\ rect_out (fst rw) (snd rw))
            items rws /\
    lines r <> [] /\
    all_length (list_sum (map snd rws)) (lines r) /\
    baseline r = list_max (map (fun rw => baseline (fst rw)) rws) /\
    length (lines r)
    = list_max (map (fun rw => baseline r - baseline (fst rw)
                               + length (lines (fst rw))) rws) /\
    forall c, cursor r = Some c ->
      exists pre rw post ci,
        rws = pre ++ rw :: post /\ cursor (fst rw) = Some ci /\
        Forall (fun rw => cursor (fst rw) = None) post /\
        c = mkScreenOffset (row ci + baseline r - baseline (fst rw))
                           (col ci + list_sum (map snd pre)).
Proof.
  intros Hgood H.
  assert (Hpure : forall m, In m items -> pure_comp m).
  { intros m Hm. rewrite Forall_forall in Hgood. apply (Hgood m Hm). }
  unfold Row_render in H.
  rewrite bind_pure_unfold in H
    by (apply pure_mapM; intros; apply pure_width_of; auto).
  destruct (fst (mapM width_of items s)) as [widths|] eqn:Ew; [|discriminate].
  rewrite bind_pure_unfold in H by (apply pure_mapM; auto).
  destruct (fst (mapM (fun x => x) items s)) as [rs|] eqn:Er; [|discriminate].
  pose proof (Row_items_rect _ Hgood Ew Er) as Hrect.
  pose proof (Forall2_length_eq Hrect) as Hlenrw.
  pose proof (mapM_ok _ _ _ Hpure Er) as Hrs. cbv beta in Hrs.
  destruct rs as [|r0 rs]; [discriminate|].
  remember (r0 :: rs) as rs0 eqn:Hrs0.
  remember (list_max (map baseline rs0)) as base eqn:Hbase.
  bind_inv H as padded Ep.
  pose proof (Row_baseline_loop_heights _ _ _ _ _ Ep) as Hheights.
  pose proof (fun c => @Row_baseline_loop_cursor _ _ _ _ _ _ c Ep) as Hcursor.
  apply Row_baseline_loop_ok in Ep; [|now apply Forall2_combine_Forall].
  rewrite map_snd_combine_eq in Ep by assumption.
  bind_inv H as out Eout. ret_inv H.
  apply mapM_ok in Eout; [|intros; apply pure_Row_output_row].
  set (pl := map fst (fst padded)) in *.
  set (pc := map snd (fst padded)) in *.
  assert (Hmax : list_max (map (@length _) pc) = list_max (map (@length _) pl)).
  { f_equal. subst pl pc. rewrite !map_map.
    clear -Ep. induction Ep as [|lc w ? ? (_ & Hlen & _) _ IH]; simpl;
      [reflexivity | now rewrite Hlen, IH]. }
  assert (Hpos : 1 <= list_max (map (@length _) pl)).
  { subst pl. subst rs0. inversion Hrect as [|? w0 ? ws H0 Hrest]; subst.
    inversion Ep as [|lc ? pads ? (Hne & _ & _) _]; subst.
    simpl. destruct (fst lc); [contradiction|].
    simpl.
    match goal with |- 1 <= match ?x with _ => _ end => destruct x; lia end. }
  assert (Hlen : length out = list_max (map (@length _) pl)).
  { apply Forall2_length_eq in Eout. rewrite <- Eout, length_combine.
    rewrite !zip_longest_length, Hmax. apply Nat.min_id. }
  exists (combine rs0 widths). cbn [lines baseline cursor].
  rewrite map_snd_combine_eq by assumption.
  assert (Hbl : map (fun rw : RenderOutput * nat => baseline (fst rw)) (combine rs0 widths)
                = map baseline rs0).
  { rewrite <- (map_map fst baseline). now rewrite map_fst_combine_eq. }
  split; [|split; [|split; [|split; [|split; [|split]]]]].
  - subst rs0. destruct widths; [discriminate|]. discriminate.
  - apply (@Forall2_combine _ _ _ (fun (m : M RenderOutput) r => fst (m s) = Ok r) rect_out);
      assumption.
  - intros Heq. apply (f_equal (@length _)) in Heq.
    rewrite length_map in Heq. simpl in Heq. lia.
  - unfold all_length. rewrite Forall_map.
    assert (Hrows : forall lc,
               In lc (combine (zip_longest pl []) (zip_longest pc [])) ->
               exists i, fst lc = map (fun l => nth i l []) pl).
    { intros [l c] Hin. apply in_combine_l in Hin.
      apply zip_longest_In in Hin. exact Hin. }
    clear Hlen.
    induction Eout as [|lc o rows out Ho _ IH]; constructor.
    + apply Row_output_row_ok in Ho. rewrite Ho.
      destruct (Hrows lc) as [i ->]; [now left|].
      subst pl. now apply Row_line_length.
    + apply IH. intros; apply Hrows; now right.
  - now rewrite Hbl.
  - rewrite length_map, Hlen. f_equal. subst pl. rewrite map_map.
    clear -Hheights. induction Hheights as [|lc rw ? ? Hh _ IH]; simpl;
      [reflexivity|now rewrite Hh, IH].
  - intros c Hc. destruct (Hcursor c Hc) as [[Hacc _]|Hfound]; [discriminate|].
    exact Hfound.
Qed.

(** *** What a render looks like *)

Lemma rect_width (e : Expression) s r w :
  fst (render e s) = Ok r -> lines r <> [] -> all_length w (lines r) ->
  fst (width e s) = Ok w.
Proof.
  intros H Hne Hall. apply width_of_ok; [apply render_pure|]. exists r. auto.
Qed.

Lemma nth_error_map_Some {A B} (f : A -> B) l i a :
  nth_error l i = Some a -> nth_error (map f l) i = Some (f a).
Proof. intros H. rewrite nth_error_map, H. reflexivity. Qed.

(** X19: the layout of a fraction.  When [Fraction.render] returns, the
    numerator and the denominator rendered; the fraction is two columns
    wider than the wider of them and has their rows and one more, the bar;
    the bar is the baseline row, a full-width run of the bar glyph colored
    with the fraction color; above it are the lines of the numerator and
    below it the lines of the denominator, each centered in the width. *)
Theorem fraction_bar_is_the_baseline_row (n d : Expression) (s : State)
    (r : RenderOutput) :
  fst (render (Fraction n d) s) = Ok r ->
  exists rn rd nw dw,
    fst (render n s) = Ok rn /\ fst (render d s) = Ok rd /\
    fst (width n s) = Ok nw /\ fst (width d s) = Ok dw /\
    fst (width (Fraction n d) s) = Ok (2 + Nat.max nw dw) /\
    length (lines r) = length (lines rn) + 1 + length (lines rd) /\
    baseline r = length (lines rn) /\
    nth_error (lines r) (baseline r) = Some (repeat HBAR (2 + Nat.max nw dw)) /\
    nth_error (colors r) (baseline r)
    = Some (repeat (Ansi FRAC_COLOR) (2 + Nat.max nw dw)) /\
    (forall i l, nth_error (lines rn) i = Some l ->
                 nth_error (lines r) i = Some (str_align l (2 + Nat.max nw dw))) /\
    (forall i l, nth_error (lines rd) i = Some l ->
                 nth_error (lines r) (baseline r + 1 + i)
                 = Some (str_align l (2 + Nat.max nw dw))).
Proof.
  intros H. pose proof H as H'. cbn [render] in H'.
  apply Fraction_render_inv in H'; try apply render_good.
  destruct H' as (rn & rd & nw & dw & Ern & Erd & (Hn_ne & Hn_col & Hn_all)
                  & (Hd_ne & Hd_col & Hd_all) & Hlines & (nc & dc & Hcolors & Hnc)
                  & Hbase & _).
  exists rn, rd, nw, dw.
  split; [assumption|]. split; [assumption|].
  split; [now apply (rect_width n s Ern)|]. split; [now apply (rect_width d s Erd)|].
  assert (Hbar : nth_error (lines r) (baseline r)
                 = Some (repeat HBAR (2 + Nat.max nw dw))).
  { rewrite Hlines, Hbase, nth_error_app2 by (rewrite length_map; lia).
    rewrite length_map, Nat.sub_diag. reflexivity. }
  split.
  { destruct (render_good (Fraction n d)) as [_ Hg].
    destruct (Hg s r H) as (w' & Hne & _ & Hall).
    assert (w' = 2 + Nat.max nw dw) as <-; [|now apply (rect_width _ s H)].
    apply nth_error_In in Hbar. unfold all_length in Hall.
    rewrite Forall_forall in Hall. rewrite <- (Hall _ Hbar). apply repeat_length. }
  split; [rewrite Hlines, !length_app, !length_map; simpl; lia|].
  split; [assumption|]. split; [assumption|]. split; [|split].
  - rewrite Hcolors, Hbase, nth_error_app2 by lia.
    rewrite Hnc, Nat.sub_diag. reflexivity.
  - intros i l Hi. rewrite Hlines, nth_error_app1.
    + exact (@nth_error_map_Some _ _ (fun l => str_align l (2 + Nat.max nw dw)) _ _ _ Hi).
    + rewrite length_map. apply nth_error_Some. congruence.
  - intros i l Hi. rewrite Hlines, Hbase, nth_error_app2 by (rewrite length_map; lia).
    rewrite length_map.
    replace (length (lines rn) + 1 + i - length (lines rn)) with (S i) by lia.
    cbn [app nth_error].
    exact (@nth_error_map_Some _ _ (fun l => str_align l (2 + Nat.max nw dw)) _ _ _ Hi).
Qed.

(** X20: the layout of a parenthesis.  When [Parenthesis.render] returns,
    the wrapped expression rendered and exposed a cursor; the output has
    the same number of rows and is two columns wider; each line is the
    line of the wrapped expression between a left and a right bracket
    glyph (the plain brackets on one row; top, middle and bottom pieces
    on several); the cursor moves one column to the right. *)
Theorem parenthesis_wraps_every_line (x : Expression) (s : State)
    (r : RenderOutput) :
  fst (render (Parenthesis x) s) = Ok r ->
  exists rx w cur,
    fst (render x s) = Ok rx /\ fst (width x s) = Ok w /\
    cursor rx = Some cur /\
    fst (width (Parenthesis x) s) = Ok (w + 2) /\
    length (lines r) = length (lines rx) /\
    baseline r = (if length (lines rx) =? 1 then 0 else baseline rx) /\
    cursor r = Some (mkScreenOffset (row cur) (col cur + 1)) /\
    forall i l,
      nth_error (lines rx) i = Some l ->
      nth_error (lines r) i
      = Some (if length (lines rx) =? 1 then [LPAREN] ++ l ++ [RPAREN]
              else [if i =? 0 then LPAREN_TOP
                    else if i <? length (lines rx) - 1 then LPAREN_MID
                    else LPAREN_BOT]
                   ++ l
                   ++ [if i =? 0 then RPAREN_TOP
                       else if i <? length (lines rx) - 1 then RPAREN_MID
                       else RPAREN_BOT]).
Proof.
  intros H. pose proof H as H'. cbn [render] in H'.
  apply Parenthesis_render_inv in H'; [|apply render_good].
  destruct H' as (rx & w & cur & Erx & (Hne & Hcol & Hall) & Hcur & Hall' & Hlen
                  & Hbase & Hcursor & Hnth).
  exists rx, w, cur.
  split; [assumption|]. split; [now apply (rect_width x s Erx)|].
  split; [assumption|]. split.
  { apply (rect_width _ s H); [|assumption].
    intros E. rewrite E in Hlen. destruct (lines rx); [contradiction|discriminate]. }
  auto.
Qed.

Lemma Forall2_map_left {A B C} (f : A -> B) (P : B -> C -> Prop) l l' :
  Forall2 P (map f l) l' -> Forall2 (fun a c => P (f a) c) l l'.
Proof.
  revert l'. induction l as [|a l IH]; intros l' H; inversion H; subst;
    constructor; auto.
Qed.

(** X21: the layout of a row.  When [Row.render] returns, every item
    rendered; the row is as wide as its items together; its baseline is
    the largest baseline of an item; every item is moved down until its
    baseline is the baseline of the row, and the row has as many rows as
    the deepest item then needs; the cursor the row exposes is the cursor
    of the last item that exposes one, moved down like the item and right
    by the widths of the items before it. *)
Theorem row_aligns_the_baselines (items : list Expression) (s : State)
    (r : RenderOutput) :
  fst (render (Row items) s) = Ok r ->
  exists rws : list (RenderOutput * nat),
    Forall2 (fun item rw => fst (render item s) = Ok (fst rw) /\
                            fst (width item s) = Ok (snd rw)) items rws /\
    fst (width (Row items) s) = Ok (list_sum (map snd rws)) /\
    baseline r = list_max (map (fun rw => baseline (fst rw)) rws) /\
    length (lines r)
    = list_max (map (fun rw => baseline r - baseline (fst rw)
                               + length (lines (fst rw))) rws) /\
    (cursor r = None <-> Forall (fun rw => cursor (fst rw) = None) rws) /\
    forall c, cursor r = Some c ->
      exists pre rw post ci,
        rws = pre ++ rw :: post /\ cursor (fst rw) = Some ci /\
        Forall (fun rw => cursor (fst rw) = None) post /\
        c = mkScreenOffset (row ci + baseline r - baseline (fst rw))
                           (col ci + list_sum (map snd pre)).
Proof.
  intros H. pose proof H as H'. cbn [render] in H'.
  apply Row_render_inv in H'.
  2:{ rewrite Forall_map. apply Forall_forall. intros; apply render_good. }
  destruct H' as (rws & Hne & Hitems & Hlines & Hall & Hbase & Hheight & Hcursor).
  apply Forall2_map_left in Hitems.
  exists rws. split; [|split; [|split; [|split; [|split]]]]; try assumption.
  - revert Hitems. apply Forall2_impl. intros item rw [Hr (Hn & _ & Ha)].
    split; [assumption|]. now apply (rect_width item s Hr).
  - now apply (rect_width _ s H).
  - split.
    + intros Hnone. apply Forall_forall. intros rw Hin.
      destruct (cursor (fst rw)) as [ci|] eqn:Eci; [|reflexivity]. exfalso.
      (* the last item with a cursor gives the row one *)
      clear -Hnone H Hitems Hin Eci.
      pose proof (render_returns_only_on_renderable _ _ H) as Hren.
      destruct (@render_returns_rect U (Row items) s Hren) as (r' & w & (Hrun & _) & Hiff).
      rewrite H in Hrun. injection Hrun as <-.
      apply Hiff in Hnone. apply Hnone. apply has_owner_Row.
      apply Exists_exists.
      apply In_nth_error in Hin. destruct Hin as [k Hk].
      assert (Hitem : exists item, nth_error items k = Some item /\
                                   fst (render item s) = Ok (fst rw)).
      { clear -Hitems Hk. revert k Hk.
        induction Hitems as [|item rw' items rws [Hr _] _ IH]; intros k Hk;
          [now destruct k|].
        destruct k as [|k]; simpl in Hk.
        - injection Hk as ->. exists item. auto.
        - destruct (IH k Hk) as (it & Hit & Hrit). exists it. auto. }
      destruct Hitem as (item & Hitem & Hr).
      exists item. split; [eapply nth_error_In; eassumption|].
      pose proof (render_returns_only_on_renderable _ _ Hr) as Hren'.
      destruct (@render_returns_rect U item s Hren') as (ri & wi & (Hri & _) & Hiffi).
      rewrite Hr in Hri. injection Hri as <-.
      destruct (owner_or_none (heap s) (text_refs item)) as [Hno|Hyes]; [|exact Hyes].
      exfalso. assert (Hc : cursor (fst rw) = None).
      { apply Hiffi. intros (q & Hq & Hown). apply Hown. now apply Hno. }
      congruence.
    + intros Hnone. destruct (cursor r) as [c|] eqn:Ec; [|reflexivity].
      destruct (Hcursor c eq_refl) as (pre & rw & post & ci & -> & Hci & _).
      rewrite Forall_forall in Hnone. rewrite Hnone in Hci; [discriminate|].
      apply in_or_app. right. now left.
Qed.

(** *** The cursor of a render *)

Lemma list_max_In l : l <> [] -> In (list_max l) l.
Proof.
  induction l as [|a l IH]; [contradiction|]. intros _.
  change (list_max (a :: l)) with (Nat.max a (list_max l)).
  destruct l as [|b l].
  - left. simpl. lia.
  - destruct (Nat.max_dec a (list_max (b :: l))) as [E|E]; rewrite E.
    + now left.
    + right. apply IH. discriminate.
Qed.

Lemma list_max_ge l x : In x l -> x <= list_max l.
Proof.
  intros Hin. pose proof (proj1 (list_max_le l (list_max l)) (Nat.le_refl _)) as H.
  rewrite Forall_forall in H. now apply H.
Qed.

Lemma half_le_all k : k / 2 <= k.
Proof. pose proof (half_le k). lia. Qed.

Lemma cursor_inside_unique r w w' :
  rect_out r w -> rect_out r w' -> cursor_inside r w' -> cursor_inside r w.
Proof.
  intros (Hne & _ & Hall) (_ & _ & Hall') Hin.
  now rewrite (all_length_unique Hne Hall Hall').
Qed.

Lemma within_Fraction h n d :
  cursors_within_text h (Fraction n d) ->
  cursors_within_text h n /\ cursors_within_text h d.
Proof.
  intros H. split; intros r cur Hr Hc; apply H; try assumption;
    rewrite text_refs_Fraction; apply in_or_app; auto.
Qed.

Lemma first_row_Fraction h n d :
  cursors_on_first_row h (Fraction n d) ->
  cursors_on_first_row h n /\ cursors_on_first_row h d.
Proof.
  intros H. split; intros r cur Hr Hc; apply (H r cur); try assumption;
    rewrite text_refs_Fraction; apply in_or_app; auto.
Qed.

Lemma within_Row h items item :
  cursors_within_text h (Row items) -> In item items ->
  cursors_within_text h item.
Proof.
  intros H Hin r cur Hr Hc. apply H; [|assumption].
  rewrite text_refs_Row. apply in_flat_map. eauto.
Qed.

Lemma first_row_Row h items item :
  cursors_on_first_row h (Row items) -> In item items ->
  cursors_on_first_row h item.
Proof.
  intros H Hin r cur Hr Hc. apply (H r cur); [|assumption].
  rewrite text_refs_Row. apply in_flat_map. eauto.
Qed.

Lemma rect_out_width e s r w :
  fst (render e s) = Ok r -> lines r <> [] -> all_length w (lines r) ->
  rect_out r w.
Proof.
  intros H Hne Hall. destruct (render_good e) as [_ Hg].
  destruct (Hg s r H) as (w' & Hne' & Hcol & Hall').
  now rewrite (all_length_unique Hne Hall Hall').
Qed.

Lemma render_cursor_inside e s :
  cursors_within_text (heap s) e -> cursors_on_first_row (heap s) e ->
  forall r, fst (render e s) = Ok r ->
            exists w, rect_out r w /\ cursor_inside r w.
Proof.
  induction e as [self|items IH|n d IHn IHd|x IHx] using Expression_induction;
    intros Hin Hrow r H; pose proof H as H0.
  - cbn [render] in H. unfold Text_render in H.
    bind_inv H as text Et. bind_inv H as cur Ec. ret_inv H.
    injection Et as <-. injection Ec as <-.
    exists (length (self_text (heap s self))). split.
    + repeat split; simpl; [discriminate|repeat constructor].
    + split; [simpl; lia|]. cbn [cursor lines length]. intros cur Hc.
      assert (Hself : In self (text_refs (Text self))) by now left.
      rewrite (Hrow self cur Hself Hc). split; [lia|]. now apply Hin.
  - cbn [render] in H. apply Row_render_inv in H.
    2:{ rewrite Forall_map. apply Forall_forall. intros; apply render_good. }
    destruct H as (rws & Hne & Hitems & Hlines & Hall & Hbase & Hheight & Hcursor).
    apply Forall2_map_left in Hitems.
    assert (Hinside : Forall (fun rw => cursor_inside (fst rw) (snd rw)) rws).
    { assert (Hval : forall item, In item items ->
                       cursors_within_text (heap s) item /\
                       cursors_on_first_row (heap s) item).
      { intros item Hitem. split;
          [eapply within_Row | eapply first_row_Row]; eassumption. }
      clear -IH Hitems Hval.
      induction Hitems as [|item rw items rws [Hr Hrect] _ IHf]; constructor.
      - inversion IH as [|? ? Hitem _]; subst.
        destruct (Hval item (or_introl eq_refl)) as [Hw Hf].
        destruct (Hitem Hw Hf _ Hr) as (w' & Hrect' & Hin').
        eapply cursor_inside_unique; eassumption.
      - apply IHf; [now inversion IH|]. intros; apply Hval; now right. }
    rewrite Forall_forall in Hinside.
    exists (list_sum (map snd rws)).
    split; [now apply (rect_out_width _ s H0)|].
    split.
    + assert (Hb : In (baseline r) (map (fun rw => baseline (fst rw)) rws)).
      { rewrite Hbase. apply list_max_In. destruct rws; [contradiction|discriminate]. }
      apply in_map_iff in Hb. destruct Hb as (rw0 & Hb0 & Hrw0).
      destruct (Hinside rw0 Hrw0) as [Hlt _].
      assert (Hge : baseline r - baseline (fst rw0) + length (lines (fst rw0))
                    <= length (lines r)).
      { rewrite Hheight. apply list_max_ge.
        apply (in_map (fun rw => baseline r - baseline (fst rw)
                                 + length (lines (fst rw)))). exact Hrw0. }
      lia.
    + intros c Hc.
      destruct (Hcursor c Hc) as (pre & rw & post & ci & Hsplit & Hci & _ & ->).
      assert (Hrw : In rw rws).
      { rewrite Hsplit. apply in_or_app. right. now left. }
      destruct (Hinside rw Hrw) as [Hlt Hcur]. destruct (Hcur ci Hci) as [Hr Hcl].
      assert (Hble : baseline (fst rw) <= baseline r).
      { rewrite Hbase at 1. apply list_max_ge.
        apply (in_map (fun rw => baseline (fst rw))). exact Hrw. }
      assert (Hge : baseline r - baseline (fst rw) + length (lines (fst rw))
                    <= length (lines r)).
      { rewrite Hheight. apply list_max_ge.
        apply (in_map (fun rw => baseline r - baseline (fst rw)
                                 + length (lines (fst rw)))). exact Hrw. }
      cbn [row col]. split; [lia|].
      rewrite Hsplit, map_app, list_sum_app. cbn [map list_sum fold_right]. lia.
  - cbn [render] in H. apply Fraction_render_inv in H; try apply render_good.
    destruct H as (rn & rd & nw & dw & Ern & Erd & Hrn & Hrd & Hlines & _ & Hbase & Hcursor).
    destruct (within_Fraction Hin) as [Hin_n Hin_d].
    destruct (first_row_Fraction Hrow) as [Hrow_n Hrow_d].
    destruct (IHn Hin_n Hrow_n _ Ern) as (nw' & Hrn' & Hinside_n).
    destruct (IHd Hin_d Hrow_d _ Erd) as (dw' & Hrd' & Hinside_d).
    apply (cursor_inside_unique Hrn Hrn') in Hinside_n.
    apply (cursor_inside_unique Hrd Hrd') in Hinside_d.
    destruct Hinside_n as [_ Hcn]. destruct Hinside_d as [_ Hcd].
    assert (Hlen : length (lines r) = length (lines rn) + 1 + length (lines rd)).
    { rewrite Hlines, !length_app, !length_map. simpl. lia. }
    destruct (render_good (Fraction n d)) as [_ Hg].
    destruct (Hg s r H0) as (w' & Hne' & Hcol' & Hall').
    assert (w' = 2 + Nat.max nw dw) as ->.
    { assert (Hbar : In (repeat HBAR (2 + Nat.max nw dw)) (lines r)).
      { rewrite Hlines. apply in_or_app. right. now left. }
      unfold all_length in Hall'. rewrite Forall_forall in Hall'.
      rewrite <- (Hall' _ Hbar). apply repeat_length. }
    exists (2 + Nat.max nw dw). split; [repeat split; assumption|]. split.
    + lia.
    + intros c Hc. rewrite Hcursor in Hc.
      pose proof (half_le_all (2 + Nat.max nw dw - dw)).
      pose proof (half_le_all (2 + Nat.max nw dw - nw)).
      destruct (cursor rd) as [cd|].
      * assert (Hceq : c = mkScreenOffset (row cd + length (lines rn) + 1)
                                          (col cd + (2 + Nat.max nw dw - dw) / 2))
          by congruence.
        rewrite Hceq. destruct (Hcd cd eq_refl). cbn [row col]. lia.
      * destruct (cursor rn) as [cn|]; [|discriminate].
        assert (Hceq : c = mkScreenOffset (row cn)
                                          (col cn + (2 + Nat.max nw dw - nw) / 2))
          by congruence.
        rewrite Hceq. destruct (Hcn cn eq_refl). cbn [row col]. lia.
  - cbn [render] in H. apply Parenthesis_render_inv in H; [|apply render_good].
    destruct H as (rx & w & cur & Erx & Hrx & Hcur & Hall' & Hlen & Hbase & Hcursor & _).
    assert (Hin_x : cursors_within_text (heap s) x) by exact Hin.
    assert (Hrow_x : cursors_on_first_row (heap s) x) by exact Hrow.
    destruct (IHx Hin_x Hrow_x _ Erx) as (w' & Hrx' & Hinside).
    apply (cursor_inside_unique Hrx Hrx') in Hinside.
    destruct Hinside as [Hblt Hc]. destruct (Hc cur Hcur) as [Hr Hcl].
    destruct Hrx as (Hne & _ & _).
    exists (w + 2). split.
    + apply (rect_out_width _ s H0); [|assumption].
      intros E. rewrite E in Hlen. destruct (lines rx); [contradiction|discriminate].
    + split.
      * rewrite Hbase, Hlen. destruct (length (lines rx) =? 1) eqn:E1; [|assumption].
        apply Nat.eqb_eq in E1. lia.
      * intros c Hc'. rewrite Hcursor in Hc'. injection Hc' as <-.
        cbn [row col]. lia.
Qed.

(** X22: the cursor a render exposes is a position of the rendered
    rectangle.  When every cursor of the tree is on the row of its text
    and within the text, a render that returns has its baseline on one of
    its rows, and its cursor, if any, on one of its rows at a column from
    zero to the width. *)
Theorem render_keeps_the_cursor_inside (e : Expression) (s : State)
    (r : RenderOutput) :
  cursors_within_text (heap s) e -> cursors_on_first_row (heap s) e ->
  fst (render e s) = Ok r ->
  exists w,
    fst (width e s) = Ok w /\ all_length w (lines r) /\
    baseline r < length (lines r) /\
    forall cur, cursor r = Some cur ->
                row cur < length (lines r) /\ col cur <= w.
Proof.
  intros Hin Hrow H.
  destruct (@render_cursor_inside e s Hin Hrow _ H) as (w & (Hne & _ & Hall) & Hb & Hc).
  exists w. split; [now apply (rect_width e s H)|]. auto.
Qed.

(** *** A row of one item *)

Lemma list_align_exact c w : length c = w -> list_align c w = Ok c.
Proof.
  intros Hc. unfold list_align. destruct (Nat.eqb_spec w 0) as [->|Hw].
  - now destruct c.
  - destruct w as [|w]; [contradiction|]. cbn [list_align_loop].
    replace (length c <? S w) with false by (symmetry; apply Nat.ltb_ge; lia).
    now rewrite Hc, Nat.eqb_refl.
Qed.

Lemma bind_ret_l {A B} (a : A) (f : A -> M B) s : bind (ret a) f s = f a s.
Proof. reflexivity. Qed.

Lemma map_nth_seq {A} (l : list A) d :
  map (fun i => nth i l d) (seq 0 (length l)) = l.
Proof.
  induction l as [|a l IH]; [reflexivity|].
  cbn [length seq map nth]. f_equal.
  rewrite <- seq_shift, map_map. exact IH.
Qed.

Lemma Forall2_map_seq {A B} (R : A -> B -> Prop) (f : nat -> A) (g : nat -> B) n :
  (forall i, i < n -> R (f i) (g i)) ->
  Forall2 R (map f (seq 0 n)) (map g (seq 0 n)).
Proof.
  intros H. assert (Hs : forall i, In i (seq 0 n) -> R (f i) (g i)).
  { intros i Hi. apply in_seq in Hi. apply H. lia. }
  clear H. induction (seq 0 n) as [|i l IH]; simpl; constructor.
  - apply Hs. now left.
  - apply IH. intros; apply Hs; now right.
Qed.

(** X23: a row of one item renders as the item: [Row([x]).render()] returns
    what [x.render()] returns, the same lines, colors, baseline and
    cursor. *)
Theorem row_of_one_item_renders_as_the_item (x : Expression) (s : State)
    (r : RenderOutput) :
  fst (render x s) = Ok r -> fst (render (Row [x]) s) = Ok r.
Proof.
  intros H.
  pose proof (@render_returns_only_on_renderable U x s r H) as Hren.
  destruct (@render_returns_rect U x s Hren)
    as (r' & w & (Hrun & (Hne & Hlen & Hall) & Hcol) & _).
  rewrite H in Hrun. injection Hrun as <-.
  assert (Hw : fst (width_of (render x) s) = Ok w).
  { apply width_of_ok; [apply render_pure|]. exists r. auto. }
  assert (Hws : fst (mapM width_of [render x] s) = Ok [w]).
  { apply mapM_returns; [|repeat constructor; assumption].
    intros a [<-|[]]. apply pure_width_of, render_pure. }
  assert (Hrs : fst (mapM (fun m : M RenderOutput => m) [render x] s) = Ok [r]).
  { apply mapM_returns; [|repeat constructor; assumption].
    intros a [<-|[]]. apply render_pure. }
  cbn [render map]. unfold Row_render.
  rewrite bind_pure_unfold
    by (apply pure_mapM; intros a [<-|[]]; apply pure_width_of, render_pure).
  rewrite Hws.
  rewrite bind_pure_unfold by (apply pure_mapM; intros a [<-|[]]; apply render_pure).
  rewrite Hrs.
  cbn [map list_max fold_right combine Row_baseline_loop].
  rewrite Nat.max_0_r, Nat.sub_diag. cbn [Row_top_padding].
  rewrite bind_pure_unfold by pure_solve.
  rewrite !bind_ret_l. cbn [ret fst snd map].
  unfold zip_longest. cbn [map list_max fold_right].
  rewrite !Nat.max_0_r, Hlen, combine_map_same.
  assert (Hout : fst (mapM (Row_output_row [w])
                        (map (fun i => ([nth i (lines r) []], [nth i (colors r) []]))
                             (seq 0 (length (lines r)))) s)
                 = Ok (map (fun i => (nth i (lines r) [], nth i (colors r) []))
                           (seq 0 (length (lines r))))).
  { apply mapM_returns; [intros; apply pure_Row_output_row|].
    apply Forall2_map_seq. intros i Hi.
    unfold Row_output_row. cbn [fst snd combine map mapM].
    assert (Hci : length (nth i (colors r) []) = w).
    { unfold colors_ok in Hcol. rewrite Forall_forall in Hcol.
      apply Hcol, nth_In. lia. }
    assert (Hli : length (nth i (lines r) []) = w).
    { unfold all_length in Hall. rewrite Forall_forall in Hall.
      apply Hall, nth_In. lia. }
    rewrite (list_align_exact _ Hci), (str_align_same _ Hli).
    cbn. now rewrite !app_nil_r. }
  bind_run Hout. cbn [ret fst]. f_equal.
  rewrite !map_map. cbn [fst snd].
  rewrite map_nth_seq. rewrite <- Hlen at 1. rewrite map_nth_seq.
  destruct r as [ls cs b c]. cbn [lines colors baseline cursor]. f_equal.
  destruct c as [[rw cl]|]; [|reflexivity]. cbn [row col]. do 2 f_equal; lia.
Qed.

End Geometry.

(** ** The row of a cursor *)

Lemma rows_bind {A B} (m : M A) (f : A -> M B) :
  keeps_rows m -> (forall a, keeps_rows (f a)) -> keeps_rows (bind m f).
Proof.
  intros Hm Hf s r cur' H. rewrite bind_unfold in H.
  specialize (Hm s r). destruct (m s) as [[a|e] s1]; cbn [snd] in *; [|auto].
  destruct (Hf a s1 r cur' H) as [H0 | (cur1 & Hc1 & Hr1)]; [now left|].
  destruct (Hm cur1 Hc1) as [H0 | (cur & Hc & Hr)]; [left; congruence|].
  right. exists cur. split; [assumption|congruence].
Qed.

Lemma rows_of_heap_pure {A} (m : M A) : heap_pure m -> keeps_rows m.
Proof. intros H s r cur' Hc. right. exists cur'. rewrite H in Hc. auto. Qed.

Lemma rows_set_text self t : keeps_rows (set_text self t).
Proof.
  intros s r cur' H. right. exists cur'. split; [|reflexivity].
  unfold set_text in H. cbn [snd heap] in H. unfold upd in H.
  destruct (Nat.eqb_spec r self) as [->|]; exact H.
Qed.

Lemma rows_set_col self v : keeps_rows (set_col self v).
Proof.
  intros s r cur' H. unfold set_col in H. rewrite bind_unfold in H.
  unfold get_cursor in H.
  destruct (self_cursor (heap s self)) as [off|] eqn:E.
  - unfold set_cursor in H. cbn [snd heap] in H. unfold upd in H.
    destruct (Nat.eqb_spec r self) as [->|].
    + cbn [self_cursor] in H. injection H as <-. right. exists off. auto.
    + right. exists cur'. auto.
  - right. exists cur'. auto.
Qed.

Lemma rows_when b (m : M unit) : keeps_rows m -> keeps_rows (when b m).
Proof.
  destruct b; [auto|]. intros _. apply rows_of_heap_pure, heap_pure_of_pure, pure_ret.
Qed.

Ltac rows_step :=
  match goal with
  | |- keeps_rows (bind _ _) => apply rows_bind; [| intros ]
  | |- keeps_rows (eprint _) => apply rows_of_heap_pure; intros ?; reflexivity
  | |- keeps_rows (set_text _ _) => apply rows_set_text
  | |- keeps_rows (set_col _ _) => apply rows_set_col
  | |- keeps_rows (get_col _) =>
    apply rows_of_heap_pure, heap_pure_of_pure, pure_get_col
  | |- keeps_rows (get_text _) =>
    apply rows_of_heap_pure, heap_pure_of_pure, pure_get_text
  | |- keeps_rows (assert _) =>
    apply rows_of_heap_pure, heap_pure_of_pure, pure_assert
  | |- keeps_rows (ret _) =>
    apply rows_of_heap_pure, heap_pure_of_pure, pure_ret
  | |- keeps_rows (raise _) =>
    apply rows_of_heap_pure, heap_pure_of_pure, pure_raise
  | |- keeps_rows (when _ _) => apply rows_when
  | |- keeps_rows (match ?x with _ => _ end) => destruct x
  end.

Lemma rows_moved h self target c r cur' :
  self_cursor (moved h self target c r) = Some cur' ->
  row cur' = 0 \/ exists cur, self_cursor (h r) = Some cur /\ row cur = row cur'.
Proof.
  unfold moved. intros H. destruct (Nat.eq_dec r target) as [->|Ht].
  - rewrite upd_same in H. injection H as <-. now left.
  - rewrite upd_other in H by assumption.
    destruct (Nat.eq_dec r self) as [->|Hs].
    + rewrite upd_same in H. discriminate.
    + rewrite upd_other in H by assumption. right. exists cur'. auto.
Qed.

Section Rows.
Context {U : UnicodeData}.

Lemma rows_go_up self rs : keeps_rows (go_up self rs).
Proof.
  intros s r cur' H. destruct (go_up_heap self rs s) as [E | (P & c & E)];
    rewrite E in H; [right; exists cur'; auto | eapply rows_moved; eassumption].
Qed.

Lemma rows_go_down self rs : keeps_rows (go_down self rs).
Proof.
  intros s r cur' H. destruct (go_down_heap self rs s) as [E | (P & c & E)];
    rewrite E in H; [right; exists cur'; auto | eapply rows_moved; eassumption].
Qed.

Lemma rows_Text_press_key_fuel n L key rs :
  keeps_rows (Text_press_key_fuel n L key rs).
Proof.
  revert key rs. induction n as [|n IH]; intros key rs.
  - apply rows_of_heap_pure, heap_pure_of_pure, pure_raise.
  - cbn [Text_press_key_fuel]. unfold Text_press_key_body.
    rows_step; [apply rows_of_heap_pure, heap_pure_of_pure, pure_get_cursor|].
    destruct a as [cur|]; [|rows_step].
    destruct (is_None rs && (str_eqb key key_UP || str_eqb key key_DOWN));
      [repeat rows_step|].
    repeat rows_step.
    + unfold insert_key. repeat rows_step.
    + unfold erase_backward. repeat rows_step.
    + unfold move_left. repeat rows_step. apply IH.
    + unfold move_right. rows_step; [rows_step|].
      rows_step; [apply rows_of_heap_pure, heap_pure_of_pure, width_pure|].
      repeat rows_step. apply IH.
    + apply rows_go_up.
    + apply rows_go_down.
Qed.

(** X24: a key leaves every cursor on the row it was on or puts it on row
    zero: when every cursor of the tree is on the row of its text before a
    key, any key, it is so afterwards, whether [press_key] returned or
    raised. *)
Theorem press_key_keeps_cursors_on_first_row (root : Expression) (key : str)
    (s : State) :
  cursors_on_first_row (heap s) root ->
  cursors_on_first_row (heap (snd (press_key root key None s))) root.
Proof.
  intros Hrow.
  destruct (owner_or_none (heap s) (text_refs root)) as [Hnone|Hsome].
  - now rewrite press_key_without_owner.
  - destruct (@first_owner_split (heap s) (text_refs root) Hsome)
      as (l1 & L & l2 & Hrefs & Hl1 & HL).
    erewrite press_key_reaches_owner by eassumption.
    intros r cur' Hr Hc.
    destruct (@rows_Text_press_key_fuel 2 L key (root_seen_from_leaf root) s r cur' Hc)
      as [H0 | (cur & Hcur & Hrw)]; [assumption|].
    rewrite <- Hrw. now apply (Hrow r cur).
Qed.

End Rows.

(** ** Typing *)

Section Typing.
Context {U : UnicodeData}.

Lemma press_printable root l1 L l2 key s cur :
  text_refs root = l1 ++ L :: l2 ->
  (forall r, In r l1 -> self_cursor (heap s r) = None) ->
  self_cursor (heap s L) = Some cur ->
  isprintable key = true ->
  exists h',
    press_key root key None s = (Ok true, mkState h' (stderr s ++ [D_INSERT key])) /\
    h' L = mkText (firstn (col cur) (self_text (heap s L)) ++ key
                   ++ skipn (col cur) (self_text (heap s L)))
                  (Some (mkScreenOffset (row cur) (col cur + 1))) /\
    forall r, r <> L -> h' r = heap s r.
Proof.
  intros Hrefs Hl1 Hc Hp.
  assert (Hown : owns_cursor (heap s) L) by (unfold owns_cursor; congruence).
  erewrite press_key_reaches_owner by eassumption.
  destruct (printable_not_special key Hp) as (HB & HL & HR & HU & HD).
  unfold Text_press_key. cbn [Text_press_key_fuel].
  erewrite body_other by eassumption. rewrite Hp. cbn [when].
  rewrite bind_unfold.
  destruct (insert_key_run L key s Hc) as (h' & -> & Hself & Hother).
  exists h'. auto.
Qed.

Lemma typing_run root l1 L l2 (w : str) :
  text_refs root = l1 ++ L :: l2 ->
  forall s cur,
    (forall r, In r l1 -> self_cursor (heap s r) = None) ->
    self_cursor (heap s L) = Some cur ->
    col cur <= length (self_text (heap s L)) ->
    isprintable w = true ->
    let s' := snd (press_keys root (map (fun ch => [ch]) w) s) in
    fst (press_keys root (map (fun ch => [ch]) w) s) = Ok tt /\
    heap s' L
    = mkText (firstn (col cur) (self_text (heap s L)) ++ w
              ++ skipn (col cur) (self_text (heap s L)))
             (Some (mkScreenOffset (row cur) (col cur + length w))) /\
    (forall r, r <> L -> heap s' r = heap s r) /\
    stderr s' = stderr s ++ map (fun ch => D_INSERT [ch]) w.
Proof.
  intros Hrefs. induction w as [|a w IH]; intros s cur Hl1 Hc Hle Hp; cbn zeta.
  - cbn [map press_keys length app ret fst snd].
    rewrite firstn_skipn, Nat.add_0_r, app_nil_r.
    split; [reflexivity|]. split; [|auto].
    destruct (heap s L) as [t c]. simpl in *. subst c. now destruct cur.
  - cbn [map press_keys]. rewrite bind_unfold.
    unfold isprintable in Hp. cbn [forallb] in Hp.
    apply andb_true_iff in Hp. destruct Hp as [Ha Hw].
    destruct (@press_printable root l1 L l2 [a] s cur Hrefs Hl1 Hc)
      as (h' & Hrun & Hself & Hother).
    { unfold isprintable. cbn [forallb]. now rewrite Ha. }
    rewrite Hrun.
    assert (HLl1 : ~ In L l1).
    { intros Hin. apply Hl1 in Hin. congruence. }
    set (t := self_text (heap s L)) in *.
    assert (Hfl : length (firstn (col cur) t) = col cur)
      by (rewrite length_firstn; lia).
    destruct (IH (mkState h' (stderr s ++ [D_INSERT [a]]))
                 (mkScreenOffset (row cur) (col cur + 1))) as (H0 & H1 & H2 & H3).
    + cbn [heap]. intros r Hr. rewrite Hother; [now apply Hl1|].
      intros ->. contradiction.
    + cbn [heap]. now rewrite Hself.
    + cbn [heap col]. rewrite Hself. cbn [self_text].
      rewrite !length_app, length_skipn. cbn [length]. lia.
    + exact Hw.
    + cbn zeta in H1, H2, H3. cbn [heap stderr row col] in H1, H2, H3.
      rewrite Hself in H1. cbn [self_text] in H1.
      split; [exact H0|]. split; [|split].
      * rewrite H1. f_equal.
        -- rewrite firstn_app, skipn_app, Hfl.
           replace (col cur + 1 - col cur) with 1 by lia.
           rewrite (@firstn_all2 _ (col cur + 1) (firstn (col cur) t))
             by (rewrite Hfl; lia).
           rewrite (@skipn_all2 _ (col cur + 1) (firstn (col cur) t))
             by (rewrite Hfl; lia).
           cbn [firstn skipn app]. rewrite <- !app_assoc. reflexivity.
        -- cbn [length]. do 2 f_equal. lia.
      * intros r Hr. rewrite H2 by assumption. now apply Hother.
      * rewrite H3, <- app_assoc. reflexivity.
Qed.

(** X25: typing.  The printable characters of a string, delivered one key
    after the other to a tree whose focused leaf [L] has its cursor
    within its text, end up in the text of [L] at the place of the cursor,
    in order; the cursor is then right after them; the other leaves are
    as they were and one diagnostic was written for each key. *)
Theorem typing_inserts_the_string (root : Expression) (l1 l2 : list ref)
    (L : ref) (w : str) (s : State) (cur : ScreenOffset) :
  text_refs root = l1 ++ L :: l2 ->
  (forall r, In r l1 -> self_cursor (heap s r) = None) ->
  self_cursor (heap s L) = Some cur ->
  col cur <= length (self_text (heap s L)) ->
  isprintable w = true ->
  let s' := snd (press_keys root (map (fun ch => [ch]) w) s) in
  fst (press_keys root (map (fun ch => [ch]) w) s) = Ok tt /\
  heap s' L
  = mkText (firstn (col cur) (self_text (heap s L)) ++ w
            ++ skipn (col cur) (self_text (heap s L)))
           (Some (mkScreenOffset (row cur) (col cur + length w))) /\
  (forall r, r <> L -> heap s' r = heap s r) /\
  stderr s' = stderr s ++ map (fun ch => D_INSERT [ch]) w.
Proof. intros. eapply typing_run; eassumption. Qed.

(** X26: erase-backward undoes the key typed before it.  In a tree whose
    focused leaf has its cursor within its text, a printable character
    followed by erase-backward leaves every [Text] object, text and cursor,
    as it was; both keys are consumed and each writes one diagnostic. *)
Theorem erase_backward_undoes_a_typed_character (root : Expression)
    (l1 l2 : list ref) (L : ref) (ch : N) (s : State) (cur : ScreenOffset) :
  text_refs root = l1 ++ L :: l2 ->
  (forall r, In r l1 -> self_cursor (heap s r) = None) ->
  self_cursor (heap s L) = Some cur ->
  col cur <= length (self_text (heap s L)) ->
  char_isprintable ch = true ->
  let s1 := snd (press_key root [ch] None s) in
  let s2 := snd (press_key root key_BACKSPACE None s1) in
  fst (press_key root [ch] None s) = Ok true /\
  fst (press_key root key_BACKSPACE None s1) = Ok true /\
  (forall r, heap s2 r = heap s r) /\
  stderr s2 = stderr s ++ [D_INSERT [ch]; D_REMOVE ch].
Proof.
  intros Hrefs Hl1 Hc Hle Hp s1 s2. subst s2 s1.
  destruct (@press_printable root l1 L l2 [ch] s cur Hrefs Hl1 Hc)
    as (h' & Hrun & Hself & Hother).
  { unfold isprintable. cbn [forallb]. now rewrite Hp. }
  rewrite Hrun. cbn [fst snd].
  assert (HLl1 : ~ In L l1).
  { intros Hin. apply Hl1 in Hin. congruence. }
  set (s1 := mkState h' (stderr s ++ [D_INSERT [ch]])).
  assert (Hc1 : self_cursor (heap s1 L)
                = Some (mkScreenOffset (row cur) (col cur + 1))).
  { subst s1. cbn [heap]. now rewrite Hself. }
  assert (Hown1 : owns_cursor (heap s1) L) by (unfold owns_cursor; congruence).
  assert (Hl1' : forall r, In r l1 -> self_cursor (heap s1 r) = None).
  { intros r Hr. subst s1. cbn [heap]. rewrite Hother; [now apply Hl1|].
    intros ->. contradiction. }
  erewrite press_key_reaches_owner by eassumption.
  unfold Text_press_key. cbn [Text_press_key_fuel].
  erewrite body_BACKSPACE by exact Hc1. rewrite bind_unfold.
  set (t := self_text (heap s L)) in *.
  assert (Hfl : length (firstn (col cur) t) = col cur)
    by (rewrite length_firstn; lia).
  destruct (@erase_backward_inside L s1 (mkScreenOffset (row cur) (col cur + 1))
              (firstn (col cur) t) ch (skipn (col cur) t) Hc1)
    as (h2 & Hrun2 & Hself2 & Hother2).
  { subst s1. cbn [heap]. rewrite Hself. reflexivity. }
  { cbn [col]. lia. }
  rewrite Hrun2. cbn [fst snd heap stderr ret].
  split; [reflexivity|]. split; [reflexivity|]. split.
  - intros r. destruct (Nat.eq_dec r L) as [->|Hne].
    + rewrite Hself2, firstn_skipn, Hfl. cbn [row].
      subst t. destruct (heap s L) as [t c]. simpl in *. subst c. now destruct cur.
    + rewrite Hother2 by assumption. subst s1. cbn [heap]. now apply Hother.
  - subst s1. cbn [stderr]. now rewrite <- app_assoc.
Qed.

End Typing.

(** ** When a render returns *)

Section RenderErrors.
Context {U : UnicodeData}.

Ltac pure_solve :=
  repeat first
    [ apply pure_width_of | apply pure_align_space
    | apply pure_Row_top_padding | apply pure_Row_baseline_loop
    | apply pure_Row_output_row | apply pure_Parenthesis_rows
    | apply pure_Parenthesis_cursor | apply render_pure | pure_step ].

Ltac bind_run E := rewrite bind_pure_unfold by pure_solve; rewrite E.

(** X27: [render] returns exactly on the trees in which every row has an
    item, every parenthesis wraps the cursor and no fraction has a cursor
    both in its numerator and in its denominator; on every other tree it
    raises. *)
Theorem render_returns_exactly_on_renderable (e : Expression) (s : State) :
  (exists r, fst (render e s) = Ok r) <-> renderable (heap s) e.
Proof.
  split.
  - intros [r H]. eapply render_returns_only_on_renderable. exact H.
  - apply render_returns_on_renderable.
Qed.

(** X28: a render exposes a cursor exactly when a [Text] of the tree owns
    one: the cursor of a render that returns is [None] if and only if no
    leaf of the tree has a cursor. *)
Theorem render_exposes_a_cursor_exactly_with_an_owner (e : Expression)
    (s : State) (r : RenderOutput) :
  fst (render e s) = Ok r ->
  (cursor r = None <-> ~ has_owner (heap s) e).
Proof.
  intros H.
  pose proof (@render_returns_only_on_renderable U e s r H) as Hren.
  destruct (@render_returns_rect U e s Hren) as (r' & w & (Hrun & _) & Hiff).
  rewrite H in Hrun. injection Hrun as <-. exact Hiff.
Qed.

(** X29: a fraction with a cursor on both sides does not render: when the
    numerator and the denominator render and both expose a cursor,
    [Fraction.render] raises [AssertionError]. *)
Theorem fraction_with_two_cursors_raises (n d : Expression) (s : State)
    (rn rd : RenderOutput) :
  fst (render n s) = Ok rn -> fst (render d s) = Ok rd ->
  cursor rn <> None -> cursor rd <> None ->
  fst (render (Fraction n d) s) = Raise AssertionError.
Proof.
  intros Hn Hd Hcn Hcd.
  destruct (render_good n) as [_ Gn]. destruct (Gn s rn Hn) as (nw & Hn_ne & _ & Hn_all).
  destruct (render_good d) as [_ Gd]. destruct (Gd s rd Hd) as (dw & Hd_ne & _ & Hd_all).
  assert (Hnw : fst (width_of (render n) s) = Ok nw).
  { apply width_of_ok; [apply render_pure|]. exists rn. auto. }
  assert (Hdw : fst (width_of (render d) s) = Ok dw).
  { apply width_of_ok; [apply render_pure|]. exists rd. auto. }
  cbn [render]. unfold Fraction_render.
  bind_run Hnw. bind_run Hdw. bind_run Hn. bind_run Hd.
  replace (length (nodup Nat.eq_dec (map (@length N) (lines rn))) =? 1) with true
    by (symmetry; apply same_length_assertion; eauto).
  replace (length (nodup Nat.eq_dec (map (@length N) (lines rd))) =? 1) with true
    by (symmetry; apply same_length_assertion; eauto).
  rewrite bind_pure_unfold by pure_solve. cbn [assert ret fst].
  rewrite bind_pure_unfold by pure_solve. cbn [assert ret fst].
  destruct (cursor rn) as [cn|]; [|contradiction].
  destruct (cursor rd) as [cd|]; [|contradiction].
  reflexivity.
Qed.

End RenderErrors.

(** * The further properties at concrete inputs *)

Section MoreWitnesses.
#[local] Existing Instance glyphs_only.

Lemma list_align_pads_like_str_align_witness :
  exists left right,
    left + length (py "ab") + right = 5 /\ left <= right <= left + 1 /\
    str_align (py "ab") 5 = repeat SPACE left ++ py "ab" ++ repeat SPACE right /\
    list_align [Ansi TXT_COLOR; Ansi TXT_COLOR] 5
    = Ok (repeat no_color left ++ [Ansi TXT_COLOR; Ansi TXT_COLOR]
          ++ repeat no_color right).
Proof.
  apply (@list_align_pads_like_str_align (py "ab") [Ansi TXT_COLOR; Ansi TXT_COLOR] 5).
  - reflexivity.
  - simpl. lia.
  - discriminate.
Defined.

Lemma align_space_is_the_left_padding_witness :
  fst (align_space (width (Text 2)) 9 s_frac) = Ok ((9 - 5) / 2) /\
  (forall t : str, length t = 5 -> 5 <= 9 ->
     exists right,
       str_align t 9 = repeat SPACE ((9 - 5) / 2) ++ t ++ repeat SPACE right).
Proof.
  apply (@align_space_is_the_left_padding glyphs_only (Text 2) 9 s_frac 5).
  reflexivity.
Defined.

(** The text a with the cursor after it: the key 5 makes it a5. *)
Lemma printable_key_is_inserted_witness :
  let s' := snd (Text_press_key 0 (py "5") (Some root_ab) s_ab) in
  fst (Text_press_key 0 (py "5") (Some root_ab) s_ab) = Ok true /\
  heap s' 0
  = mkText (firstn 1 (self_text (heap s_ab 0)) ++ py "5"
            ++ skipn 1 (self_text (heap s_ab 0)))
           (Some (mkScreenOffset 0 (1 + 1))) /\
  (forall r, r <> 0 -> heap s' r = heap s_ab r) /\
  stderr s' = stderr s_ab ++ [D_INSERT (py "5")].
Proof.
  apply (@printable_key_is_inserted glyphs_only 0 (py "5") (Some root_ab) s_ab
           (mkScreenOffset 0 1)).
  - reflexivity.
  - reflexivity.
Defined.

Lemma horizontal_moves_stay_inside_the_text_witness :
  (1 <= 1 ->
   let s' := snd (press_keys root_ab (repeat key_LEFT 1) s_ab) in
   fst (press_keys root_ab (repeat key_LEFT 1) s_ab) = Ok tt /\
   heap s' 0 = mkText (self_text (heap s_ab 0))
                      (Some (mkScreenOffset 0 (1 - 1))) /\
   (forall r, r <> 0 -> heap s' r = heap s_ab r) /\ stderr s' = stderr s_ab) /\
  (1 + 1 <= length (self_text (heap s_ab 0)) ->
   let s' := snd (press_keys root_ab (repeat key_RIGHT 1) s_ab) in
   fst (press_keys root_ab (repeat key_RIGHT 1) s_ab) = Ok tt /\
   heap s' 0 = mkText (self_text (heap s_ab 0))
                      (Some (mkScreenOffset 0 (1 + 1))) /\
   (forall r, r <> 0 -> heap s' r = heap s_ab r) /\ stderr s' = stderr s_ab).
Proof.
  apply (@horizontal_moves_stay_inside_the_text glyphs_only root_ab [] [1] 0 1 s_ab
           (mkScreenOffset 0 1)).
  - reflexivity.
  - intros r [].
  - reflexivity.
Defined.

Lemma press_key_changes_only_the_tree_witness :
  heap (snd (press_key root_ab (py "x") None s_ab)) 7 = heap s_ab 7.
Proof.
  apply (@press_key_changes_only_the_tree glyphs_only root_ab (py "x") s_ab 7).
  intros [H|[H|[]]]; discriminate H.
Defined.

Lemma has_owner_ab : has_owner (heap s_ab) root_ab.
Proof. exists 0. split; [now left|discriminate]. Qed.

Lemma press_key_never_drops_the_cursor_witness :
  has_owner (heap (snd (press_key root_ab key_RIGHT None s_ab))) root_ab.
Proof.
  apply (@press_key_never_drops_the_cursor glyphs_only root_ab key_RIGHT s_ab).
  exact has_owner_ab.
Defined.

Lemma cursors_within_text_ab : cursors_within_text (heap s_ab) root_ab.
Proof.
  intros r cur [<-|[<-|[]]] Hc; [|discriminate Hc].
  injection Hc as <-. simpl. lia.
Qed.

Lemma press_key_returns_on_cursors_within_text_witness :
  exists accepted, fst (press_key root_ab key_BACKSPACE None s_ab) = Ok accepted.
Proof.
  apply (@press_key_returns_on_cursors_within_text glyphs_only root_ab
           key_BACKSPACE s_ab).
  exact cursors_within_text_ab.
Defined.

Lemma press_key_keeps_cursors_within_text_witness :
  cursors_within_text (heap (snd (press_key root_ab (py "x") None s_ab))) root_ab.
Proof.
  apply (@press_key_keeps_cursors_within_text glyphs_only root_ab (py "x") s_ab).
  - exact cursors_within_text_ab.
  - discriminate.
Defined.

Lemma cursors_on_first_row_ab : cursors_on_first_row (heap s_ab) root_ab.
Proof.
  intros r cur [<-|[<-|[]]] Hc; [|discriminate Hc].
  injection Hc as <-. reflexivity.
Qed.

Lemma press_key_keeps_cursors_on_first_row_witness :
  cursors_on_first_row (heap (snd (press_key root_ab key_RIGHT None s_ab))) root_ab.
Proof.
  apply (@press_key_keeps_cursors_on_first_row glyphs_only root_ab key_RIGHT s_ab).
  exact cursors_on_first_row_ab.
Defined.

Lemma move_down_focuses_next_leaf_witness :
  let s' := snd (press_key root_ab key_DOWN None s_ab) in
  fst (press_key root_ab key_DOWN None s_ab) = Ok true /\
  (forall mid N post',
      [Text 1] = mid ++ Text N :: post' -> (forall r, ~ In (Text r) mid) ->
      heap s' N = mkText (self_text (heap s_ab N)) (Some (mkScreenOffset 0 0)) /\
      (N <> 0 -> heap s' 0 = mkText (self_text (heap s_ab 0)) None) /\
      (forall r, r <> N -> r <> 0 -> heap s' r = heap s_ab r)) /\
  ((forall r, ~ In (Text r) [Text 1]) -> heap s' = heap s_ab).
Proof.
  apply (@move_down_focuses_next_leaf glyphs_only root_ab [root_ab] [Text 1] 0 s_ab
           (mkScreenOffset 0 1)).
  - reflexivity.
  - reflexivity.
  - intros r [H|[]]. discriminate H.
Defined.

(** The row of a and b, the cursor at column 0 of b. *)
Lemma left_then_right_returns_to_leaf_witness :
  let s1 := snd (press_key root_ab key_LEFT None s_ab_start) in
  let s2 := snd (press_key root_ab key_RIGHT None s1) in
  fst (press_key root_ab key_LEFT None s_ab_start) = Ok true /\
  heap s1 0 = mkText (self_text (heap s_ab_start 0))
                     (Some (mkScreenOffset 0 (length (self_text (heap s_ab_start 0))))) /\
  self_cursor (heap s1 1) = None /\
  fst (press_key root_ab key_RIGHT None s1) = Ok true /\
  heap s2 1 = mkText (self_text (heap s_ab_start 1)) (Some (mkScreenOffset 0 0)) /\
  (forall r, r <> 1 -> heap s2 r = heap s_ab_start r).
Proof.
  apply (@left_then_right_returns_to_leaf glyphs_only root_ab [root_ab] [] []
           0 1 s_ab_start (mkScreenOffset 0 0)).
  - reflexivity.
  - intros r [].
  - repeat constructor; simpl; intuition discriminate.
  - reflexivity.
  - reflexivity.
  - intros r [<-|[<-|[]]] Hr; [reflexivity | contradiction].
Defined.

Lemma lone_text_cancels_moves_out_of_it_witness :
  let cancelled :=
    (Ok true, mkState (heap s_ab) (stderr s_ab ++ [D_cancelling_vertical_movement])) in
  press_key (Text 0) key_UP None s_ab = cancelled /\
  press_key (Text 0) key_DOWN None s_ab = cancelled /\
  (1 = 0 -> press_key (Text 0) key_LEFT None s_ab = cancelled) /\
  (length (self_text (heap s_ab 0)) <= 1 ->
   press_key (Text 0) key_RIGHT None s_ab = cancelled).
Proof.
  apply (@lone_text_cancels_moves_out_of_it glyphs_only 0 s_ab (mkScreenOffset 0 1)).
  reflexivity.
Defined.

Lemma typing_inserts_the_string_witness :
  let s' := snd (press_keys root_ab (map (fun ch => [ch]) (py "xy")) s_ab) in
  fst (press_keys root_ab (map (fun ch => [ch]) (py "xy")) s_ab) = Ok tt /\
  heap s' 0
  = mkText (firstn 1 (self_text (heap s_ab 0)) ++ py "xy"
            ++ skipn 1 (self_text (heap s_ab 0)))
           (Some (mkScreenOffset 0 (1 + length (py "xy")))) /\
  (forall r, r <> 0 -> heap s' r = heap s_ab r) /\
  stderr s' = stderr s_ab ++ map (fun ch => D_INSERT [ch]) (py "xy").
Proof.
  apply (@typing_inserts_the_string glyphs_only root_ab [] [1] 0 (py "xy") s_ab
           (mkScreenOffset 0 1)).
  - reflexivity.
  - intros r [].
  - reflexivity.
  - simpl. lia.
  - reflexivity.
Defined.

Lemma erase_backward_undoes_a_typed_character_witness :
  let s1 := snd (press_key root_ab [LETTER_x] None s_ab) in
  let s2 := snd (press_key root_ab key_BACKSPACE None s1) in
  fst (press_key root_ab [LETTER_x] None s_ab) = Ok true /\
  fst (press_key root_ab key_BACKSPACE None s1) = Ok true /\
  (forall r, heap s2 r = heap s_ab r) /\
  stderr s2 = stderr s_ab ++ [D_INSERT [LETTER_x]; D_REMOVE LETTER_x].
Proof.
  apply (@erase_backward_undoes_a_typed_character glyphs_only root_ab [] [1] 0
           LETTER_x s_ab (mkScreenOffset 0 1)).
  - reflexivity.
  - intros r [].
  - reflexivity.
  - simpl. lia.
  - reflexivity.
Defined.

Lemma render_colors_match_the_lines_witness :
  exists r,
    fst (render root_frac s_frac) = Ok r /\
    length (colors r) = length (lines r) /\
    Forall2 (fun line color => length color = length line) (lines r) (colors r).
Proof.
  eexists. split.
  - vm_compute. reflexivity.
  - apply (@render_colors_match_the_lines glyphs_only root_frac s_frac).
    vm_compute. reflexivity.
Defined.

Lemma fraction_bar_is_the_baseline_row_witness :
  exists r,
    fst (render (Fraction (Text 1) (Text 2)) s_frac) = Ok r /\
    exists rn rd nw dw,
      fst (render (Text 1) s_frac) = Ok rn /\ fst (render (Text 2) s_frac) = Ok rd /\
      fst (width (Text 1) s_frac) = Ok nw /\ fst (width (Text 2) s_frac) = Ok dw /\
      fst (width (Fraction (Text 1) (Text 2)) s_frac) = Ok (2 + Nat.max nw dw) /\
      length (lines r) = length (lines rn) + 1 + length (lines rd) /\
      baseline r = length (lines rn) /\
      nth_error (lines r) (baseline r) = Some (repeat HBAR (2 + Nat.max nw dw)) /\
      nth_error (colors r) (baseline r)
      = Some (repeat (Ansi FRAC_COLOR) (2 + Nat.max nw dw)) /\
      (forall i l, nth_error (lines rn) i = Some l ->
                   nth_error (lines r) i = Some (str_align l (2 + Nat.max nw dw))) /\
      (forall i l, nth_error (lines rd) i = Some l ->
                   nth_error (lines r) (baseline r + 1 + i)
                   = Some (str_align l (2 + Nat.max nw dw))).
Proof.
  eexists. split.
  - vm_compute. reflexivity.
  - apply (@fraction_bar_is_the_baseline_row glyphs_only (Text 1) (Text 2) s_frac).
    vm_compute. reflexivity.
Defined.

Lemma parenthesis_wraps_every_line_witness :
  exists r,
    fst (render (Parenthesis (Fraction (Text 1) (Text 2))) s_frac) = Ok r /\
    exists rx w cur,
      fst (render (Fraction (Text 1) (Text 2)) s_frac) = Ok rx /\
      fst (width (Fraction (Text 1) (Text 2)) s_frac) = Ok w /\
      cursor rx = Some cur /\
      fst (width (Parenthesis (Fraction (Text 1) (Text 2))) s_frac) = Ok (w + 2) /\
      length (lines r) = length (lines rx) /\
      baseline r = (if length (lines rx) =? 1 then 0 else baseline rx) /\
      cursor r = Some (mkScreenOffset (row cur) (col cur + 1)) /\
      forall i l,
        nth_error (lines rx) i = Some l ->
        nth_error (lines r) i
        = Some (if length (lines rx) =? 1 then [LPAREN] ++ l ++ [RPAREN]
                else [if i =? 0 then LPAREN_TOP
                      else if i <? length (lines rx) - 1 then LPAREN_MID
                      else LPAREN_BOT]
                     ++ l
                     ++ [if i =? 0 then RPAREN_TOP
                         else if i <? length (lines rx) - 1 then RPAREN_MID
                         else RPAREN_BOT]).
Proof.
  eexists. split.
  - vm_compute. reflexivity.
  - apply (@parenthesis_wraps_every_line glyphs_only (Fraction (Text 1) (Text 2)) s_frac).
    vm_compute. reflexivity.
Defined.

Lemma row_aligns_the_baselines_witness :
  exists r,
    fst (render root_frac s_frac) = Ok r /\
    exists rws : list (RenderOutput * nat),
      Forall2 (fun item rw => fst (render item s_frac) = Ok (fst rw) /\
                              fst (width item s_frac) = Ok (snd rw))
              [Text 0; Fraction (Text 1) (Text 2)] rws /\
      fst (width root_frac s_frac) = Ok (list_sum (map snd rws)) /\
      baseline r = list_max (map (fun rw => baseline (fst rw)) rws) /\
      length (lines r)
      = list_max (map (fun rw => baseline r - baseline (fst rw)
                                 + length (lines (fst rw))) rws) /\
      (cursor r = None <-> Forall (fun rw => cursor (fst rw) = None) rws) /\
      forall c, cursor r = Some c ->
        exists pre rw post ci,
          rws = pre ++ rw :: post /\ cursor (fst rw) = Some ci /\
          Forall (fun rw => cursor (fst rw) = None) post /\
          c = mkScreenOffset (row ci + baseline r - baseline (fst rw))
                             (col ci + list_sum (map snd pre)).
Proof.
  eexists. split.
  - vm_compute. reflexivity.
  - apply (@row_aligns_the_baselines glyphs_only
             [Text 0; Fraction (Text 1) (Text 2)] s_frac).
    vm_compute. reflexivity.
Defined.

Lemma cursors_within_text_frac : cursors_within_text (heap s_frac) root_frac.
Proof.
  intros r cur [<-|[<-|[<-|[]]]] Hc; try discriminate Hc.
  injection Hc as <-. simpl. lia.
Qed.

Lemma cursors_on_first_row_frac : cursors_on_first_row (heap s_frac) root_frac.
Proof.
  intros r cur [<-|[<-|[<-|[]]]] Hc; try discriminate Hc.
  injection Hc as <-. reflexivity.
Qed.

Lemma render_keeps_the_cursor_inside_witness :
  exists r,
    fst (render root_frac s_frac) = Ok r /\
    exists w,
      fst (width root_frac s_frac) = Ok w /\ all_length w (lines r) /\
      baseline r < length (lines r) /\
      forall cur, cursor r = Some cur ->
                  row cur < length (lines r) /\ col cur <= w.
Proof.
  eexists. split.
  - vm_compute. reflexivity.
  - apply (@render_keeps_the_cursor_inside glyphs_only root_frac s_frac).
    + exact cursors_within_text_frac.
    + exact cursors_on_first_row_frac.
    + vm_compute. reflexivity.
Defined.

Lemma row_of_one_item_renders_as_the_item_witness :
  exists r,
    fst (render (Fraction (Text 1) (Text 2)) s_frac) = Ok r /\
    fst (render (Row [Fraction (Text 1) (Text 2)]) s_frac) = Ok r.
Proof.
  eexists. split.
  - vm_compute. reflexivity.
  - apply (@row_of_one_item_renders_as_the_item glyphs_only
             (Fraction (Text 1) (Text 2)) s_frac).
    vm_compute. reflexivity.
Defined.

Lemma render_exposes_a_cursor_exactly_with_an_owner_witness :
  exists r,
    fst (render root_frac s_frac) = Ok r /\
    (cursor r = None <-> ~ has_owner (heap s_frac) root_frac).
Proof.
  eexists. split.
  - vm_compute. reflexivity.
  - apply (@render_exposes_a_cursor_exactly_with_an_owner glyphs_only root_frac s_frac).
    vm_compute. reflexivity.
Defined.

Lemma fraction_with_two_cursors_raises_witness :
  fst (render (Fraction (Text 0) (Text 1)) s_ab_both) = Raise AssertionError.
Proof.
  apply (@fraction_with_two_cursors_raises glyphs_only (Text 0) (Text 1) s_ab_both
           (mkRenderOutput [py "a"] [colorize (py "a")] 0 (Some (mkScreenOffset 0 1)))
           (mkRenderOutput [py "b"] [colorize (py "b")] 0 (Some (mkScreenOffset 0 0)))).
  - reflexivity.
  - reflexivity.
  - discriminate.
  - discriminate.
Defined.

End MoreWitnesses.
